(** * Spectral-subtraction denoiser: a shallow embedding of the Go backend

    The embedded program is the Go backend of the noise-cancellation service:
    the radix-2 FFT kernel ([FFT], [IFFT], [bitReverse], [reverseBits],
    [isPowerOf2]), the Hann window ([HannWindow]), the framing helpers of
    denoise.go ([extractFrame], [applyWindow], [realToComplex], [normalize]),
    the pipeline [Denoise] and the 16-bit PCM WAV codec ([ReadWAV],
    [WriteWAV]).

    Modelling choices.
    - [float64] is an interface ([Float64]): the program is written once over
      it.  Two instances are given: exact real arithmetic ([R_Float64], the
      reading "up to rounding") and IEEE binary64 ([prim_Float64], Rocq's
      primitive floats, with Go's math library left as a parameter).
    - Slices are references into a heap of arrays; every Go function is a
      computation in a state-and-panic monad over that heap, so that aliasing
      and in-place updates are those of the source.
    - Go's [int] is modelled by [nat] where it counts or indexes (every such
      value is bounded by the length of an allocated slice, so no 64-bit
      wrap-around can occur) and by [Z] where it is data (sample rate, PCM
      sample values), with the conversions to fixed-width types written out. *)

From Stdlib Require Import ZArith List Lia Reals Lra QArith Floats Ascii String.
From stdpp Require Import base list.

Set Default Proof Using "Type".

(** ** The float64 interface *)

Declare Scope fl_scope.
Declare Scope go_scope.
Delimit Scope fl_scope with fl.

Class Float64 (F : Type) : Type := {
  fadd : F → F → F;
  fsub : F → F → F;
  fmul : F → F → F;
  fdiv : F → F → F;
  fneg : F → F;
  fabs : F → F;                (* math.Abs *)
  fltb : F → F → bool;         (* a < b *)
  fleb : F → F → bool;         (* a <= b *)
  fofZ : Z → F;                (* float64(i) for an integer i *)
  flit : Q → F;                (* a decimal constant of the source *)
  fpi : F;                     (* math.Pi *)
  m_cos : F → F;               (* math.Cos *)
  m_sin : F → F;               (* math.Sin, through math.Sincos *)
  m_exp : F → F;               (* math.Exp *)
  m_atan2 : F → F → F;         (* math.Atan2 y x *)
  m_hypot : F → F → F;         (* math.Hypot *)
  m_round : F → F;             (* math.Round: half away from zero *)
  f2Z : F → Z                  (* conversion to an integer type: truncation *)
}.

Infix "+" := fadd : fl_scope.
Infix "-" := fsub : fl_scope.
Infix "*" := fmul : fl_scope.
Infix "/" := fdiv : fl_scope.
Notation "- x" := (fneg x) : fl_scope.
Notation "a <? b" := (fltb a b) : fl_scope.
Notation "a <=? b" := (fleb a b) : fl_scope.

(** *** Exact real arithmetic *)

Definition R_atan2 (y x : R) : R :=
  if Rlt_dec 0 x then atan (y / x)
  else if Rlt_dec x 0 then
    (if Rle_dec 0 y then atan (y / x) + PI else atan (y / x) - PI)%R
  else if Rlt_dec 0 y then (PI / 2)%R
  else if Rlt_dec y 0 then (- (PI / 2))%R
  else 0%R.

Definition R_round (x : R) : R :=
  if Rle_dec 0 x then IZR (Zfloor (x + / 2)%R) else IZR (Zceil (x - / 2)%R).

Definition R_trunc (x : R) : Z :=
  if Rle_dec 0 x then Zfloor x else Zceil x.

#[export] Instance R_Float64 : Float64 R := {|
  fadd := Rplus;
  fsub := Rminus;
  fmul := Rmult;
  fdiv := Rdiv;
  fneg := Ropp;
  fabs := Rabs;
  fltb := λ a b, if Rlt_dec a b then true else false;
  fleb := λ a b, if Rle_dec a b then true else false;
  fofZ := IZR;
  flit := Q2R;
  fpi := PI;
  m_cos := cos;
  m_sin := sin;
  m_exp := exp;
  m_atan2 := R_atan2;
  m_hypot := λ x y, R_sqrt.sqrt (x * x + y * y)%R;
  m_round := R_round;
  f2Z := R_trunc
|}.

(** *** IEEE binary64

    The arithmetic is that of Rocq's primitive floats.  The functions of Go's
    math package are not part of the repository: they are a parameter. *)

Record GoMath : Type := {
  math_Cos : float → float;
  math_Sin : float → float;
  math_Exp : float → float;
  math_Atan2 : float → float → float;
  math_Hypot : float → float → float;
  math_Round : float → float
}.

Definition prim_ofZ (z : Z) : float :=
  match z with
  | Z0 => PrimFloat.zero
  | Zpos _ => PrimFloat.of_uint63 (Uint63.of_Z z)
  | Zneg _ => PrimFloat.opp (PrimFloat.of_uint63 (Uint63.of_Z (- z)))
  end.

(** The value of a finite float as a rational; [None] for NaN and infinities. *)
Definition prim_toQ (x : float) : option Q :=
  match Prim2SF x with
  | S754_zero _ => Some 0%Q
  | S754_finite s m e =>
      let v := match e with
               | Zneg p => Qmake (Zpos m) (2 ^ p)
               | _ => inject_Z (Zpos m * 2 ^ e)
               end in
      Some (if s then Qopp v else v)
  | _ => None
  end.

Definition prim_trunc (x : float) : Z :=
  match Prim2SF x with
  | S754_finite s m e =>
      let a := match e with
               | Zneg p => (Zpos m / 2 ^ Zpos p)%Z
               | _ => (Zpos m * 2 ^ e)%Z
               end in
      if s then (- a)%Z else a
  | _ => 0%Z
  end.

Definition prim_Float64 (G : GoMath) : Float64 float := {|
  fadd := PrimFloat.add;
  fsub := PrimFloat.sub;
  fmul := PrimFloat.mul;
  fdiv := PrimFloat.div;
  fneg := PrimFloat.opp;
  fabs := PrimFloat.abs;
  fltb := PrimFloat.ltb;
  fleb := PrimFloat.leb;
  fofZ := prim_ofZ;
  flit := λ q, PrimFloat.div (prim_ofZ (Qnum q)) (prim_ofZ (Zpos (Qden q)));
  fpi := 0x1.921fb54442d18p+1%float;
  m_cos := math_Cos G;
  m_sin := math_Sin G;
  m_exp := math_Exp G;
  m_atan2 := math_Atan2 G;
  m_hypot := math_Hypot G;
  m_round := math_Round G;
  f2Z := prim_trunc
|}.

(** ** Constants of denoise.go *)

Definition FrameSize : nat := 2048.
Definition HopSize : nat := FrameSize / 2.
Definition NoiseFrames : nat := 10.
Definition SpectralFloor : Q := 0.02.
Definition OverSubtract : Q := 2.

(** ** Integer helpers of the FFT kernel (pure in the source) *)

(** [n > 0 && (n&(n-1)) == 0] *)
Definition isPowerOf2 (n : nat) : bool :=
  (0 <? n) && (Nat.land n (n - 1) =? 0).

(** One iteration of the loop of [reverseBits] on the pair [(r, v)]. *)
Definition reverseBits_step (rv : nat * nat) : nat * nat :=
  (Nat.lor (Nat.shiftl (fst rv) 1) (Nat.land (snd rv) 1), Nat.shiftr (snd rv) 1).

Definition reverseBits (v bits : nat) : nat :=
  fst (Nat.iter bits reverseBits_step (0, v)).

(** [int(math.Log2(float64(n)))].  Go's [math.Log2] is exact on powers of two,
    the only lengths on which the kernel reaches this expression ([FFT] panics
    before, and [bitReverse] has no other caller). *)
Definition ilog2 (n : nat) : nat := Nat.log2 n.

(** The values of [k] in [for k := lo; k < hi; k += step]. *)
Fixpoint range_step_aux (fuel k hi step : nat) : list nat :=
  match fuel with
  | O => []
  | S fuel' => if k <? hi then k :: range_step_aux fuel' (k + step) hi step else []
  end.

Definition range_step (lo hi step : nat) : list nat :=
  range_step_aux (hi - lo) lo hi step.


(** ** The program *)

Section Program.

Context {F : Type} `{Float64 F}.

Definition f0 : F := fofZ 0.

(** *** complex128 and the functions of math/cmplx the source calls *)

Record complex128 : Type := Cx { re : F; im : F }.

Definition c0 : complex128 := Cx f0 f0.

Definition cadd (a b : complex128) : complex128 :=
  Cx (re a + re b)%fl (im a + im b)%fl.

Definition csub (a b : complex128) : complex128 :=
  Cx (re a - re b)%fl (im a - im b)%fl.

(** The compiler's lowering of a complex product. *)
Definition cmul (a b : complex128) : complex128 :=
  Cx (re a * re b - im a * im b)%fl (re a * im b + im a * re b)%fl.

(** The tests of the runtime on a float64: [isNaN(f)] is [f != f],
    [isFinite(f)] is [!isNaN(f - f)], [isInf(f)] is
    [!isNaN(f) && !isFinite(f)]. *)
Definition isNaN (f : F) : bool := negb (f <=? f)%fl.
Definition isFinite (f : F) : bool := negb (isNaN (f - f)%fl).
Definition isInf (f : F) : bool := negb (isNaN f) && negb (isFinite f).

(** The runtime's constant [inf]. *)
Definition inf : F := (flit 1 / f0)%fl.

(** The sign bit, read off by comparisons (of a zero, through its inverse);
    that of a NaN is taken to be unset. *)
Definition signbit (f : F) : bool :=
  (f <? f0)%fl || ((f0 <=? f)%fl && (f <=? f0)%fl && (flit 1 / f <? f0)%fl).

(** [copysign(f, g)]: the magnitude of [f] with the sign of [g]. *)
Definition copysign (f g : F) : F :=
  if signbit g then (- fabs f)%fl else fabs f.

(** [inf2one(f)]: a signed 1 if [f] is an infinity, a signed 0 otherwise. *)
Definition inf2one (f : F) : F :=
  copysign (if isInf f then flit 1 else flit 0) f.

(** The runtime's complex quotient [n / m], [complex128div]: Smith's
    algorithm, *)
Definition cdiv_smith (n m : complex128) : complex128 :=
  if (fabs (im m) <=? fabs (re m))%fl then
    let ratio := (im m / re m)%fl in
    let denom := (re m + ratio * im m)%fl in
    Cx ((re n + im n * ratio) / denom)%fl ((im n - re n * ratio) / denom)%fl
  else
    let ratio := (re m / im m)%fl in
    let denom := (im m + ratio * re m)%fl in
    Cx ((re n * ratio + im n) / denom)%fl ((im n * ratio - re n) / denom)%fl.

(** its correction of a result [q] whose two parts are NaN to infinities and
    zeros, *)
Definition cdiv_repair (n m q : complex128) : complex128 :=
  let a := re n in
  let b := im n in
  let c := re m in
  let d := im m in
  (* m == 0 && (!isNaN(a) || !isNaN(b)) *)
  if ((f0 <=? c)%fl && (c <=? f0)%fl && (f0 <=? d)%fl && (d <=? f0)%fl)
     && (negb (isNaN a) || negb (isNaN b)) then
    Cx (copysign inf c * a)%fl (copysign inf c * b)%fl
  else if (isInf a || isInf b) && isFinite c && isFinite d then
    let a := inf2one a in
    let b := inf2one b in
    Cx (inf * (a * c + b * d))%fl (inf * (b * c - a * d))%fl
  else if (isInf c || isInf d) && isFinite a && isFinite b then
    let c := inf2one c in
    let d := inf2one d in
    Cx (flit 0 * (a * c + b * d))%fl (flit 0 * (b * c - a * d))%fl
  else q.

(** and the quotient. *)
Definition cdiv (n m : complex128) : complex128 :=
  let q := cdiv_smith n m in
  if isNaN (re q) && isNaN (im q) then cdiv_repair n m q else q.

Definition cmplx_Conj (z : complex128) : complex128 := Cx (re z) (- im z)%fl.
Definition cmplx_Abs (z : complex128) : F := m_hypot (re z) (im z).
Definition cmplx_Phase (z : complex128) : F := m_atan2 (im z) (re z).
Definition cmplx_Rect (r θ : F) : complex128 :=
  Cx (r * m_cos θ)%fl (r * m_sin θ)%fl.
(** [cmplx.Exp] on a finite argument (its special cases are for an infinite or
    NaN real part; the source passes real part 0). *)
Definition cmplx_Exp (z : complex128) : complex128 :=
  let r := m_exp (re z) in Cx (r * m_cos (im z))%fl (r * m_sin (im z))%fl.

(** *** The heap of arrays, and the monad of Go computations

    An address is a position in the heap; [make] allocates at the end.  A
    slice is [None] (nil) or the address of its array: the source only passes
    whole arrays around (the one slice expression, in [extractFrame], is
    consumed at once by [copy]). *)

Inductive cell : Type :=
  | FArr (xs : list F)
  | CArr (zs : list complex128).

Local Abbreviation heap := (list cell).
Local Abbreviation slice := (option nat).

Inductive panic : Type :=
  | InvalidLength      (* panic("fft: length must be a power of 2") *)
  | IndexOutOfRange    (* runtime: index out of range *)
  | SliceBounds        (* runtime: slice bounds out of range *)
  | BadReference.      (* an address that holds no array of the expected type *)

Inductive outcome (A : Type) : Type :=
  | Ok (a : A) (h : heap)
  | Panic (e : panic).
Arguments Ok {A} a h.
Arguments Panic {A} e.

Definition M (A : Type) : Type := heap → outcome A.

Definition ret {A} (a : A) : M A := λ h, Ok a h.
Definition bind {A B} (m : M A) (k : A → M B) : M B :=
  λ h, match m h with Ok a h' => k a h' | Panic e => Panic e end.
Definition throw {A} (e : panic) : M A := λ _, Panic e.

Notation "x <- m ;; k" := (bind m (λ x, k))
  (at level 100, m at next level, k at level 200, right associativity) : go_scope.
Notation "m ;; k" := (bind m (λ _, k))
  (at level 100, k at level 200, right associativity) : go_scope.
Local Open Scope go_scope.

Definition loadF (s : slice) : M (list F) := λ h,
  match s with
  | None => Ok [] h
  | Some l => match h !! l with
              | Some (FArr xs) => Ok xs h
              | _ => Panic BadReference
              end
  end.

Definition loadC (s : slice) : M (list complex128) := λ h,
  match s with
  | None => Ok [] h
  | Some l => match h !! l with
              | Some (CArr zs) => Ok zs h
              | _ => Panic BadReference
              end
  end.

(** Overwrite the array of a slice (nothing to write for nil). *)
Definition store (s : slice) (c : cell) : M unit := λ h,
  match s with
  | None => Ok tt h
  | Some l => Ok tt (<[l := c]> h)
  end.

Definition alloc (c : cell) : M slice := λ h, Ok (Some (length h)) (h ++ [c]).

(** [make([]float64, n)], [make([]complex128, n)] *)
Definition makeF (n : nat) : M slice := alloc (FArr (replicate n f0)).
Definition makeC (n : nat) : M slice := alloc (CArr (replicate n c0)).

(** [len(s)] *)
Definition lenF (s : slice) : M nat := xs <- loadF s;; ret (length xs).
Definition lenC (s : slice) : M nat := zs <- loadC s;; ret (length zs).

(** [s[i]] *)
Definition getF (s : slice) (i : nat) : M F :=
  xs <- loadF s;;
  match xs !! i with Some v => ret v | None => throw IndexOutOfRange end.
Definition getC (s : slice) (i : nat) : M complex128 :=
  zs <- loadC s;;
  match zs !! i with Some v => ret v | None => throw IndexOutOfRange end.

(** [s[i] = v] *)
Definition setF (s : slice) (i : nat) (v : F) : M unit :=
  xs <- loadF s;;
  if i <? length xs then store s (FArr (<[i := v]> xs)) else throw IndexOutOfRange.
Definition setC (s : slice) (i : nat) (v : complex128) : M unit :=
  zs <- loadC s;;
  if i <? length zs then store s (CArr (<[i := v]> zs)) else throw IndexOutOfRange.

(** The elements of [s[lo:hi]]. *)
Definition sliceF (s : slice) (lo hi : nat) : M (list F) :=
  xs <- loadF s;;
  if (lo <=? hi) && (hi <=? length xs) then ret (take (hi - lo) (drop lo xs))
  else throw SliceBounds.

(** [copy(dst, src)], [src] given by its elements: the first
    [min(len(dst), len(src))] elements are overwritten. *)
Definition overwrite {A} (dst src : list A) : list A :=
  take (length dst) src ++ drop (length src) dst.
Definition copyF (dst : slice) (src : list F) : M unit :=
  xs <- loadF dst;; store dst (FArr (overwrite xs src)).
Definition copyC (dst : slice) (src : list complex128) : M unit :=
  zs <- loadC dst;; store dst (CArr (overwrite zs src)).

(** Counted loops: the body runs once for each index of the list, in order,
    threading the local variables [s] it assigns. *)
Fixpoint for_in {St} (l : list nat) (body : nat → St → M St) (s : St) : M St :=
  match l with
  | [] => ret s
  | i :: l' => s' <- body i s;; for_in l' body s'
  end.

(** [for i := lo; i < hi; i++] *)
Definition for_range {St} (lo hi : nat) (body : nat → St → M St) (s : St) : M St :=
  for_in (seq lo (hi - lo)) body s.

(** *** window.go *)

Definition hann (n i : nat) : F :=
  (flit 0.5 * (flit 1 - m_cos (flit 2 * fpi * fofZ (Z.of_nat i) / fofZ (Z.of_nat (n - 1)))))%fl.

Definition HannWindow (n : nat) : M slice :=
  if n <=? 1 then alloc (FArr [flit 1])
  else
    w <- makeF n;;
    for_range 0 n (λ i _, setF w i (hann n i)) tt;;
    ret w.

(** *** fft.go *)

Definition bitReverse (x : slice) : M unit :=
  n <- lenC x;;
  let bits := ilog2 n in
  for_range 0 n (λ i _,
    let j := reverseBits i bits in
    if i <? j then
      a <- getC x j;;
      b <- getC x i;;
      setC x i a;;
      setC x j b
    else ret tt) tt.

(** The twiddle factor [cmplx.Exp(complex(0, -2*math.Pi/float64(m)))]. *)
Definition twiddle (m : nat) : complex128 :=
  cmplx_Exp (Cx f0 (- (flit 2 * fpi) / fofZ (Z.of_nat m))%fl).

Definition c1 : complex128 := Cx (flit 1) f0.

(** The innermost loop: the butterflies of the span starting at [k]. *)
Definition butterflies (out : slice) (m k : nat) (wm : complex128) : M complex128 :=
  for_range 0 (m / 2) (λ j w,
    a <- getC out (k + j + m / 2);;
    let t := cmul w a in
    u <- getC out (k + j);;
    setC out (k + j) (cadd u t);;
    setC out (k + j + m / 2) (csub u t);;
    ret (cmul w wm)) c1.

Definition FFT (x : slice) : M slice :=
  n <- lenC x;;
  if n =? 0 then ret None
  else if negb (isPowerOf2 n) then throw InvalidLength
  else
    out <- makeC n;;
    xs <- loadC x;;
    copyC out xs;;
    bitReverse out;;
    for_range 1 (ilog2 n + 1) (λ s _,
      let m := 2 ^ s in
      let wm := twiddle m in
      for_in (range_step 0 n m) (λ k _, butterflies out m k wm;; ret tt) tt) tt;;
    ret out.

Definition IFFT (X : slice) : M slice :=
  n <- lenC X;;
  if n =? 0 then ret None
  else
    conj <- makeC n;;
    for_range 0 n (λ i _, v <- getC X i;; setC conj i (cmplx_Conj v)) tt;;
    result <- FFT conj;;
    let scale := Cx (fofZ (Z.of_nat n)) f0 in
    m <- lenC result;;
    for_range 0 m (λ i _,
      v <- getC result i;; setC result i (cdiv (cmplx_Conj v) scale)) tt;;
    ret result.

(** *** denoise.go *)

Definition extractFrame (src : slice) (start size : nat) : M slice :=
  frame <- makeF size;;
  n <- lenF src;;
  let end_ := start + size in
  let end_ := if n <? end_ then n else end_ in
  v <- sliceF src start end_;;
  copyF frame v;;
  ret frame.

Definition applyWindow (frame window : slice) : M unit :=
  n <- lenF frame;;
  for_range 0 n (λ i _,
    a <- getF frame i;;
    b <- getF window i;;
    setF frame i (a * b)%fl) tt.

Definition realToComplex (x : slice) : M slice :=
  n <- lenF x;;
  cx <- makeC n;;
  for_range 0 n (λ i _, v <- getF x i;; setC cx i (Cx v f0)) tt;;
  ret cx.

Definition normalize (samples : slice) (targetLevel : F) : M unit :=
  n <- lenF samples;;
  peak <- for_range 0 n (λ i peak,
    s <- getF samples i;;
    let a := fabs s in
    ret (if (peak <? a)%fl then a else peak)) f0;;
  if (peak <? flit 1e-10)%fl then ret tt
  else
    let gain := (targetLevel / peak)%fl in
    for_range 0 n (λ i _, s <- getF samples i;; setF samples i (s * gain)%fl) tt.

(** The spectrum of the windowed frame [fi] (the first four statements of
    both frame loops). *)
Definition frameSpectrum (samples window : slice) (fi : nat) : M slice :=
  let start := fi * HopSize in
  frame <- extractFrame samples start FrameSize;;
  applyWindow frame window;;
  cx <- realToComplex frame;;
  FFT cx.

(** Step 1: the noise magnitude spectrum, averaged over the initial frames. *)
Definition estimateNoise (samples window noiseMag : slice) (noiseFrames : nat) : M unit :=
  for_range 0 noiseFrames (λ fi _,
    spectrum <- frameSpectrum samples window fi;;
    for_range 0 FrameSize (λ k _,
      a <- getF noiseMag k;;
      z <- getC spectrum k;;
      setF noiseMag k (a + cmplx_Abs z)%fl) tt) tt;;
  n <- lenF noiseMag;;
  for_range 0 n (λ k _,
    a <- getF noiseMag k;;
    setF noiseMag k (a / fofZ (Z.of_nat noiseFrames))%fl) tt.

(** The new value of a bin of the spectrum. *)
Definition subtractBin (z : complex128) (noise : F) : complex128 :=
  let mag := cmplx_Abs z in
  let phase := cmplx_Phase z in
  let cleanMag := (mag - flit OverSubtract * noise)%fl in
  let floor := (flit SpectralFloor * mag)%fl in
  let cleanMag := if (cleanMag <? floor)%fl then floor else cleanMag in
  cmplx_Rect cleanMag phase.

(** Step 2: spectral subtraction of every frame and overlap-add. *)
Definition subtractFrames (samples window noiseMag output windowSum : slice)
    (n totalFrames : nat) : M unit :=
  for_range 0 totalFrames (λ fi _,
    let start := fi * HopSize in
    spectrum <- frameSpectrum samples window fi;;
    for_range 0 FrameSize (λ k _,
      z <- getC spectrum k;;
      nm <- getF noiseMag k;;
      setC spectrum k (subtractBin z nm)) tt;;
    cleaned <- IFFT spectrum;;
    for_range 0 FrameSize (λ j _,
      let idx := start + j in
      if idx <? n then
        o <- getF output idx;;
        c <- getC cleaned j;;
        w <- getF window j;;
        setF output idx (o + re c * w)%fl;;
        ws <- getF windowSum idx;;
        setF windowSum idx (ws + w * w)%fl
      else ret tt) tt) tt.

(** Step 3: division by the accumulated window energy. *)
Definition divideByWindowSum (output windowSum : slice) (n : nat) : M unit :=
  for_range 0 n (λ i _,
    ws <- getF windowSum i;;
    if (flit 1e-8 <? ws)%fl then
      o <- getF output i;; setF output i (o / ws)%fl
    else ret tt) tt.

Definition Denoise (samples : slice) (sampleRate : Z) : M slice :=
  n <- lenF samples;;
  if n =? 0 then ret None
  else
    sn <- (if n <? FrameSize then
            padded <- makeF FrameSize;;
            xs <- loadF samples;;
            copyF padded xs;;
            ret (padded, FrameSize)
          else ret (samples, n));;
    let samples := fst sn in
    let n := snd sn in
    let totalFrames := (n - FrameSize) / HopSize + 1 in
    let totalFrames := if totalFrames <? 1 then 1 else totalFrames in
    let noiseFrames := NoiseFrames in
    let noiseFrames := if totalFrames <? noiseFrames then totalFrames else noiseFrames in
    window <- HannWindow FrameSize;;
    noiseMag <- makeF FrameSize;;
    estimateNoise samples window noiseMag noiseFrames;;
    output <- makeF n;;
    windowSum <- makeF n;;
    subtractFrames samples window noiseMag output windowSum n totalFrames;;
    divideByWindowSum output windowSum n;;
    normalize output (flit 0.95);;
    ret output.

End Program.

Arguments Ok {F A} a h.
Arguments Panic {F A} e.
Arguments complex128 F : clear implicits.
Arguments cell F : clear implicits.
Abbreviation heap F := (list (cell F)).
Abbreviation slice := (option nat).
Arguments outcome F A : clear implicits.
Arguments M F A : clear implicits.

(** ** wav.go: the 16-bit PCM WAV codec

    The codec is pure in the source (it builds and returns fresh buffers); a
    byte is an integer in [0, 256). *)

Section WAV.

Context {F : Type} `{Float64 F}.

Record WAVHeader : Type := {
  SampleRate : Z;
  NumChannels : Z;
  BitsPerSample : Z
}.

Inductive wav_error : Type :=
  | FileTooShort            (* "wav: file too short" *)
  | MissingRIFF             (* "wav: missing RIFF header" *)
  | MissingWAVE             (* "wav: missing WAVE identifier" *)
  | FmtTooSmall             (* "wav: fmt chunk too small" *)
  | FmtTruncated            (* "wav: fmt chunk truncated" *)
  | UnsupportedFormat (audioFormat : Z)
  | UnsupportedBits (bits : Z)
  | NoFmtChunk              (* "wav: no fmt chunk found" *)
  | NoDataChunk             (* "wav: no data chunk found" *)
  | OutOfFuel.              (* the chunk walk did not end (never the case) *)

(** The bytes of an ASCII string. *)
Definition ascii_bytes (s : string) : list Z :=
  map (λ a, Z.of_N (N_of_ascii a)) (list_ascii_of_string s).

(** [binary.Write(buf, binary.LittleEndian, v)] for [v] converted to an
    integer type of [width] bytes: the little-endian bytes of [v mod 2^(8*width)]. *)
Definition le_bytes (width : nat) (v : Z) : list Z :=
  map (λ i, (v / 2 ^ (8 * Z.of_nat i)) mod 256)%Z (seq 0 width).

(** [binary.LittleEndian.Uint16], [Uint32] on a slice of that many bytes. *)
Definition le_uint (bs : list Z) : Z :=
  fold_right (λ b acc, b + 256 * acc)%Z 0%Z bs.

(** [data[lo:hi]] *)
Definition bytes_at (data : list Z) (lo hi : nat) : list Z :=
  take (hi - lo) (drop lo data).

(** [int16(u)] for a [uint16] [u]. *)
Definition int16_of_uint16 (u : Z) : Z :=
  if (u <? 32768)%Z then u else (u - 65536)%Z.

(** The clamp and the conversion of one sample in [WriteWAV]. *)
Definition sample_to_int16 (s : F) : Z :=
  let s := if (flit 1 <? s)%fl then flit 1
           else if (s <? - flit 1)%fl then (- flit 1)%fl
           else s in
  if (flit 0 <=? s)%fl then f2Z (m_round (s * flit 32767)%fl)
  else f2Z (m_round (s * flit 32768)%fl).

Definition WriteWAV (samples : list F) (sampleRate : Z) : list Z :=
  let numSamples := Z.of_nat (length samples) in
  let dataSize := (numSamples * 2)%Z in
  let fileSize := (36 + dataSize)%Z in
  ascii_bytes "RIFF" ++ le_bytes 4 fileSize ++ ascii_bytes "WAVE"
  ++ ascii_bytes "fmt " ++ le_bytes 4 16 ++ le_bytes 2 1 ++ le_bytes 2 1
  ++ le_bytes 4 sampleRate ++ le_bytes 4 (sampleRate * 2) ++ le_bytes 2 2
  ++ le_bytes 2 16
  ++ ascii_bytes "data" ++ le_bytes 4 dataSize
  ++ flat_map (λ s, le_bytes 2 (sample_to_int16 s)) samples.

(** The chunk walk of [ReadWAV]: [for pos+8 <= len(data)].  Every iteration
    advances [pos] by at least 8, so [len(data)] iterations are enough. *)
Fixpoint walk_chunks (fuel : nat) (data : list Z) (pos : nat)
    (header : option WAVHeader) (pcmData : option (list Z))
    : wav_error + (option WAVHeader * option (list Z)) :=
  if pos + 8 <=? length data then
    match fuel with
    | O => inl OutOfFuel
    | S fuel' =>
        let chunkID := bytes_at data pos (pos + 4) in
        let chunkSize := Z.to_nat (le_uint (bytes_at data (pos + 4) (pos + 8))) in
        let chunkStart := pos + 8 in
        let pos' := chunkStart + chunkSize + (if Nat.eqb (chunkSize mod 2) 0 then 0 else 1) in
        if decide (chunkID = ascii_bytes "fmt ") then
          if chunkSize <? 16 then inl FmtTooSmall
          else if length data <? chunkStart + 16 then inl FmtTruncated
          else
            let audioFormat := le_uint (bytes_at data chunkStart (chunkStart + 2)) in
            if negb (audioFormat =? 1)%Z then inl (UnsupportedFormat audioFormat)
            else
              let hd := {|
                NumChannels := le_uint (bytes_at data (chunkStart + 2) (chunkStart + 4));
                SampleRate := le_uint (bytes_at data (chunkStart + 4) (chunkStart + 8));
                BitsPerSample := le_uint (bytes_at data (chunkStart + 14) (chunkStart + 16))
              |} in
              if negb (BitsPerSample hd =? 16)%Z then inl (UnsupportedBits (BitsPerSample hd))
              else walk_chunks fuel' data pos' (Some hd) pcmData
        else if decide (chunkID = ascii_bytes "data") then
          let end_ := chunkStart + chunkSize in
          let end_ := if length data <? end_ then length data else end_ in
          walk_chunks fuel' data pos' header (Some (bytes_at data chunkStart end_))
        else walk_chunks fuel' data pos' header pcmData
    end
  else inr (header, pcmData).

Definition ReadWAV (data : list Z) : wav_error + (list F * Z) :=
  if length data <? 12 then inl FileTooShort
  else if negb (bool_decide (bytes_at data 0 4 = ascii_bytes "RIFF")) then inl MissingRIFF
  else if negb (bool_decide (bytes_at data 8 12 = ascii_bytes "WAVE")) then inl MissingWAVE
  else
    match walk_chunks (length data) data 12 None None with
    | inl e => inl e
    | inr (None, _) => inl NoFmtChunk
    | inr (Some _, None) => inl NoDataChunk
    | inr (Some header, Some pcmData) =>
        let numSamples := length pcmData / 2 in
        let rawSamples :=
          map (λ i, let s := int16_of_uint16 (le_uint (bytes_at pcmData (i * 2) (i * 2 + 2))) in
                    (fofZ s / flit 32768)%fl) (seq 0 numSamples) in
        if (NumChannels header =? 2)%Z then
          let monoLen := numSamples / 2 in
          let mono :=
            map (λ i, ((nth (i * 2) rawSamples f0 + nth (i * 2 + 1) rawSamples f0) / flit 2)%fl)
                (seq 0 monoLen) in
          inr (mono, SampleRate header)
        else inr (rawSamples, SampleRate header)
    end.

End WAV.

(** ** What the program computes: the arrays as lists

    The functions below say, on plain lists, what each routine leaves in the
    arrays it writes.  They follow the loops of the source statement by
    statement; the lemmas of the next part prove that running the program on
    any heap gives exactly these lists. *)

Section Values.

Context {F : Type} `{Float64 F}.

(** Old cells are kept, but for those of [mods]. *)
Definition kept (mods : list nat) (h h' : heap F) : Prop :=
  length h ≤ length h' ∧ ∀ a, a < length h → a ∉ mods → h' !! a = h !! a.

Definition hannValues (n : nat) : list F :=
  if n <=? 1 then [flit 1] else map (hann n) (seq 0 n).

Definition frameValues (xs : list F) (start size : nat) : list F :=
  resize size f0 (drop start xs).

Definition windowed (xs ws : list F) : list F := zip_with fmul xs ws.

Definition promoted (xs : list F) : list (complex128 F) := map (λ v, Cx v f0) xs.

Definition peakOf (xs : list F) : F :=
  fold_left (λ peak s, if (peak <? fabs s)%fl then fabs s else peak) xs f0.

Definition normalizeValues (xs : list F) (t : F) : list F :=
  if (peakOf xs <? flit 1e-10)%fl then xs
  else map (λ s, (s * (t / peakOf xs))%fl) xs.

(** [x[i], x[j] = x[j], x[i]] *)
Definition swapped (zs : list (complex128 F)) (i j : nat) : list (complex128 F) :=
  <[j := nth i zs c0]> (<[i := nth j zs c0]> zs).

Definition bitReverse_list (zs : list (complex128 F)) : list (complex128 F) :=
  fold_left (λ cur i,
    let j := reverseBits i (ilog2 (length zs)) in
    if i <? j then swapped cur i j else cur) (seq 0 (length zs)) zs.

(** One butterfly, on the pair of the running twiddle and the array. *)
Definition butterfly_step (m k : nat) (wm : complex128 F)
    (st : complex128 F * list (complex128 F)) (j : nat)
    : complex128 F * list (complex128 F) :=
  let w := fst st in
  let zs := snd st in
  let t := cmul w (nth (k + j + m / 2) zs c0) in
  let u := nth (k + j) zs c0 in
  (cmul w wm, <[k + j + m / 2 := csub u t]> (<[k + j := cadd u t]> zs)).

Definition butterflies_list (m k : nat) (wm : complex128 F)
    (zs : list (complex128 F)) : list (complex128 F) :=
  snd (fold_left (butterfly_step m k wm) (seq 0 (m / 2)) (c1, zs)).

Definition stage_list (n : nat) (zs : list (complex128 F)) (s : nat)
    : list (complex128 F) :=
  fold_left (λ cur k, butterflies_list (2 ^ s) k (twiddle (2 ^ s)) cur)
            (range_step 0 n (2 ^ s)) zs.

Definition fft_list (xs : list (complex128 F)) : list (complex128 F) :=
  fold_left (stage_list (length xs)) (seq 1 (ilog2 (length xs))) (bitReverse_list xs).

Definition ifft_list (xs : list (complex128 F)) : list (complex128 F) :=
  map (λ v, cdiv (cmplx_Conj v) (Cx (fofZ (Z.of_nat (length xs))) f0))
      (fft_list (map cmplx_Conj xs)).

Definition spectrum_of (xs ws : list F) (fi : nat) : list (complex128 F) :=
  fft_list (promoted (windowed (frameValues xs (fi * HopSize) FrameSize) ws)).

Definition noise_sum (xs ws : list F) (noiseFrames : nat) : list F :=
  fold_left (λ acc fi, zip_with (λ a z, (a + cmplx_Abs z)%fl) acc (spectrum_of xs ws fi))
            (seq 0 noiseFrames) (replicate FrameSize f0).

Definition noise_profile (xs ws : list F) (noiseFrames : nat) : list F :=
  map (λ a, (a / fofZ (Z.of_nat noiseFrames))%fl) (noise_sum xs ws noiseFrames).

Definition cleaned_of (xs ws noise : list F) (fi : nat) : list (complex128 F) :=
  ifft_list (zip_with subtractBin (spectrum_of xs ws fi) noise).

(** One iteration of the overlap-add loop, on [(output, windowSum)]. *)
Definition overlap_step (n start : nat) (cleaned : list (complex128 F)) (ws : list F)
    (st : list F * list F) (j : nat) : list F * list F :=
  let idx := start + j in
  if idx <? n then
    let w := nth j ws f0 in
    (<[idx := (nth idx (fst st) f0 + re (nth j cleaned c0) * w)%fl]> (fst st),
     <[idx := (nth idx (snd st) f0 + w * w)%fl]> (snd st))
  else st.

Definition overlap_add (n start : nat) (cleaned : list (complex128 F)) (ws : list F)
    (st : list F * list F) : list F * list F :=
  fold_left (overlap_step n start cleaned ws) (seq 0 FrameSize) st.

(** The accumulators [(output, windowSum)] after the frames below [totalFrames]. *)
Definition subtract_frames (xs ws noise : list F) (n totalFrames : nat) : list F * list F :=
  fold_left (λ st fi, overlap_add n (fi * HopSize) (cleaned_of xs ws noise fi) ws st)
            (seq 0 totalFrames) (replicate n f0, replicate n f0).

Definition divided (out wsum : list F) : list F :=
  zip_with (λ o w, if (flit 1e-8 <? w)%fl then (o / w)%fl else o) out wsum.

Definition padded (xs : list F) : list F :=
  if length xs <? FrameSize then overwrite (replicate FrameSize f0) xs else xs.

Definition frame_count (n : nat) : nat :=
  let totalFrames := (n - FrameSize) / HopSize + 1 in
  if totalFrames <? 1 then 1 else totalFrames.

Definition noise_count (totalFrames : nat) : nat :=
  if totalFrames <? NoiseFrames then totalFrames else NoiseFrames.

(** The samples [Denoise] returns for a non-empty input. *)
Definition denoise_list (xs : list F) : list F :=
  let xs := padded xs in
  let n := length xs in
  let ws := hannValues FrameSize in
  let noise := noise_profile xs ws (noise_count (frame_count n)) in
  let acc := subtract_frames xs ws noise n (frame_count n) in
  normalizeValues (divided (fst acc) (snd acc)) (flit 0.95).

(** The array [windowSum] when [Denoise] returns (it is allocated right after
    [output], and written by the overlap-add loop only). *)
Definition windowSum_list (xs : list F) : list F :=
  let xs := padded xs in
  let n := length xs in
  let ws := hannValues FrameSize in
  let noise := noise_profile xs ws (noise_count (frame_count n)) in
  snd (subtract_frames xs ws noise n (frame_count n)).

End Values.

(** ** Reading the arguments and the result of a call *)

Section Observations.

Context {F : Type} `{Float64 F}.

(** The slice [s] holds the samples [xs] in the heap [h]. *)
Definition holdsF (h : heap F) (s : slice) (xs : list F) : Prop :=
  match s with
  | None => xs = []
  | Some l => h !! l = Some (FArr xs)
  end.

Definition holdsC (h : heap F) (s : slice) (zs : list (complex128 F)) : Prop :=
  match s with
  | None => zs = []
  | Some l => h !! l = Some (CArr zs)
  end.

(** The elements of the slice a call returned; [None] when it panicked. *)
Definition resultF (o : outcome F slice) : option (list F) :=
  match o with
  | Ok None _ => Some []
  | Ok (Some l) h => match h !! l with Some (FArr xs) => Some xs | _ => None end
  | Panic _ => None
  end.

Definition resultC (o : outcome F slice) : option (list (complex128 F)) :=
  match o with
  | Ok None _ => Some []
  | Ok (Some l) h => match h !! l with Some (CArr zs) => Some zs | _ => None end
  | Panic _ => None
  end.

End Observations.

(** ** The layout of the file [WriteWAV] produces *)

Section WAVLayout.

Context {F : Type} `{Float64 F}.

(** The 44 bytes before the samples, for [n] samples. *)
Definition wav_header (n : nat) (sampleRate : Z) : list Z :=
  ascii_bytes "RIFF" ++ le_bytes 4 (36 + Z.of_nat n * 2) ++ ascii_bytes "WAVE"
  ++ ascii_bytes "fmt " ++ le_bytes 4 16 ++ le_bytes 2 1 ++ le_bytes 2 1
  ++ le_bytes 4 sampleRate ++ le_bytes 4 (sampleRate * 2) ++ le_bytes 2 2
  ++ le_bytes 2 16
  ++ ascii_bytes "data" ++ le_bytes 4 (Z.of_nat n * 2).

(** The two bytes of every sample. *)
Definition pcm_bytes (samples : list F) : list Z :=
  flat_map (λ s, le_bytes 2 (sample_to_int16 s)) samples.

(** The sample [ReadWAV] decodes from the 16-bit value [WriteWAV] stored. *)
Definition requantize (s : F) : F :=
  (fofZ (int16_of_uint16 (le_uint (le_bytes 2 (sample_to_int16 s)))) / flit 32768)%fl.

End WAVLayout.

(** ** The discrete Fourier transform, the specification of [FFT] *)

Section Sums.

Context {F : Type} `{Float64 F}.

(** [w^j] as the butterflies compute it: [w := 1], then [w *= wm] each step. *)
Definition cpow (wm : complex128 F) (j : nat) : complex128 F :=
  Nat.iter j (λ w, cmul w wm) c1.

(** [f 0 + f 1 + ... + f (n - 1)] *)
Fixpoint csum (n : nat) (f : nat → complex128 F) : complex128 F :=
  match n with
  | O => c0
  | S n' => cadd (csum n' f) (f n')
  end.

End Sums.

(** Over the real numbers: the point of the unit circle at angle [t], and the
    powers of the root of unity [exp(-2 pi i / m)]. *)
Definition cis (t : R) : complex128 R := Cx (cos t) (sin t).

Definition omega (m e : nat) : complex128 R := cis (- (2 * PI * INR e / INR m))%R.

Definition copp (z : complex128 R) : complex128 R := Cx (- re z)%R (- im z)%R.

Definition dft (xs : list (complex128 R)) (k : nat) : complex128 R :=
  csum (length xs) (λ n, cmul (nth n xs c0) (omega (length xs) (n * k))).

Definition dft_list (xs : list (complex128 R)) : list (complex128 R) :=
  map (dft xs) (seq 0 (length xs)).

(** The value at position [b * 2^s + p] after stage [s] of the transform of
    [2^L] elements: the DFT of the [2^s] elements of [xs] whose index has the
    low [L - s] bits of [b] reversed. *)
Definition partial_dft (L : nat) (xs : list (complex128 R)) (s b p : nat)
    : complex128 R :=
  csum (2 ^ s) (λ q,
    cmul (nth (q * 2 ^ (L - s) + reverseBits b (L - s)) xs c0) (omega (2 ^ s) (q * p))).

(** [|a - b| <= tol] for two complex128 values of the IEEE instance, on their
    exact rational values; false when a part is NaN or infinite. *)
Definition prim_within (tol : Q) (a b : complex128 float) : Prop :=
  match prim_toQ (re a), prim_toQ (im a), prim_toQ (re b), prim_toQ (im b) with
  | Some ar, Some ai, Some br, Some bi =>
      ((ar - br) * (ar - br) + (ai - bi) * (ai - bi) <= tol * tol)%Q
  | _, _, _, _ => False
  end.

(** ** fft.go: [NextPowerOf2]

    Go's [int] is taken to be 64 bits wide (amd64, arm64); [p <<= 1] wraps
    around in two's complement. *)

Definition int64_wrap (z : Z) : Z := ((z + 2 ^ 63) mod 2 ^ 64 - 2 ^ 63)%Z.

(** [for p < n { p <<= 1 }]: [None] when [fuel] iterations did not end it. *)
Fixpoint NextPowerOf2_loop (fuel : nat) (p n : Z) : option Z :=
  if (p <? n)%Z then
    match fuel with
    | O => None
    | S fuel' => NextPowerOf2_loop fuel' (int64_wrap (Z.shiftl p 1)) n
    end
  else Some p.

Definition NextPowerOf2 (fuel : nat) (n : Z) : option Z :=
  if (n <=? 1)%Z then Some 1%Z else NextPowerOf2_loop fuel 1 n.

(** ** Helpers of the tests

    [energy] is the accumulation [e += cmplx.Abs(z) * cmplx.Abs(z)] of
    TestFFTParseval. *)

Section TestHelpers.

Context {F : Type} `{Float64 F}.

Definition energy (zs : list (complex128 F)) : F :=
  fold_left (λ e z, (e + cmplx_Abs z * cmplx_Abs z)%fl) zs f0.

End TestHelpers.

(** ** An invariant of the chunk walk of [ReadWAV] *)

(** What the chunk walk keeps: a sample rate that fits 32 bits, and PCM bytes
    that are bytes of the file. *)
Definition walk_ok (data : list Z) (r : option WAVHeader * option (list Z)) : Prop :=
  (∀ hd, r.1 = Some hd → (0 ≤ SampleRate hd < 2 ^ 32)%Z)
  ∧ (∀ pcm, r.2 = Some pcm →
       Forall (λ b, 0 ≤ b < 256)%Z pcm ∧ length pcm ≤ length data).


(** ** The files [ReadWAV] is given

    A header of 44 bytes, as the two writers of the repository lay it out:
    RIFF/WAVE, a [fmt ] chunk of 16 bytes for 16-bit PCM with [ch] channels at
    [rate] Hz, and the head of a [data] chunk that announces [size] bytes. *)
Definition pcm16_header (hdr : list Z) (ch rate : Z) (size : nat) : Prop :=
  length hdr = 44
  ∧ bytes_at hdr 0 4 = ascii_bytes "RIFF"
  ∧ bytes_at hdr 8 12 = ascii_bytes "WAVE"
  ∧ bytes_at hdr 12 16 = ascii_bytes "fmt "
  ∧ le_uint (bytes_at hdr 16 20) = 16%Z
  ∧ le_uint (bytes_at hdr 20 22) = 1%Z
  ∧ le_uint (bytes_at hdr 22 24) = ch
  ∧ le_uint (bytes_at hdr 24 28) = rate
  ∧ le_uint (bytes_at hdr 34 36) = 16%Z
  ∧ bytes_at hdr 36 40 = ascii_bytes "data"
  ∧ le_uint (bytes_at hdr 40 44) = Z.of_nat size.

(** ** denoise.go: [rms], the measure the tests compare *)

(** [math.Sqrt], which the pipeline itself does not call. *)
Class Sqrt64 (F : Type) : Type := m_sqrt : F → F.

#[export] Instance R_Sqrt64 : Sqrt64 R := R_sqrt.sqrt.
#[export] Instance prim_Sqrt64 : Sqrt64 float := PrimFloat.sqrt.

Section Rms.

Context {F : Type} `{Float64 F} `{Sqrt64 F}.

Local Notation "x <- m ;; k" := (bind m (λ x, k))
  (at level 100, m at next level, k at level 200, right associativity).

Definition rms (x : slice) : M F F :=
  n <- lenF x;;
  if n =? 0 then ret (flit 0)
  else
    sum <- for_range 0 n (λ i sum, v <- getF x i;; ret (sum + v * v)%fl) f0;;
    ret (m_sqrt (sum / fofZ (Z.of_nat n))%fl).

(** The value [rms] returns on the samples [xs]. *)
Definition sum_squares (xs : list F) : F :=
  fold_left (λ sum v, (sum + v * v)%fl) xs f0.

Definition rms_list (xs : list F) : F :=
  if length xs =? 0 then flit 0
  else m_sqrt (sum_squares xs / fofZ (Z.of_nat (length xs)))%fl.

End Rms.

(** ** useRecorder.ts: [encodeWAV], the encoder of the uploads

    A JavaScript number is a float64; an element of the [Float32Array] is
    read as one.  The [ArrayBuffer] is the list of its bytes; a [DataView]
    setter that leaves the buffer throws a RangeError: [None]. *)

Section EncodeWAV.

Context {F : Type} `{Float64 F}.

(** [x !== x] and [Number.isFinite(x)] are the tests [isNaN] and [isFinite]
    of the arithmetic. *)

(** [Math.min(a, b)], [Math.max(a, b)]: NaN when an argument is NaN.  (The
    sign of a zero result is not modelled: the source calls them with the
    constants 1 and -1.) *)
Definition Math_min (a b : F) : F :=
  if isNaN a then a else if isNaN b then b else if (b <? a)%fl then b else a.
Definition Math_max (a b : F) : F :=
  if isNaN a then a else if isNaN b then b else if (a <? b)%fl then b else a.

(** The integer a [DataView] setter derives from a number, before it wraps it
    to the width of the field: truncation, 0 for NaN and the infinities. *)
Definition ToInteger (x : F) : Z := if isFinite x then f2Z x else 0%Z.

(** Writing the bytes [bs] at [offset]. *)
Definition view_set (view : list Z) (offset : nat) (bs : list Z) : option (list Z) :=
  if offset + length bs <=? length view
  then Some (take offset view ++ bs ++ drop (offset + length bs) view)
  else None.

(** [view.setUint8(offset, v)], and [view.setUint16(offset, v, true)],
    [view.setInt16(offset, v, true)], [view.setUint32(offset, v, true)]:
    little-endian. *)
Definition setUint8 (view : list Z) (offset : nat) (v : Z) : option (list Z) :=
  view_set view offset (le_bytes 1 v).
Definition setUint16 (view : list Z) (offset : nat) (v : Z) : option (list Z) :=
  view_set view offset (le_bytes 2 v).
Definition setInt16 (view : list Z) (offset : nat) (v : Z) : option (list Z) :=
  view_set view offset (le_bytes 2 v).
Definition setUint32 (view : list Z) (offset : nat) (v : Z) : option (list Z) :=
  view_set view offset (le_bytes 4 v).

(** [for (let i = 0; i < str.length; i++) view.setUint8(offset + i, str.charCodeAt(i))],
    from the index [i] on, [codes] being the char codes that are left. *)
Fixpoint writeString_from (view : list Z) (offset i : nat) (codes : list Z)
    : option (list Z) :=
  match codes with
  | [] => Some view
  | c :: codes' =>
      view ← setUint8 view (offset + i) c;
      writeString_from view offset (S i) codes'
  end.

Definition writeString (view : list Z) (offset : nat) (str : string) : option (list Z) :=
  writeString_from view offset 0 (ascii_bytes str).

(** The loop over the samples, from [offset] on. *)
Fixpoint encode_samples (view : list Z) (offset : nat) (samples : list F)
    : option (list Z) :=
  match samples with
  | [] => Some view
  | x :: samples' =>
      let s := Math_max (flit (-1)) (Math_min (flit 1) x) in
      view ← setInt16 view offset
               (ToInteger (if (s <? flit 0)%fl then (s * flit 32768)%fl
                           else (s * flit 32767)%fl));
      encode_samples view (offset + 2) samples'
  end.

(** The bytes of the Blob [encodeWAV] returns. *)
Definition encodeWAV (samples : list F) (sampleRate : F) : option (list Z) :=
  let n := length samples in
  let view := replicate (44 + n * 2) 0%Z in
  view ← writeString view 0 "RIFF";
  view ← setUint32 view 4 (36 + Z.of_nat n * 2);
  view ← writeString view 8 "WAVE";
  view ← writeString view 12 "fmt ";
  view ← setUint32 view 16 16;
  view ← setUint16 view 20 1;
  view ← setUint16 view 22 1;
  view ← setUint32 view 24 (ToInteger sampleRate);
  view ← setUint32 view 28 (ToInteger (sampleRate * flit 2)%fl);
  view ← setUint16 view 32 2;
  view ← setUint16 view 34 16;
  view ← writeString view 36 "data";
  view ← setUint32 view 40 (Z.of_nat n * 2);
  encode_samples view 44 samples.

End EncodeWAV.

(** The file [encodeWAV] builds, field by field. *)

Section EncodeWAVLayout.

Context {F : Type} `{Float64 F}.

(** The argument of [setInt16] for the sample [x]. *)
Definition js_sample_int16 (x : F) : Z :=
  let s := Math_max (flit (-1)) (Math_min (flit 1) x) in
  ToInteger (if (s <? flit 0)%fl then (s * flit 32768)%fl else (s * flit 32767)%fl).

Definition js_pcm_bytes (samples : list F) : list Z :=
  flat_map (λ x, le_bytes 2 (js_sample_int16 x)) samples.

Definition js_wav_header (n : nat) (sampleRate : F) : list Z :=
  ascii_bytes "RIFF" ++ le_bytes 4 (36 + Z.of_nat n * 2) ++ ascii_bytes "WAVE"
  ++ ascii_bytes "fmt " ++ le_bytes 4 16 ++ le_bytes 2 1 ++ le_bytes 2 1
  ++ le_bytes 4 (ToInteger sampleRate)
  ++ le_bytes 4 (ToInteger (sampleRate * flit 2)%fl)
  ++ le_bytes 2 2 ++ le_bytes 2 16
  ++ ascii_bytes "data" ++ le_bytes 4 (Z.of_nat n * 2).

End EncodeWAVLayout.

(** * Proofs *)

Section Monad.
Context {F : Type} `{Float64 F}.
Implicit Types (h : heap F) (l : nat).

Lemma bind_Ok {A B} (m : M F A) (k : A → M F B) h a h' :
  m h = Ok a h' → bind m k h = k a h'.
Proof. unfold bind. by intros ->. Qed.

Lemma bind_Panic {A B} (m : M F A) (k : A → M F B) h e :
  m h = Panic e → bind m k h = Panic e.
Proof. unfold bind. by intros ->. Qed.

Lemma loadF_Ok h l xs : h !! l = Some (FArr xs) → loadF (Some l) h = Ok xs h.
Proof. unfold loadF. by intros ->. Qed.

Lemma loadC_Ok h l zs : h !! l = Some (CArr zs) → loadC (Some l) h = Ok zs h.
Proof. unfold loadC. by intros ->. Qed.

Lemma lenF_Ok h l xs : h !! l = Some (FArr xs) → lenF (Some l) h = Ok (length xs) h.
Proof. intros Hl. unfold lenF. by rewrite (bind_Ok _ _ _ _ _ (loadF_Ok _ _ _ Hl)). Qed.

Lemma lenC_Ok h l zs : h !! l = Some (CArr zs) → lenC (Some l) h = Ok (length zs) h.
Proof. intros Hl. unfold lenC. by rewrite (bind_Ok _ _ _ _ _ (loadC_Ok _ _ _ Hl)). Qed.

Lemma getF_Ok h l xs i v :
  h !! l = Some (FArr xs) → xs !! i = Some v → getF (Some l) i h = Ok v h.
Proof.
  intros Hl Hi. unfold getF. rewrite (bind_Ok _ _ _ _ _ (loadF_Ok _ _ _ Hl)).
  by rewrite Hi.
Qed.

Lemma getC_Ok h l zs i v :
  h !! l = Some (CArr zs) → zs !! i = Some v → getC (Some l) i h = Ok v h.
Proof.
  intros Hl Hi. unfold getC. rewrite (bind_Ok _ _ _ _ _ (loadC_Ok _ _ _ Hl)).
  by rewrite Hi.
Qed.

Lemma setF_Ok h l xs i v :
  h !! l = Some (FArr xs) → i < length xs →
  setF (Some l) i v h = Ok tt (<[l := FArr (<[i := v]> xs)]> h).
Proof.
  intros Hl Hi. unfold setF. rewrite (bind_Ok _ _ _ _ _ (loadF_Ok _ _ _ Hl)).
  apply Nat.ltb_lt in Hi. by rewrite Hi.
Qed.

Lemma setC_Ok h l zs i v :
  h !! l = Some (CArr zs) → i < length zs →
  setC (Some l) i v h = Ok tt (<[l := CArr (<[i := v]> zs)]> h).
Proof.
  intros Hl Hi. unfold setC. rewrite (bind_Ok _ _ _ _ _ (loadC_Ok _ _ _ Hl)).
  apply Nat.ltb_lt in Hi. by rewrite Hi.
Qed.

Lemma copyF_Ok h l xs src :
  h !! l = Some (FArr xs) →
  copyF (Some l) src h = Ok tt (<[l := FArr (overwrite xs src)]> h).
Proof.
  intros Hl. unfold copyF. by rewrite (bind_Ok _ _ _ _ _ (loadF_Ok _ _ _ Hl)).
Qed.

Lemma copyC_Ok h l zs src :
  h !! l = Some (CArr zs) →
  copyC (Some l) src h = Ok tt (<[l := CArr (overwrite zs src)]> h).
Proof.
  intros Hl. unfold copyC. by rewrite (bind_Ok _ _ _ _ _ (loadC_Ok _ _ _ Hl)).
Qed.

(** Lookups in a heap after an allocation or an update. *)
Lemma lookup_alloc_new h (c : cell F) : (h ++ [c]) !! length h = Some c.
Proof. by rewrite lookup_app_r, Nat.sub_diag by lia. Qed.

Lemma lookup_alloc_old h (c : cell F) l : l < length h → (h ++ [c]) !! l = h !! l.
Proof. intros. by rewrite lookup_app_l. Qed.

Lemma insert_alloc_new h (c c' : cell F) : <[length h := c']> (h ++ [c]) = h ++ [c'].
Proof. by rewrite insert_app_r_alt, Nat.sub_diag by lia. Qed.

(** The invariant rule of counted loops. *)
Lemma for_in_inv {St} (I : nat → St → heap F → Prop) (l : list nat)
    (body : nat → St → M F St) s h :
  I 0 s h →
  (∀ p i s h, l !! p = Some i → I p s h →
     ∃ s' h', body i s h = Ok s' h' ∧ I (S p) s' h') →
  ∃ s' h', for_in l body s h = Ok s' h' ∧ I (length l) s' h'.
Proof.
  revert I s h. induction l as [|i l IH]; intros I s h H0 Hstep; simpl.
  - by exists s, h.
  - destruct (Hstep 0 i s h eq_refl H0) as (s1 & h1 & Hb & H1).
    rewrite (bind_Ok _ _ _ _ _ Hb).
    apply (IH (λ p, I (S p))); [done|].
    intros p j s2 h2 Hp. by apply Hstep.
Qed.

Lemma for_range_inv {St} (I : nat → St → heap F → Prop) (lo hi : nat)
    (body : nat → St → M F St) s h :
  lo ≤ hi →
  I lo s h →
  (∀ i s h, lo ≤ i < hi → I i s h →
     ∃ s' h', body i s h = Ok s' h' ∧ I (S i) s' h') →
  ∃ s' h', for_range lo hi body s h = Ok s' h' ∧ I hi s' h'.
Proof.
  intros Hle H0 Hstep. unfold for_range.
  destruct (for_in_inv (λ p, I (lo + p)) (seq lo (hi - lo)) body s h) as (s' & h' & Hr & HI).
  - by rewrite Nat.add_0_r.
  - intros p i s1 h1 Hp HI. apply lookup_seq in Hp as [-> Hp].
    destruct (Hstep (lo + p) s1 h1) as (s2 & h2 & ? & ?); [lia|done|].
    exists s2, h2. split; [done|]. by rewrite Nat.add_succ_r.
  - exists s', h'. split; [done|].
    rewrite length_seq in HI. by replace (lo + (hi - lo)) with hi in HI by lia.
Qed.

End Monad.

Section Run.
Context {F : Type} `{Float64 F}.
Implicit Types (h : heap F) (l : nat).

Lemma lookup_insert_heap h l (c c' : cell F) :
  h !! l = Some c → <[l := c']> h !! l = Some c'.
Proof. intros Hl. apply list_lookup_insert_eq. by eapply lookup_lt_Some. Qed.

(** Filling a fresh buffer from the left. *)
Lemma fill_step {A} (pre : list A) (d v : A) n :
  length pre < n →
  <[length pre := v]> (pre ++ replicate (n - length pre) d)
  = (pre ++ [v]) ++ replicate (n - S (length pre)) d.
Proof.
  intros Hn. rewrite insert_app_r_alt, Nat.sub_diag by lia.
  destruct (n - length pre) as [|k] eqn:E; [lia|].
  replace (n - S (length pre)) with k by lia. simpl. by rewrite <- app_assoc.
Qed.

(** Rewriting a buffer in place from the left. *)
Lemma update_step {A} (g : nat → A → A) (xs : list A) i x :
  xs !! i = Some x →
  <[i := g i x]> (imap g (take i xs) ++ drop i xs)
  = imap g (take (S i) xs) ++ drop (S i) xs.
Proof.
  intros Hi. pose proof (lookup_lt_Some _ _ _ Hi) as Hlt.
  rewrite insert_app_r_alt; rewrite length_imap, length_take; [|lia].
  replace (i - i `min` length xs) with 0 by lia.
  rewrite (drop_S _ _ _ Hi). simpl.
  rewrite (take_S_r _ _ _ Hi), imap_app, <- app_assoc. simpl.
  rewrite length_take. replace (i `min` length xs + 0) with i by lia. done.
Qed.

Lemma HannWindow_run h n :
  HannWindow n h = Ok (Some (length h)) (h ++ [FArr (hannValues n)]).
Proof.
  unfold HannWindow, hannValues. destruct (n <=? 1) eqn:En; [done|].
  apply Nat.leb_gt in En.
  unfold makeF. rewrite (bind_Ok _ _ _ (Some (length h)) (h ++ [FArr (replicate n f0)])) by done.
  destruct (for_range_inv
    (λ i (_ : unit) h', h' = h ++ [FArr (map (hann n) (seq 0 i) ++ replicate (n - i) f0)])
    0 n (λ i _, setF (Some (length h)) i (hann n i)) tt (h ++ [FArr (replicate n f0)]))
    as (s' & h' & Hr & ->).
  - lia.
  - by rewrite Nat.sub_0_r.
  - intros i [] h1 Hi ->. eexists tt, _. split.
    + apply setF_Ok; [apply lookup_alloc_new|].
      rewrite length_app, length_map, length_seq, length_replicate. lia.
    + rewrite insert_alloc_new. do 2 f_equal.
      pose proof (fill_step (map (hann n) (seq 0 i)) f0 (hann n i) n) as E.
      rewrite length_map, length_seq in E. rewrite E by lia.
      by rewrite seq_S, map_app.
  - rewrite (bind_Ok _ _ _ _ _ Hr). unfold ret.
    by rewrite Nat.sub_diag, app_nil_r.
Qed.

Lemma overwrite_fresh (xs : list F) start size :
  start ≤ length xs →
  overwrite (replicate size f0)
    (take ((if length xs <? start + size then length xs else start + size) - start)
          (drop start xs))
  = frameValues xs start size.
Proof.
  intros Hs. unfold overwrite, frameValues. rewrite length_replicate.
  rewrite take_take, length_take, length_drop, drop_replicate.
  destruct (Nat.ltb_spec (length xs) (start + size)).
  - rewrite resize_ge by (rewrite length_drop; lia).
    rewrite length_drop. f_equal; [|f_equal; lia].
    rewrite take_ge; [done|]. rewrite length_drop. lia.
  - rewrite resize_le by (rewrite length_drop; lia).
    replace (size - _) with 0 by lia. simpl. rewrite app_nil_r. f_equal. lia.
Qed.

Lemma sliceF_Ok h l xs lo hi :
  h !! l = Some (FArr xs) → lo ≤ hi → hi ≤ length xs →
  sliceF (Some l) lo hi h = Ok (take (hi - lo) (drop lo xs)) h.
Proof.
  intros Hl H1 H2. unfold sliceF. rewrite (bind_Ok _ _ _ _ _ (loadF_Ok _ _ _ Hl)).
  apply Nat.leb_le in H1, H2. by rewrite H1, H2.
Qed.

Lemma sliceF_panic h l xs lo hi :
  h !! l = Some (FArr xs) → hi < lo →
  sliceF (Some l) lo hi h = Panic SliceBounds.
Proof.
  intros Hl H1. unfold sliceF. rewrite (bind_Ok _ _ _ _ _ (loadF_Ok _ _ _ Hl)).
  apply Nat.leb_gt in H1. by rewrite H1.
Qed.

Lemma extractFrame_run h l xs start size :
  h !! l = Some (FArr xs) → start ≤ length xs →
  extractFrame (Some l) start size h
  = Ok (Some (length h)) (h ++ [FArr (frameValues xs start size)]).
Proof.
  intros Hl Hs. pose proof (lookup_lt_Some _ _ _ Hl) as Hlt.
  unfold extractFrame, makeF.
  rewrite (bind_Ok _ _ _ (Some (length h)) (h ++ [FArr (replicate size f0)])) by done.
  assert (Hl' : (h ++ [FArr (replicate size f0)]) !! l = Some (FArr xs))
    by (by rewrite lookup_alloc_old).
  rewrite (bind_Ok _ _ _ _ _ (lenF_Ok _ _ _ Hl')).
  set (e := if length xs <? start + size then length xs else start + size).
  assert (He : start ≤ e ∧ e ≤ length xs).
  { unfold e. destruct (Nat.ltb_spec (length xs) (start + size)); lia. }
  rewrite (bind_Ok _ _ _ _ _ (sliceF_Ok _ _ _ _ _ Hl' (proj1 He) (proj2 He))).
  rewrite (bind_Ok _ _ _ _ _ (copyF_Ok _ _ _ _ (lookup_alloc_new _ _))).
  unfold ret. rewrite insert_alloc_new. unfold e. by rewrite overwrite_fresh.
Qed.

Lemma extractFrame_panic h l xs start size :
  h !! l = Some (FArr xs) → length xs < start →
  extractFrame (Some l) start size h = Panic SliceBounds.
Proof.
  intros Hl Hs. pose proof (lookup_lt_Some _ _ _ Hl) as Hlt.
  unfold extractFrame, makeF.
  rewrite (bind_Ok _ _ _ (Some (length h)) (h ++ [FArr (replicate size f0)])) by done.
  assert (Hl' : (h ++ [FArr (replicate size f0)]) !! l = Some (FArr xs))
    by (by rewrite lookup_alloc_old).
  rewrite (bind_Ok _ _ _ _ _ (lenF_Ok _ _ _ Hl')).
  apply bind_Panic. apply (sliceF_panic _ _ xs); [done|].
  destruct (Nat.ltb_spec (length xs) (start + size)); lia.
Qed.

End Run.

Section Run2.
Context {F : Type} `{Float64 F}.
Implicit Types (h : heap F) (l : nat).

Lemma imap_take_drop_0 {A} (g : nat → A → A) (xs : list A) :
  imap g (take 0 xs) ++ drop 0 xs = xs.
Proof. done. Qed.

Lemma imap_take_drop_all {A} (g : nat → A → A) (xs : list A) :
  imap g (take (length xs) xs) ++ drop (length xs) xs = imap g xs.
Proof. by rewrite firstn_all, drop_all, app_nil_r. Qed.

Lemma lookup_take_drop {A} (g : nat → A → A) (xs : list A) i :
  (imap g (take i xs) ++ drop i xs) !! i = xs !! i.
Proof.
  destruct (decide (i < length xs)).
  - rewrite lookup_app_r; rewrite length_imap, length_take; [|lia].
    rewrite lookup_drop. f_equal. lia.
  - rewrite !lookup_ge_None_2; [done|lia|].
    rewrite length_app, length_imap, length_take, length_drop. lia.
Qed.

Lemma length_take_drop {A} (g : nat → A → A) (xs : list A) i :
  length (imap g (take i xs) ++ drop i xs) = length xs.
Proof. rewrite length_app, length_imap, length_take, length_drop. lia. Qed.

(** A loop that rewrites the array at [l] in place, element by element:
    [for i := range xs { xs[i] = g i xs[i] }]. *)
Lemma for_updateF_run h l xs n (body : nat → unit → M F unit) (g : nat → F → F) :
  h !! l = Some (FArr xs) → n = length xs →
  (∀ i x cur, xs !! i = Some x → cur !! i = Some x → length cur = length xs →
     body i tt (<[l := FArr cur]> h) = Ok tt (<[l := FArr (<[i := g i x]> cur)]> h)) →
  for_range 0 n body tt h = Ok tt (<[l := FArr (imap g xs)]> h).
Proof.
  intros Hl -> Hbody.
  destruct (for_range_inv
    (λ i (_ : unit) h', h' = <[l := FArr (imap g (take i xs) ++ drop i xs)]> h)
    0 (length xs) body tt h) as ([] & h' & Hr & ->).
  - lia.
  - by rewrite imap_take_drop_0, list_insert_id.
  - intros i [] h1 Hi ->.
    destruct (lookup_lt_is_Some_2 xs i) as [x Hx]; [lia|].
    eexists tt, _. split.
    + apply (Hbody i x); [done|by rewrite lookup_take_drop|apply length_take_drop].
    + by rewrite update_step.
  - by rewrite Hr, imap_take_drop_all.
Qed.

Lemma for_updateC_run h l zs n (body : nat → unit → M F unit)
    (g : nat → complex128 F → complex128 F) :
  h !! l = Some (CArr zs) → n = length zs →
  (∀ i x cur, zs !! i = Some x → cur !! i = Some x → length cur = length zs →
     body i tt (<[l := CArr cur]> h) = Ok tt (<[l := CArr (<[i := g i x]> cur)]> h)) →
  for_range 0 n body tt h = Ok tt (<[l := CArr (imap g zs)]> h).
Proof.
  intros Hl -> Hbody.
  destruct (for_range_inv
    (λ i (_ : unit) h', h' = <[l := CArr (imap g (take i zs) ++ drop i zs)]> h)
    0 (length zs) body tt h) as ([] & h' & Hr & ->).
  - lia.
  - by rewrite imap_take_drop_0, list_insert_id.
  - intros i [] h1 Hi ->.
    destruct (lookup_lt_is_Some_2 zs i) as [x Hx]; [lia|].
    eexists tt, _. split.
    + apply (Hbody i x); [done|by rewrite lookup_take_drop|apply length_take_drop].
    + by rewrite update_step.
  - by rewrite Hr, imap_take_drop_all.
Qed.

(** Updating twice the same cell. *)
Lemma setF_insert h l cur i v :
  l < length h → i < length cur →
  setF (Some l) i v (<[l := FArr cur]> h) = Ok tt (<[l := FArr (<[i := v]> cur)]> h).
Proof.
  intros Hl Hi. erewrite setF_Ok; [|by apply list_lookup_insert_eq|done].
  by rewrite list_insert_insert_eq.
Qed.

Lemma setC_insert h l cur i v :
  l < length h → i < length cur →
  setC (Some l) i v (<[l := CArr cur]> h) = Ok tt (<[l := CArr (<[i := v]> cur)]> h).
Proof.
  intros Hl Hi. erewrite setC_Ok; [|by apply list_lookup_insert_eq|done].
  by rewrite list_insert_insert_eq.
Qed.

Lemma getF_insert h l cur i v :
  l < length h → cur !! i = Some v →
  getF (Some l) i (<[l := FArr cur]> h) = Ok v (<[l := FArr cur]> h).
Proof. intros Hl Hi. eapply getF_Ok; [by apply list_lookup_insert_eq|done]. Qed.

Lemma getC_insert h l cur i v :
  l < length h → cur !! i = Some v →
  getC (Some l) i (<[l := CArr cur]> h) = Ok v (<[l := CArr cur]> h).
Proof. intros Hl Hi. eapply getC_Ok; [by apply list_lookup_insert_eq|done]. Qed.

Lemma getF_insert_ne h l (c : cell F) a xs i v :
  a ≠ l → h !! a = Some (FArr xs) → xs !! i = Some v →
  getF (Some a) i (<[l := c]> h) = Ok v (<[l := c]> h).
Proof. intros Hne Ha Hi. eapply getF_Ok; [by rewrite list_lookup_insert_ne|done]. Qed.

Lemma getC_insert_ne h l (c : cell F) a zs i v :
  a ≠ l → h !! a = Some (CArr zs) → zs !! i = Some v →
  getC (Some a) i (<[l := c]> h) = Ok v (<[l := c]> h).
Proof. intros Hne Ha Hi. eapply getC_Ok; [by rewrite list_lookup_insert_ne|done]. Qed.


Lemma imap_zip_with (xs ws : list F) :
  length xs ≤ length ws →
  imap (λ i x, fmul x (nth i ws f0)) xs = zip_with fmul xs ws.
Proof.
  revert ws. induction xs as [|x xs IH]; intros [|w ws] Hlen; simpl in *; try done; [lia|].
  f_equal. rewrite <- IH by lia. by apply imap_ext.
Qed.

Lemma nth_lookup_Some' {A} (xs : list A) i d x : xs !! i = Some x → nth i xs d = x.
Proof. intros Hx. by apply nth_lookup_Some with (d := d) in Hx. Qed.

Lemma applyWindow_run h fr w xs ws :
  h !! fr = Some (FArr xs) → h !! w = Some (FArr ws) → fr ≠ w →
  length xs ≤ length ws →
  applyWindow (Some fr) (Some w) h = Ok tt (<[fr := FArr (windowed xs ws)]> h).
Proof.
  intros Hfr Hw Hne Hlen. pose proof (lookup_lt_Some _ _ _ Hfr) as Hlt.
  unfold applyWindow. rewrite (bind_Ok _ _ _ _ _ (lenF_Ok _ _ _ Hfr)).
  unfold windowed. rewrite <- imap_zip_with by done.
  eapply for_updateF_run; [done..|].
  intros i x cur Hx Hc Hlc.
  destruct (lookup_lt_is_Some_2 ws i) as [b Hb].
  { apply lookup_lt_Some in Hx. lia. }
  rewrite (bind_Ok _ _ _ _ _ (getF_insert _ _ _ _ _ Hlt Hc)).
  rewrite (bind_Ok _ _ _ _ _ (getF_insert_ne _ _ _ _ _ _ _ (not_eq_sym Hne) Hw Hb)).
  rewrite (nth_lookup_Some' _ _ _ _ Hb).
  apply setF_insert; [done|]. apply lookup_lt_Some in Hc. done.
Qed.


Lemma imap_replicate_const {A B} (g : nat → B) (n : nat) (d : A) :
  imap (λ i _, g i) (replicate n d) = map g (seq 0 n).
Proof.
  revert g. induction n as [|n IH]; intros g; simpl; [done|].
  f_equal. rewrite <- seq_shift, map_map. apply (IH (g ∘ S)).
Qed.

Lemma map_seq_nth {A B} (g : A → B) (xs : list A) d :
  map (λ i, g (nth i xs d)) (seq 0 (length xs)) = map g xs.
Proof.
  induction xs as [|x xs IH]; simpl; [done|].
  f_equal. rewrite <- seq_shift, map_map. apply IH.
Qed.

Lemma realToComplex_run h l xs :
  h !! l = Some (FArr xs) →
  realToComplex (Some l) h = Ok (Some (length h)) (h ++ [CArr (promoted xs)]).
Proof.
  intros Hl. pose proof (lookup_lt_Some _ _ _ Hl) as Hlt.
  unfold realToComplex. rewrite (bind_Ok _ _ _ _ _ (lenF_Ok _ _ _ Hl)).
  unfold makeC.
  rewrite (bind_Ok _ _ _ (Some (length h)) (h ++ [CArr (replicate (length xs) c0)])) by done.
  erewrite bind_Ok; cycle 1.
  { eapply (for_updateC_run _ (length h) _ _ _ (λ i _, Cx (nth i xs f0) f0)).
    - apply lookup_alloc_new.
    - by rewrite length_replicate.
    - intros i x cur Hx Hc Hlc. rewrite !insert_alloc_new.
      destruct (lookup_lt_is_Some_2 xs i) as [v Hv].
      { apply lookup_lt_Some in Hx. by rewrite length_replicate in Hx. }
      erewrite bind_Ok; cycle 1.
      { eapply getF_Ok; [by rewrite lookup_alloc_old|done]. }
      erewrite setC_Ok; [|apply lookup_alloc_new|by apply lookup_lt_Some in Hc].
      rewrite insert_alloc_new. by rewrite (nth_lookup_Some' _ _ _ _ Hv). }
  unfold ret. rewrite insert_alloc_new. do 4 f_equal.
  rewrite imap_replicate_const. unfold promoted.
  apply (map_seq_nth (λ v, Cx v f0)).
Qed.

End Run2.

Section Run3.
Context {F : Type} `{Float64 F}.
Implicit Types (h : heap F) (l : nat).

(** A loop that only reads the heap. *)
Lemma for_fold_run {St} h lo hi (body : nat → St → M F St) (g : nat → St → St) s :
  (∀ i s, lo ≤ i < hi → body i s h = Ok (g i s) h) →
  for_range lo hi body s h = Ok (fold_left (λ s i, g i s) (seq lo (hi - lo)) s) h.
Proof.
  intros Hbody. unfold for_range.
  assert (Hin : ∀ i, i ∈ seq lo (hi - lo) → lo ≤ i < hi).
  { intros i Hi. apply elem_of_seq in Hi. lia. }
  revert s Hin. generalize (seq lo (hi - lo)) as idx.
  induction idx as [|i idx IH]; intros s Hin; simpl; [done|].
  rewrite (bind_Ok _ _ _ _ _ (Hbody i s (Hin i (list_elem_of_here _ _)))).
  apply IH. intros j Hj. apply Hin. by apply list_elem_of_further.
Qed.

Lemma fold_left_fmap {A B St} (g : St → B → St) (f : A → B) (l : list A) s :
  fold_left g (map f l) s = fold_left (λ s a, g s (f a)) l s.
Proof. revert s. induction l as [|a l IH]; intros s; simpl; [done|]. apply IH. Qed.

Lemma fold_left_seq_nth {A St} (g : A → St → St) (xs : list A) d s :
  fold_left (λ s i, g (nth i xs d) s) (seq 0 (length xs)) s
  = fold_left (λ s x, g x s) xs s.
Proof.
  revert s. induction xs as [|x xs IH]; intros s; simpl; [done|].
  rewrite <- seq_shift, fold_left_fmap. apply IH.
Qed.

Lemma imap_const_map {A B} (g : A → B) (xs : list A) :
  imap (λ _ x, g x) xs = map g xs.
Proof. induction xs as [|x xs IH]; simpl; [done|]. f_equal. apply IH. Qed.

Lemma normalize_run h l xs t :
  h !! l = Some (FArr xs) →
  normalize (Some l) t h = Ok tt (<[l := FArr (normalizeValues xs t)]> h).
Proof.
  intros Hl. pose proof (lookup_lt_Some _ _ _ Hl) as Hlt.
  unfold normalize. rewrite (bind_Ok _ _ _ _ _ (lenF_Ok _ _ _ Hl)).
  erewrite bind_Ok; cycle 1.
  { apply (for_fold_run h 0 (length xs) _
      (λ i peak, if (peak <? fabs (nth i xs f0))%fl then fabs (nth i xs f0) else peak)).
    intros i s Hi. destruct (lookup_lt_is_Some_2 xs i) as [x Hx]; [lia|].
    rewrite (bind_Ok _ _ _ _ _ (getF_Ok _ _ _ _ _ Hl Hx)).
    by rewrite (nth_lookup_Some' _ _ _ _ Hx). }
  rewrite Nat.sub_0_r.
  rewrite (fold_left_seq_nth (λ x peak, if (peak <? fabs x)%fl then fabs x else peak)).
  fold (peakOf xs). unfold normalizeValues.
  destruct (peakOf xs <? flit 1e-10)%fl.
  { unfold ret. by rewrite list_insert_id. }
  rewrite <- (imap_const_map (λ s, (s * (t / peakOf xs))%fl)).
  eapply for_updateF_run; [done..|].
  intros i x cur Hx Hc Hlc.
  rewrite (bind_Ok _ _ _ _ _ (getF_insert _ _ _ _ _ Hlt Hc)).
  apply setF_insert; [done|]. by apply lookup_lt_Some in Hc.
Qed.

End Run3.

(** Integer facts. *)

Lemma isPowerOf2_pow2 L : isPowerOf2 (2 ^ L) = true.
Proof.
  unfold isPowerOf2. apply andb_true_iff. split.
  - apply Nat.ltb_lt. assert (2 ^ L ≠ 0) by (apply Nat.pow_nonzero; lia). lia.
  - apply Nat.eqb_eq. rewrite Nat.sub_1_r, <- Nat.ones_equiv, Nat.land_ones.
    apply Nat.Div0.mod_same.
Qed.

Lemma isPowerOf2_inv n : isPowerOf2 n = true → n = 2 ^ Nat.log2 n.
Proof.
  unfold isPowerOf2. intros [Hpos Hland]%andb_true_iff.
  apply Nat.ltb_lt in Hpos. apply Nat.eqb_eq in Hland.
  destruct (Nat.log2_spec n Hpos) as [Hlo Hhi].
  destruct (decide (n = 2 ^ Nat.log2 n)) as [|Hne]; [done|exfalso].
  assert (Hp : 2 ^ Nat.log2 n ≠ 0) by (apply Nat.pow_nonzero; lia).
  assert (Hb1 : Nat.testbit n (Nat.log2 n) = true) by (apply Nat.bit_log2; lia).
  assert (Hl : Nat.log2 (n - 1) = Nat.log2 n).
  { apply Nat.log2_unique; [lia|]. rewrite Nat.pow_succ_r' in *. lia. }
  assert (Hb2 : Nat.testbit (n - 1) (Nat.log2 n) = true).
  { rewrite <- Hl. apply Nat.bit_log2. lia. }
  assert (Hb : Nat.testbit (Nat.land n (n - 1)) (Nat.log2 n) = true).
  { by rewrite Nat.land_spec, Hb1, Hb2. }
  rewrite Hland in Hb. by rewrite Nat.bits_0 in Hb.
Qed.

Lemma isPowerOf2_spec n : isPowerOf2 n = true ↔ ∃ L, n = 2 ^ L.
Proof.
  split.
  - intros Hn. exists (Nat.log2 n). by apply isPowerOf2_inv.
  - intros [L ->]. apply isPowerOf2_pow2.
Qed.

Lemma ilog2_pow2 L : ilog2 (2 ^ L) = L.
Proof. unfold ilog2. apply Nat.log2_pow2. lia. Qed.

Lemma reverseBits_step_arith r v :
  reverseBits_step (r, v) = (2 * r + v mod 2, v / 2).
Proof.
  unfold reverseBits_step. simpl fst. simpl snd. f_equal.
  - rewrite Nat.shiftl_mul_pow2, Nat.pow_1_r.
    change 1 with (Nat.ones 1) at 2. rewrite Nat.land_ones, Nat.pow_1_r.
    assert (Hz : Nat.land (r * 2) (v mod 2) = 0).
    { pose proof (Nat.mod_upper_bound v 2 ltac:(lia)) as Hb.
      destruct (v mod 2) as [|[|]]; [apply Nat.land_0_r| |lia].
      change 1 with (Nat.ones 1). rewrite Nat.land_ones, Nat.pow_1_r.
      apply Nat.Div0.mod_mul. }
    rewrite <- (Nat.lxor_lor _ _ Hz), <- (Nat.add_nocarry_lxor _ _ Hz). lia.
  - by rewrite Nat.shiftr_div_pow2, Nat.pow_1_r.
Qed.

(** The loop of [reverseBits], started from any [r]. *)
Lemma reverseBits_iter bits r v :
  Nat.iter bits reverseBits_step (r, v)
  = (r * 2 ^ bits + reverseBits v bits, v / 2 ^ bits).
Proof.
  unfold reverseBits. revert r v. induction bits as [|b IH]; intros r v.
  - rewrite Nat.pow_0_r, Nat.div_1_r. simpl. f_equal. lia.
  - rewrite !Nat.iter_succ_r, !reverseBits_step_arith.
    rewrite (IH (2 * r + v mod 2)), (IH (2 * 0 + v mod 2)). cbn [fst snd]. f_equal.
    + rewrite Nat.pow_succ_r'. lia.
    + rewrite Nat.pow_succ_r', Nat.Div0.div_div. done.
Qed.

Lemma reverseBits_0 v : reverseBits v 0 = 0.
Proof. done. Qed.

Lemma reverseBits_S v b :
  reverseBits v (S b) = (v mod 2) * 2 ^ b + reverseBits (v / 2) b.
Proof.
  unfold reverseBits at 1. rewrite Nat.iter_succ_r, reverseBits_step_arith.
  rewrite reverseBits_iter. cbn [fst snd]. lia.
Qed.

Lemma reverseBits_lt v bits : reverseBits v bits < 2 ^ bits.
Proof.
  revert v. induction bits as [|b IH]; intros v.
  - simpl. rewrite reverseBits_0. lia.
  - rewrite reverseBits_S, Nat.pow_succ_r'. specialize (IH (v / 2)).
    pose proof (Nat.mod_upper_bound v 2 ltac:(lia)). nia.
Qed.

(** The starts of the spans. *)
Lemma range_step_aux_spec fuel k hi step j :
  0 < step →
  j ∈ range_step_aux fuel k hi step → ∃ q, j = k + q * step ∧ j < hi.
Proof.
  intros Hstep. revert k. induction fuel as [|f IH]; intros k; simpl.
  - by intros ?%elem_of_nil.
  - destruct (Nat.ltb_spec k hi); [|by intros ?%elem_of_nil].
    intros [->|Hj]%elem_of_cons.
    + exists 0. lia.
    + destruct (IH _ Hj) as (q & -> & ?). exists (S q). lia.
Qed.

Lemma range_step_spec hi step j :
  0 < step → j ∈ range_step 0 hi step → ∃ q, j = q * step ∧ j < hi.
Proof.
  intros Hstep Hj. destruct (range_step_aux_spec _ _ _ _ _ Hstep Hj) as (q & -> & ?).
  exists q. lia.
Qed.

Lemma range_step_aux_seq fuel k step c :
  0 < step → c ≤ fuel →
  range_step_aux fuel k (k + c * step) step = map (λ q, k + q * step) (seq 0 c).
Proof.
  intros Hstep. revert k c. induction fuel as [|f IH]; intros k c Hc; simpl.
  - by replace c with 0 by lia.
  - destruct c as [|c].
    + simpl. destruct (Nat.ltb_spec k (k + 0)); [lia|done].
    + destruct (Nat.ltb_spec k (k + S c * step)); [|nia].
      rewrite <- cons_seq. simpl. f_equal; [lia|].
      replace (k + (step + c * step)) with ((k + step) + c * step) by lia.
      rewrite IH by lia. rewrite <- seq_shift, map_map.
      apply map_ext. intros q. lia.
Qed.

Lemma range_step_seq c step :
  0 < step → range_step 0 (c * step) step = map (λ q, q * step) (seq 0 c).
Proof.
  intros Hstep. unfold range_step.
  rewrite (range_step_aux_seq _ 0 step c Hstep) by nia. done.
Qed.

Section FFTRun.
Context {F : Type} `{Float64 F}.
Implicit Types (h : heap F) (l : nat) (zs cur : list (complex128 F)).

(** A loop whose body reads and writes the one array at [l], and threads
    local variables. *)
Lemma for_in_arrayC {St} h l n (idx : list nat) (body : nat → St → M F St)
    (g : St * list (complex128 F) → nat → St * list (complex128 F)) s zs :
  length zs = n →
  (∀ i s cur, i ∈ idx → length cur = n →
     body i s (<[l := CArr cur]> h)
       = Ok (fst (g (s, cur) i)) (<[l := CArr (snd (g (s, cur) i))]> h)
     ∧ length (snd (g (s, cur) i)) = n) →
  for_in idx body s (<[l := CArr zs]> h)
    = Ok (fst (fold_left g idx (s, zs))) (<[l := CArr (snd (fold_left g idx (s, zs)))]> h)
  ∧ length (snd (fold_left g idx (s, zs))) = n.
Proof.
  intros Hn Hbody. revert s zs Hn.
  induction idx as [|i idx IH]; intros s zs Hn; simpl; [done|].
  destruct (Hbody i s zs (list_elem_of_here _ _) Hn) as [Hb Hlen].
  rewrite (bind_Ok _ _ _ _ _ Hb).
  destruct (g (s, zs) i) as [s1 zs1] eqn:E. simpl in *.
  apply IH; [|done]. intros j s2 cur Hj. apply Hbody. by apply list_elem_of_further.
Qed.

Lemma length_swapped zs i j : length (swapped zs i j) = length zs.
Proof. unfold swapped. by rewrite !length_insert. Qed.

Lemma bitReverse_run h l zs :
  h !! l = Some (CArr zs) →
  (∀ i, i < length zs → reverseBits i (ilog2 (length zs)) < length zs) →
  bitReverse (Some l) h = Ok tt (<[l := CArr (bitReverse_list zs)]> h)
  ∧ length (bitReverse_list zs) = length zs.
Proof.
  intros Hl Hrev. pose proof (lookup_lt_Some _ _ _ Hl) as Hlt.
  unfold bitReverse. rewrite (bind_Ok _ _ _ _ _ (lenC_Ok _ _ _ Hl)).
  unfold for_range, bitReverse_list. rewrite Nat.sub_0_r.
  set (g := λ (st : unit * list (complex128 F)) i,
         (tt, let j := reverseBits i (ilog2 (length zs)) in
              if i <? j then swapped (snd st) i j else snd st)).
  destruct (for_in_arrayC h l (length zs) (seq 0 (length zs))
    (λ (i : nat) (_ : ()),
       if i <? reverseBits i (ilog2 (length zs))
       then bind (getC (Some l) (reverseBits i (ilog2 (length zs))))
              (λ a, bind (getC (Some l) i)
                 (λ b, bind (setC (Some l) i a)
                    (λ _, setC (Some l) (reverseBits i (ilog2 (length zs))) b)))
       else ret ()) g tt zs eq_refl) as [Hr Hlen].
  { intros i [] cur Hi%elem_of_seq Hc. unfold g. cbn [fst snd].
    specialize (Hrev i ltac:(lia)). set (j := reverseBits i _) in *.
    destruct (i <? j); [|split; [done|done]].
    destruct (lookup_lt_is_Some_2 cur i) as [b Hb]; [lia|].
    destruct (lookup_lt_is_Some_2 cur j) as [a Ha]; [lia|].
    rewrite (bind_Ok _ _ _ _ _ (getC_insert _ _ _ _ _ Hlt Ha)).
    rewrite (bind_Ok _ _ _ _ _ (getC_insert _ _ _ _ _ Hlt Hb)).
    erewrite bind_Ok; [|apply setC_insert; [done|lia]].
    rewrite setC_insert by (rewrite ?length_insert; lia).
    unfold swapped. rewrite (nth_lookup_Some' _ _ _ _ Ha), (nth_lookup_Some' _ _ _ _ Hb).
    by rewrite !length_insert. }
  rewrite list_insert_id in Hr by done.
  assert (E : ∀ idx st, snd (fold_left g idx st)
     = fold_left (λ cur i, let j := reverseBits i (ilog2 (length zs)) in
                           if i <? j then swapped cur i j else cur) idx (snd st)).
  { induction idx as [|i idx IH]; intros st; simpl; [done|]. by rewrite IH. }
  rewrite E in Hr, Hlen. split; [|done]. rewrite Hr. by destruct (fold_left g _ _).1.
Qed.

Lemma butterflies_run h l m k wm cur :
  l < length h → k + 2 * (m / 2) ≤ length cur →
  butterflies (Some l) m k wm (<[l := CArr cur]> h)
    = Ok (fst (fold_left (butterfly_step m k wm) (seq 0 (m / 2)) (c1, cur)))
         (<[l := CArr (butterflies_list m k wm cur)]> h)
  ∧ length (butterflies_list m k wm cur) = length cur.
Proof.
  intros Hlt Hk. unfold butterflies, butterflies_list, for_range. rewrite Nat.sub_0_r.
  apply for_in_arrayC; [done|].
  intros j w zs Hj%elem_of_seq Hz. unfold butterfly_step. cbn [fst snd].
  destruct (lookup_lt_is_Some_2 zs (k + j + m / 2)) as [a Ha]; [lia|].
  destruct (lookup_lt_is_Some_2 zs (k + j)) as [u Hu]; [lia|].
  rewrite (bind_Ok _ _ _ _ _ (getC_insert _ _ _ _ _ Hlt Ha)).
  rewrite (bind_Ok _ _ _ _ _ (getC_insert _ _ _ _ _ Hlt Hu)).
  erewrite bind_Ok; [|apply setC_insert; [done|lia]].
  erewrite bind_Ok; [|apply setC_insert; [done|rewrite length_insert; lia]].
  rewrite (nth_lookup_Some' _ _ _ _ Ha), (nth_lookup_Some' _ _ _ _ Hu).
  by rewrite !length_insert.
Qed.

End FFTRun.

Section FFTRun2.
Context {F : Type} `{Float64 F}.
Implicit Types (h : heap F) (l : nat) (zs cur : list (complex128 F)).

Lemma pow2_half_double s : 1 ≤ s → 2 * (2 ^ s / 2) = 2 ^ s.
Proof.
  intros Hs. destruct s as [|s]; [lia|].
  rewrite Nat.pow_succ_r', (Nat.mul_comm 2 (2 ^ s)), Nat.div_mul by lia. lia.
Qed.

Lemma span_in_range L s k :
  1 ≤ s ≤ L → k ∈ range_step 0 (2 ^ L) (2 ^ s) → k + 2 ^ s ≤ 2 ^ L.
Proof.
  intros Hs Hk.
  assert (Hm : 0 < 2 ^ s) by (apply Nat.neq_0_lt_0, Nat.pow_nonzero; lia).
  destruct (range_step_spec _ _ _ Hm Hk) as (q & -> & Hq).
  replace L with ((L - s) + s) in * by lia. rewrite Nat.pow_add_r in *.
  assert (q < 2 ^ (L - s)) by nia. nia.
Qed.

Lemma stage_run h l L s cur :
  l < length h → length cur = 2 ^ L → 1 ≤ s ≤ L →
  for_in (range_step 0 (2 ^ L) (2 ^ s))
    (λ k (_ : unit), bind (butterflies (Some l) (2 ^ s) k (twiddle (2 ^ s))) (λ _, ret tt))
    tt (<[l := CArr cur]> h)
  = Ok tt (<[l := CArr (stage_list (2 ^ L) cur s)]> h)
  ∧ length (stage_list (2 ^ L) cur s) = 2 ^ L.
Proof.
  intros Hlt Hlen Hs.
  set (g := λ (st : unit * list (complex128 F)) k,
         (tt, butterflies_list (2 ^ s) k (twiddle (2 ^ s)) (snd st))).
  destruct (for_in_arrayC h l (2 ^ L) (range_step 0 (2 ^ L) (2 ^ s))
    (λ k (_ : unit), bind (butterflies (Some l) (2 ^ s) k (twiddle (2 ^ s))) (λ _, ret tt))
    g tt cur Hlen) as [Hr Hl'].
  { intros k [] zs Hk Hz. unfold g. cbn [fst snd].
    pose proof (span_in_range L s k Hs Hk) as Hin.
    destruct (butterflies_run h l (2 ^ s) k (twiddle (2 ^ s)) zs Hlt) as [Hb Hbl].
    { rewrite pow2_half_double by lia. lia. }
    rewrite (bind_Ok _ _ _ _ _ Hb). split; [done|]. by rewrite Hbl. }
  assert (E : ∀ idx st, snd (fold_left g idx st)
     = fold_left (λ cur k, butterflies_list (2 ^ s) k (twiddle (2 ^ s)) cur) idx (snd st)).
  { induction idx as [|i idx IH]; intros st; simpl; [done|]. by rewrite IH. }
  unfold stage_list. rewrite E in Hr, Hl'. split; [|done].
  rewrite Hr. by destruct (fold_left g _ _).1.
Qed.

Lemma stages_run h l L cur lo c :
  l < length h → length cur = 2 ^ L → 1 ≤ lo → lo + c ≤ L + 1 →
  for_in (seq lo c)
    (λ s (_ : unit),
       for_in (range_step 0 (2 ^ L) (2 ^ s))
         (λ k (_ : unit), bind (butterflies (Some l) (2 ^ s) k (twiddle (2 ^ s))) (λ _, ret tt))
         tt)
    tt (<[l := CArr cur]> h)
  = Ok tt (<[l := CArr (fold_left (stage_list (2 ^ L)) (seq lo c) cur)]> h)
  ∧ length (fold_left (stage_list (2 ^ L)) (seq lo c) cur) = 2 ^ L.
Proof.
  intros Hlt. revert lo cur. induction c as [|c IH]; intros lo cur Hlen Hlo Hc; simpl.
  - done.
  - destruct (stage_run h l L lo cur Hlt Hlen ltac:(lia)) as [Hr Hl'].
    rewrite (bind_Ok _ _ _ _ _ Hr). apply IH; [done|lia|lia].
Qed.

Lemma overwrite_all {A} (dst src : list A) :
  length dst = length src → overwrite dst src = src.
Proof.
  intros E. unfold overwrite. by rewrite E, firstn_all, <- E, drop_all, app_nil_r.
Qed.

Lemma reverseBits_in_range L i : i < 2 ^ L → reverseBits i (ilog2 (2 ^ L)) < 2 ^ L.
Proof. intros _. rewrite ilog2_pow2. apply reverseBits_lt. Qed.

Lemma length_bitReverse_list zs : length (bitReverse_list zs) = length zs.
Proof.
  unfold bitReverse_list. generalize (seq 0 (length zs)) as idx.
  generalize (ilog2 (length zs)) as b. intros b idx.
  assert (G : ∀ cur, length (fold_left (λ cur i,
      let j := reverseBits i b in if i <? j then swapped cur i j else cur) idx cur)
      = length cur).
  { induction idx as [|i idx IH]; intros cur; simpl; [done|].
    rewrite IH. destruct (i <? _); [apply length_swapped|done]. }
  apply G.
Qed.

Lemma FFT_run h l xs L :
  h !! l = Some (CArr xs) → length xs = 2 ^ L →
  FFT (Some l) h = Ok (Some (length h)) (h ++ [CArr (fft_list xs)])
  ∧ length (fft_list xs) = length xs.
Proof.
  intros Hl Hlen. pose proof (lookup_lt_Some _ _ _ Hl) as Hlt.
  assert (Hpos : 2 ^ L ≠ 0) by (apply Nat.pow_nonzero; lia).
  unfold FFT. rewrite (bind_Ok _ _ _ _ _ (lenC_Ok _ _ _ Hl)).
  rewrite Hlen. destruct (Nat.eqb_spec (2 ^ L) 0) as [|_]; [done|].
  rewrite isPowerOf2_pow2. cbn [negb]. unfold makeC.
  rewrite (bind_Ok _ _ _ (Some (length h)) (h ++ [CArr (replicate (2 ^ L) c0)])) by done.
  erewrite bind_Ok; [|apply loadC_Ok; by rewrite lookup_alloc_old].
  erewrite bind_Ok; [|apply copyC_Ok, lookup_alloc_new].
  rewrite insert_alloc_new, overwrite_all by (by rewrite length_replicate).
  destruct (bitReverse_run (h ++ [CArr xs]) (length h) xs (lookup_alloc_new _ _)) as [Hb Hbl].
  { rewrite Hlen. apply reverseBits_in_range. }
  rewrite (bind_Ok _ _ _ _ _ Hb).
  unfold for_range. rewrite ilog2_pow2. replace (L + 1 - 1) with L by lia.
  destruct (stages_run (h ++ [CArr xs]) (length h) L (bitReverse_list xs) 1 L) as [Hr Hrl].
  { rewrite length_app. simpl. lia. }
  { by rewrite Hbl. }
  { lia. }
  { lia. }
  rewrite (bind_Ok _ _ _ _ _ Hr). unfold ret. rewrite insert_alloc_new.
  unfold fft_list. rewrite Hlen, ilog2_pow2. by rewrite Hrl.
Qed.

Lemma FFT_empty h l : h !! l = Some (CArr []) → FFT (Some l) h = Ok None h.
Proof.
  intros Hl. unfold FFT. by rewrite (bind_Ok _ _ _ _ _ (lenC_Ok _ _ _ Hl)).
Qed.

Lemma FFT_nil h : FFT None h = Ok None h.
Proof. done. Qed.

Lemma FFT_panic h l xs :
  h !! l = Some (CArr xs) → length xs ≠ 0 → isPowerOf2 (length xs) = false →
  FFT (Some l) h = Panic InvalidLength.
Proof.
  intros Hl Hn Hp. unfold FFT. rewrite (bind_Ok _ _ _ _ _ (lenC_Ok _ _ _ Hl)).
  destruct (Nat.eqb_spec (length xs) 0); [done|]. by rewrite Hp.
Qed.

Lemma imap_const_mapC {A B} (g : A → B) (xs : list A) :
  imap (λ _ x, g x) xs = map g xs.
Proof. induction xs as [|x xs IH]; simpl; [done|]. f_equal. apply IH. Qed.

Lemma IFFT_run h l xs L :
  h !! l = Some (CArr xs) → length xs = 2 ^ L →
  IFFT (Some l) h
  = Ok (Some (S (length h))) (h ++ [CArr (map cmplx_Conj xs); CArr (ifft_list xs)])
  ∧ length (ifft_list xs) = length xs.
Proof.
  intros Hl Hlen. pose proof (lookup_lt_Some _ _ _ Hl) as Hlt.
  assert (Hpos : 2 ^ L ≠ 0) by (apply Nat.pow_nonzero; lia).
  unfold IFFT. rewrite (bind_Ok _ _ _ _ _ (lenC_Ok _ _ _ Hl)).
  destruct (Nat.eqb_spec (length xs) 0) as [|_]; [lia|]. unfold makeC.
  rewrite (bind_Ok _ _ _ (Some (length h)) (h ++ [CArr (replicate (length xs) c0)])) by done.
  erewrite bind_Ok; cycle 1.
  { eapply (for_updateC_run _ (length h) _ _ _ (λ i _, cmplx_Conj (nth i xs c0))).
    - apply lookup_alloc_new.
    - by rewrite length_replicate.
    - intros i x cur Hx Hc Hlc. rewrite !insert_alloc_new.
      destruct (lookup_lt_is_Some_2 xs i) as [v Hv].
      { apply lookup_lt_Some in Hx. by rewrite length_replicate in Hx. }
      erewrite bind_Ok; [|eapply getC_Ok; [by rewrite lookup_alloc_old|done]].
      erewrite setC_Ok; [|apply lookup_alloc_new|by apply lookup_lt_Some in Hc].
      rewrite insert_alloc_new. by rewrite (nth_lookup_Some' _ _ _ _ Hv). }
  rewrite insert_alloc_new, imap_replicate_const, (map_seq_nth cmplx_Conj).
  destruct (FFT_run (h ++ [CArr (map cmplx_Conj xs)]) (length h) (map cmplx_Conj xs) L)
    as [Hf Hfl].
  { apply lookup_alloc_new. }
  { by rewrite length_map. }
  rewrite (bind_Ok _ _ _ _ _ Hf).
  rewrite length_app. simpl length. rewrite Nat.add_1_r.
  set (h2 := (h ++ [CArr (map cmplx_Conj xs)]) ++ [CArr (fft_list (map cmplx_Conj xs))]).
  assert (Hr : h2 !! S (length h) = Some (CArr (fft_list (map cmplx_Conj xs)))).
  { unfold h2. rewrite lookup_app_r; rewrite length_app; simpl; [|lia].
    by replace (S (length h) - (length h + 1)) with 0 by lia. }
  rewrite (bind_Ok _ _ _ _ _ (lenC_Ok _ _ _ Hr)).
  erewrite bind_Ok; cycle 1.
  { eapply (for_updateC_run _ (S (length h)) _ _ _
      (λ _ v, cdiv (cmplx_Conj v) (Cx (fofZ (Z.of_nat (length xs))) f0))); [done..|].
    intros i x cur Hx Hc Hlc.
    assert (S (length h) < length h2).
    { unfold h2. rewrite !length_app. simpl. lia. }
    erewrite bind_Ok; [|by apply getC_insert].
    apply setC_insert; [done|]. by apply lookup_lt_Some in Hc. }
  unfold ret. rewrite imap_const_mapC. fold (ifft_list xs). split.
  - f_equal. unfold h2.
    replace (S (length h)) with (length (h ++ [CArr (map cmplx_Conj xs)]))
      by (rewrite length_app; simpl; lia).
    rewrite insert_alloc_new. by rewrite <- app_assoc.
  - unfold ifft_list. by rewrite length_map, Hfl, length_map.
Qed.

End FFTRun2.

Lemma FrameSize_pow2 : FrameSize = 2 ^ 11.
Proof. reflexivity. Qed.

Lemma FrameSize_HopSize : FrameSize = 2 * HopSize.
Proof. reflexivity. Qed.

Lemma HopSize_pos : 0 < HopSize.
Proof. unfold HopSize, FrameSize. cbn. lia. Qed.

Ltac solve_elem :=
  repeat first
    [ apply not_elem_of_nil
    | apply list_elem_of_here
    | apply list_elem_of_further
    | apply not_elem_of_cons; split; [try done; try lia|] ].


Section PipelineRun.
Context {F : Type} `{Float64 F}.
Implicit Types (h : heap F) (l : nat) (xs ws : list F).

Local Opaque FrameSize HopSize.

Lemma length_frameValues xs start size : length (frameValues xs start size) = size.
Proof. apply length_resize. Qed.

Lemma length_windowed xs ws : length xs ≤ length ws → length (windowed xs ws) = length xs.
Proof. intros. unfold windowed. rewrite length_zip_with. lia. Qed.

Lemma length_promoted xs : length (promoted xs) = length xs.
Proof. apply length_map. Qed.

Lemma length_spectrum_of xs ws fi :
  length ws = FrameSize → length (spectrum_of xs ws fi) = FrameSize.
Proof.
  intros Hw. unfold spectrum_of.
  assert (E : length (promoted (windowed (frameValues xs (fi * HopSize) FrameSize) ws)) = 2 ^ 11).
  { rewrite length_promoted, length_windowed; rewrite length_frameValues; [|lia].
    apply FrameSize_pow2. }
  destruct (FFT_run [CArr (promoted (windowed (frameValues xs (fi * HopSize) FrameSize) ws))]
              0 _ 11 eq_refl E) as [_ ->].
  by rewrite E, FrameSize_pow2.
Qed.

Lemma frameSpectrum_run h s w xs ws fi :
  h !! s = Some (FArr xs) → h !! w = Some (FArr ws) →
  length ws = FrameSize → fi * HopSize ≤ length xs →
  frameSpectrum (Some s) (Some w) fi h
  = Ok (Some (length h + 2))
       (h ++ [FArr (windowed (frameValues xs (fi * HopSize) FrameSize) ws);
              CArr (promoted (windowed (frameValues xs (fi * HopSize) FrameSize) ws));
              CArr (spectrum_of xs ws fi)]).
Proof.
  intros Hs Hw Hlw Hfi.
  pose proof (lookup_lt_Some _ _ _ Hs) as Hslt.
  pose proof (lookup_lt_Some _ _ _ Hw) as Hwlt.
  unfold frameSpectrum.
  rewrite (bind_Ok _ _ _ _ _ (extractFrame_run _ _ _ _ FrameSize Hs Hfi)).
  set (fr := frameValues xs (fi * HopSize) FrameSize).
  erewrite bind_Ok; cycle 1.
  { apply (applyWindow_run _ (length h) w fr ws).
    - apply lookup_alloc_new.
    - by rewrite lookup_alloc_old.
    - lia.
    - unfold fr. rewrite length_frameValues. lia. }
  rewrite insert_alloc_new.
  erewrite bind_Ok; [|apply realToComplex_run, lookup_alloc_new].
  rewrite length_app. simpl length.
  destruct (FFT_run ((h ++ [FArr (windowed fr ws)]) ++ [CArr (promoted (windowed fr ws))])
              (length h + 1) (promoted (windowed fr ws)) 11) as [Hf _].
  { rewrite lookup_app_r; rewrite length_app; simpl; [|lia].
    by replace (length h + 1 - (length h + 1)) with 0 by lia. }
  { rewrite length_promoted, length_windowed; unfold fr; rewrite length_frameValues; [|lia].
    apply FrameSize_pow2. }
  rewrite Hf. f_equal.
  - rewrite !length_app. simpl. f_equal. lia.
  - by rewrite <- !app_assoc.
Qed.


Lemma kept_refl mods h : kept mods h h.
Proof. split; [lia|done]. Qed.

Lemma kept_trans mods h1 h2 h3 : kept mods h1 h2 → kept mods h2 h3 → kept mods h1 h3.
Proof.
  intros [L1 K1] [L2 K2]. split; [lia|].
  intros a Ha Hm. rewrite K2, K1; [done..|lia|done].
Qed.

Lemma kept_app mods h ext : kept mods h (h ++ ext).
Proof.
  split; [rewrite length_app; lia|]. intros a Ha _. by rewrite lookup_app_l.
Qed.

Lemma kept_insert mods h l c : l ∈ mods → kept mods h (<[l := c]> h).
Proof.
  intros Hl. split; [by rewrite length_insert|].
  intros a Ha Hm. rewrite list_lookup_insert_ne; [done|]. by intros ->.
Qed.

Lemma kept_weaken mods mods' h h' : mods ⊆ mods' → kept mods h h' → kept mods' h h'.
Proof.
  intros Hsub [L K]. split; [done|]. intros a Ha Hm. apply K; [done|].
  intros Hin. by apply Hm, Hsub.
Qed.

Lemma kept_lookup mods h h' a c :
  kept mods h h' → h !! a = Some c → a ∉ mods → h' !! a = Some c.
Proof.
  intros [L K] Ha Hm. rewrite K; [done| |done]. by eapply lookup_lt_Some.
Qed.

Lemma imap_zip_with_gen {A B} (f : A → B → A) (xs : list A) (ys : list B) d :
  length xs ≤ length ys →
  imap (λ i x, f x (nth i ys d)) xs = zip_with f xs ys.
Proof.
  revert ys. induction xs as [|x xs IH]; intros [|y ys] Hlen; simpl in *; try done; [lia|].
  f_equal. rewrite <- IH by lia. by apply imap_ext.
Qed.

Lemma length_noise_sum xs ws nf :
  length ws = FrameSize → length (noise_sum xs ws nf) = FrameSize.
Proof.
  intros Hw. unfold noise_sum.
  assert (G : ∀ idx acc, length acc = FrameSize →
    length (fold_left (λ acc fi, zip_with (λ a z, (a + cmplx_Abs z)%fl) acc
                                   (spectrum_of xs ws fi)) idx acc) = FrameSize).
  { induction idx as [|i idx IH]; intros acc Ha; simpl; [done|].
    apply IH. rewrite length_zip_with, length_spectrum_of by done. lia. }
  apply G, length_replicate.
Qed.

Lemma noise_sum_S xs ws nf :
  noise_sum xs ws (S nf)
  = zip_with (λ a z, (a + cmplx_Abs z)%fl) (noise_sum xs ws nf) (spectrum_of xs ws nf).
Proof. unfold noise_sum. by rewrite seq_S, fold_left_app. Qed.

Lemma estimateNoise_run h s w nm xs ws nf :
  h !! s = Some (FArr xs) → h !! w = Some (FArr ws) →
  h !! nm = Some (FArr (replicate FrameSize f0)) →
  nm ≠ s → nm ≠ w → length ws = FrameSize →
  (∀ fi, fi < nf → fi * HopSize ≤ length xs) →
  ∃ h', estimateNoise (Some s) (Some w) (Some nm) nf h = Ok tt h'
        ∧ kept [nm] h h'
        ∧ h' !! nm = Some (FArr (noise_profile xs ws nf)).
Proof.
  intros Hs Hw Hnm Hns Hnw Hlw Hfi.
  pose proof (lookup_lt_Some _ _ _ Hnm) as Hnlt.
  unfold estimateNoise.
  destruct (for_range_inv
    (λ fi (_ : unit) h', kept [nm] h h' ∧ h' !! nm = Some (FArr (noise_sum xs ws fi)))
    0 nf
    (λ fi (_ : unit),
       bind (frameSpectrum (Some s) (Some w) fi)
         (λ spectrum, for_range 0 FrameSize
            (λ k (_ : unit),
               bind (getF (Some nm) k)
                 (λ a, bind (getC spectrum k)
                    (λ z, setF (Some nm) k (a + cmplx_Abs z)%fl))) tt))
    tt h) as ([] & h1 & Hr & Hk & Hn1).
  - lia.
  - split; [apply kept_refl|done].
  - intros fi [] hc Hi [Hk Hc].
    assert (Hsc : hc !! s = Some (FArr xs)) by (eapply kept_lookup; [done..|solve_elem]).
    assert (Hwc : hc !! w = Some (FArr ws)) by (eapply kept_lookup; [done..|solve_elem]).
    rewrite (bind_Ok _ _ _ _ _ (frameSpectrum_run _ _ _ _ _ fi Hsc Hwc Hlw (Hfi fi ltac:(lia)))).
    set (ext := [FArr _; CArr _; CArr (spectrum_of xs ws fi)]).
    pose proof (lookup_lt_Some _ _ _ Hc) as Hclt.
    assert (Hsp : (hc ++ ext) !! (length hc + 2) = Some (CArr (spectrum_of xs ws fi))).
    { rewrite lookup_app_r by lia. by replace (length hc + 2 - length hc) with 2 by lia. }
    eexists tt, _. split.
    + eapply (for_updateF_run _ nm (noise_sum xs ws fi) _ _
        (λ k a, (a + cmplx_Abs (nth k (spectrum_of xs ws fi) c0))%fl)).
      * by rewrite lookup_app_l.
      * by rewrite length_noise_sum.
      * intros k a cur Ha Hcur Hlc.
        assert (Hk' : k < FrameSize).
        { apply lookup_lt_Some in Ha. by rewrite length_noise_sum in Ha. }
        destruct (lookup_lt_is_Some_2 (spectrum_of xs ws fi) k) as [z Hz].
        { by rewrite length_spectrum_of. }
        assert (nm < length (hc ++ ext)) by (rewrite length_app; lia).
        erewrite bind_Ok; [|by apply getF_insert].
        erewrite bind_Ok; [|eapply getC_insert_ne; [lia|done..]].
        rewrite (nth_lookup_Some' _ _ _ _ Hz).
        apply setF_insert; [done|]. by apply lookup_lt_Some in Hcur.
    + split.
      * eapply kept_trans; [done|]. eapply kept_trans; [apply kept_app|].
        apply kept_insert. solve_elem.
      * rewrite list_lookup_insert_eq by (rewrite length_app; lia).
        rewrite noise_sum_S. f_equal. f_equal.
        apply (imap_zip_with_gen (λ a z, (a + cmplx_Abs z)%fl)).
        rewrite length_noise_sum, length_spectrum_of by done. lia.
  - rewrite (bind_Ok _ _ _ _ _ Hr).
    rewrite (bind_Ok _ _ _ _ _ (lenF_Ok _ _ _ Hn1)).
    pose proof (lookup_lt_Some _ _ _ Hn1) as Hn1lt.
    eexists. split; [|split].
    + eapply (for_updateF_run _ nm (noise_sum xs ws nf) _ _
        (λ _ a, (a / fofZ (Z.of_nat nf))%fl)); [done..|].
      intros k a cur Ha Hcur Hlc.
      erewrite bind_Ok; [|by apply getF_insert].
      apply setF_insert; [done|]. by apply lookup_lt_Some in Hcur.
    + eapply kept_trans; [done|]. apply kept_insert. solve_elem.
    + rewrite list_lookup_insert_eq by done. by rewrite imap_const_map.
Qed.

End PipelineRun.

Section PipelineRun2.
Context {F : Type} `{Float64 F}.
Implicit Types (h : heap F) (l : nat) (xs ws : list F).

Local Opaque FrameSize HopSize.

Lemma length_overlap_step n start cleaned ws st j :
  length (fst (overlap_step n start cleaned ws st j)) = length (fst st)
  ∧ length (snd (overlap_step n start cleaned ws st j)) = length (snd st).
Proof.
  unfold overlap_step. destruct (start + j <? n); [|done].
  cbn [fst snd]. by rewrite !length_insert.
Qed.

Lemma length_overlap_fold n start cleaned ws idx st :
  length (fst (fold_left (overlap_step n start cleaned ws) idx st)) = length (fst st)
  ∧ length (snd (fold_left (overlap_step n start cleaned ws) idx st)) = length (snd st).
Proof.
  revert st. induction idx as [|j idx IH]; intros st; simpl; [done|].
  destruct (IH (overlap_step n start cleaned ws st j)) as [-> ->].
  apply length_overlap_step.
Qed.

Lemma overlapAdd_run h o wsum cl w a0 b0 cleaned ws n start :
  h !! o = Some (FArr a0) → h !! wsum = Some (FArr b0) →
  h !! cl = Some (CArr cleaned) → h !! w = Some (FArr ws) →
  o ≠ wsum → o ≠ w → wsum ≠ w →
  length a0 = n → length b0 = n →
  length cleaned = FrameSize → length ws = FrameSize →
  for_range 0 FrameSize
    (λ j (_ : unit),
       if start + j <? n
       then bind (getF (Some o) (start + j))
              (λ ov, bind (getC (Some cl) j)
                 (λ c, bind (getF (Some w) j)
                    (λ wv, bind (setF (Some o) (start + j) (ov + re c * wv)%fl)
                       (λ _, bind (getF (Some wsum) (start + j))
                          (λ sv, setF (Some wsum) (start + j) (sv + wv * wv)%fl)))))
       else ret tt) tt h
  = Ok tt (<[wsum := FArr (snd (overlap_add n start cleaned ws (a0, b0)))]>
             (<[o := FArr (fst (overlap_add n start cleaned ws (a0, b0)))]> h)).
Proof.
  intros Ho Hs Hcl Hw Hos How Hsw Ha Hb Hlc Hlw.
  pose proof (lookup_lt_Some _ _ _ Ho) as Holt.
  pose proof (lookup_lt_Some _ _ _ Hs) as Hslt.
  set (body := λ j (_ : unit), if start + j <? n then _ else _).
  set (st := λ j, fold_left (overlap_step n start cleaned ws) (seq 0 j) (a0, b0)).
  destruct (for_range_inv
    (λ j (_ : unit) h', h' = <[wsum := FArr (snd (st j))]> (<[o := FArr (fst (st j))]> h))
    0 FrameSize body tt h) as ([] & h' & Hr & ->).
  - lia.
  - unfold st. simpl. by rewrite (list_insert_id h o), list_insert_id.
  - intros j [] h1 Hj ->. eexists tt, _. split; [|reflexivity].
    unfold body. unfold st at 3 4. rewrite seq_S, fold_left_app. simpl.
    fold (st j). unfold overlap_step.
    destruct (length_overlap_fold n start cleaned ws (seq 0 j) (a0, b0)) as [La Lb].
    fold (st j) in La, Lb. cbn [fst snd] in La, Lb.
    destruct (Nat.ltb_spec (start + j) n) as [Hidx|Hidx]; [|done].
    cbn [fst snd].
    destruct (lookup_lt_is_Some_2 (st j).1 (start + j)) as [ov Hov]; [lia|].
    destruct (lookup_lt_is_Some_2 (st j).2 (start + j)) as [sv Hsv]; [lia|].
    destruct (lookup_lt_is_Some_2 cleaned j) as [c Hc]; [lia|].
    destruct (lookup_lt_is_Some_2 ws j) as [wv Hwv]; [lia|].
    rewrite (nth_lookup_Some' _ _ _ _ Hov), (nth_lookup_Some' _ _ _ _ Hsv),
      (nth_lookup_Some' _ _ _ _ Hc), (nth_lookup_Some' _ _ _ _ Hwv).
    erewrite bind_Ok; cycle 1.
    { eapply (getF_insert_ne _ _ _ _ (st j).1); [done| |done].
      by apply list_lookup_insert_eq. }
    erewrite bind_Ok; cycle 1.
    { eapply getC_Ok; [|done]. rewrite !list_lookup_insert_ne; [done|..].
      - intros ->. by rewrite Ho in Hcl.
      - intros ->. by rewrite Hs in Hcl. }
    erewrite bind_Ok; cycle 1.
    { eapply getF_Ok; [|done]. by rewrite !list_lookup_insert_ne. }
    erewrite bind_Ok; cycle 1.
    { eapply (setF_Ok _ _ (st j).1); [|rewrite La; lia].
      rewrite list_lookup_insert_ne by done. by apply list_lookup_insert_eq. }
    rewrite (list_insert_insert_ne _ o wsum) by done.
    rewrite list_insert_insert_eq.
    erewrite bind_Ok; [|apply (getF_insert _ _ (st j).2); [by rewrite length_insert|done]].
    rewrite setF_insert; [done|by rewrite length_insert|rewrite Lb; lia].
  - by rewrite Hr.
Qed.

End PipelineRun2.

Section PipelineRun3.
Context {F : Type} `{Float64 F}.
Implicit Types (h : heap F) (l : nat) (xs ws : list F).

Local Opaque FrameSize HopSize.

Lemma length_ifft_list (zs : list (complex128 F)) L :
  length zs = 2 ^ L → length (ifft_list zs) = length zs.
Proof.
  intros E. by destruct (IFFT_run [CArr zs] 0 zs L eq_refl E) as [_ ->].
Qed.

Lemma length_subtracted xs ws noise fi :
  length ws = FrameSize → length noise = FrameSize →
  length (zip_with subtractBin (spectrum_of xs ws fi) noise) = FrameSize.
Proof.
  intros Hw Hn. rewrite length_zip_with, length_spectrum_of, Hn by done. lia.
Qed.

Lemma length_cleaned_of xs ws noise fi :
  length ws = FrameSize → length noise = FrameSize →
  length (cleaned_of xs ws noise fi) = FrameSize.
Proof.
  intros Hw Hn. unfold cleaned_of.
  rewrite (length_ifft_list _ 11); [by apply length_subtracted|].
  rewrite length_subtracted by done. apply FrameSize_pow2.
Qed.

Lemma length_overlap_add n start cleaned ws st :
  length (fst (overlap_add n start cleaned ws st)) = length (fst st)
  ∧ length (snd (overlap_add n start cleaned ws st)) = length (snd st).
Proof. apply length_overlap_fold. Qed.

Lemma fold_left_cons_eq {A B} (f : A → B → A) (x : B) (l : list B) (a : A) :
  fold_left f (x :: l) a = fold_left f l (f a x).
Proof. done. Qed.

Lemma fold_left_snoc {A B} (f : A → B → A) (x : B) (l : list B) (a : A) :
  fold_left f (l ++ [x]) a = f (fold_left f l a) x.
Proof. by rewrite fold_left_app. Qed.

Lemma length_subtract_fold xs ws noise n idx st :
  length (fst (fold_left (λ st fi, overlap_add n (fi * HopSize)
                 (cleaned_of xs ws noise fi) ws st) idx st)) = length (fst st)
  ∧ length (snd (fold_left (λ st fi, overlap_add n (fi * HopSize)
                 (cleaned_of xs ws noise fi) ws st) idx st)) = length (snd st).
Proof.
  revert st. induction idx as [|i idx IH]; intros st; [done|].
  rewrite fold_left_cons_eq.
  destruct (IH (overlap_add n (i * HopSize) (cleaned_of xs ws noise i) ws st)) as [E1 E2].
  rewrite E1, E2. apply length_overlap_add.
Qed.

Lemma length_subtract_frames xs ws noise n tf :
  length (fst (subtract_frames xs ws noise n tf)) = n
  ∧ length (snd (subtract_frames xs ws noise n tf)) = n.
Proof.
  unfold subtract_frames.
  destruct (length_subtract_fold xs ws noise n (seq 0 tf) (replicate n f0, replicate n f0))
    as [E1 E2].
  rewrite E1, E2. cbn [fst snd]. by rewrite length_replicate.
Qed.

Lemma subtract_frames_S xs ws noise n tf :
  subtract_frames xs ws noise n (S tf)
  = overlap_add n (tf * HopSize) (cleaned_of xs ws noise tf) ws
      (subtract_frames xs ws noise n tf).
Proof. unfold subtract_frames. by rewrite seq_S, fold_left_snoc. Qed.

Lemma subtractFrames_run h s w nm o wsum xs ws noise n tf :
  h !! s = Some (FArr xs) → h !! w = Some (FArr ws) →
  h !! nm = Some (FArr noise) →
  h !! o = Some (FArr (replicate n f0)) → h !! wsum = Some (FArr (replicate n f0)) →
  o ≠ wsum → o ≠ w → wsum ≠ w → o ≠ s → wsum ≠ s → o ≠ nm → wsum ≠ nm →
  length ws = FrameSize → length noise = FrameSize →
  (∀ fi, fi < tf → fi * HopSize ≤ length xs) →
  ∃ h', subtractFrames (Some s) (Some w) (Some nm) (Some o) (Some wsum) n tf h = Ok tt h'
        ∧ kept [o; wsum] h h'
        ∧ h' !! o = Some (FArr (fst (subtract_frames xs ws noise n tf)))
        ∧ h' !! wsum = Some (FArr (snd (subtract_frames xs ws noise n tf))).
Proof.
  intros Hs Hw Hnm Ho Hws Hne1 Hne2 Hne3 Hne4 Hne5 Hne6 Hne7 Hlw Hln Hfi.
  unfold subtractFrames.
  set (body := λ fi (_ : unit), bind (frameSpectrum (Some s) (Some w) fi) _).
  destruct (for_range_inv
    (λ fi (_ : unit) h',
       kept [o; wsum] h h'
       ∧ h' !! o = Some (FArr (fst (subtract_frames xs ws noise n fi)))
       ∧ h' !! wsum = Some (FArr (snd (subtract_frames xs ws noise n fi))))
    0 tf body tt h) as ([] & h1 & Hr & HI).
  - lia.
  - split; [apply kept_refl|]. done.
  - intros fi [] hc Hi (Hk & Hoc & Hwc).
    assert (Hsc : hc !! s = Some (FArr xs)) by (eapply kept_lookup; [done..|solve_elem]).
    assert (Hwic : hc !! w = Some (FArr ws)) by (eapply kept_lookup; [done..|solve_elem]).
    assert (Hnc : hc !! nm = Some (FArr noise)) by (eapply kept_lookup; [done..|solve_elem]).
    pose proof (lookup_lt_Some _ _ _ Hsc) as Hslt.
    pose proof (lookup_lt_Some _ _ _ Hwic) as Hwlt.
    pose proof (lookup_lt_Some _ _ _ Hnc) as Hnlt.
    pose proof (lookup_lt_Some _ _ _ Hoc) as Holt.
    pose proof (lookup_lt_Some _ _ _ Hwc) as Hwslt.
    unfold body.
    rewrite (bind_Ok _ _ _ _ _ (frameSpectrum_run _ _ _ _ _ fi Hsc Hwic Hlw (Hfi fi ltac:(lia)))).
    set (ext := [FArr _; CArr _; CArr (spectrum_of xs ws fi)]).
    assert (Hsp : (hc ++ ext) !! (length hc + 2) = Some (CArr (spectrum_of xs ws fi))).
    { rewrite lookup_app_r by lia. by replace (length hc + 2 - length hc) with 2 by lia. }
    assert (Hlext : length (hc ++ ext) = length hc + 3) by (by rewrite length_app).
    erewrite bind_Ok; cycle 1.
    { eapply (for_updateC_run _ (length hc + 2) (spectrum_of xs ws fi) _ _
        (λ k z, subtractBin z (nth k noise f0))); [done|by rewrite length_spectrum_of|].
      intros k z cur Hz Hcur Hlc.
      destruct (lookup_lt_is_Some_2 noise k) as [v Hv].
      { apply lookup_lt_Some in Hz. rewrite length_spectrum_of in Hz by done. lia. }
      erewrite bind_Ok; [|apply getC_insert; [lia|done]].
      erewrite bind_Ok; [|eapply getF_insert_ne; [lia|by rewrite lookup_app_l|done]].
      rewrite (nth_lookup_Some' _ _ _ _ Hv).
      apply setC_insert; [lia|]. by apply lookup_lt_Some in Hcur. }
    rewrite (imap_zip_with_gen subtractBin)
      by (rewrite length_spectrum_of, Hln by done; lia).
    set (sub := zip_with subtractBin (spectrum_of xs ws fi) noise).
    set (h3 := <[length hc + 2 := CArr sub]> (hc ++ ext)).
    assert (Hl3 : length h3 = length hc + 3) by (unfold h3; by rewrite length_insert).
    destruct (IFFT_run h3 (length hc + 2) sub 11) as [Hif _].
    { unfold h3. apply list_lookup_insert_eq. lia. }
    { unfold sub. rewrite length_subtracted by done. apply FrameSize_pow2. }
    rewrite (bind_Ok _ _ _ _ _ Hif). fold (cleaned_of xs ws noise fi).
    set (h5 := h3 ++ [CArr (map cmplx_Conj sub); CArr (cleaned_of xs ws noise fi)]).
    assert (K35 : ∀ a, a < length hc → h5 !! a = hc !! a).
    { intros a Ha. unfold h5. rewrite lookup_app_l by lia.
      unfold h3. rewrite list_lookup_insert_ne by lia. by rewrite lookup_app_l. }
    eexists tt, _. split.
    + apply (overlapAdd_run h5 o wsum (S (length h3)) w
               (fst (subtract_frames xs ws noise n fi))
               (snd (subtract_frames xs ws noise n fi))
               (cleaned_of xs ws noise fi) ws n).
      * by rewrite K35.
      * by rewrite K35.
      * unfold h5. rewrite lookup_app_r by lia.
        by replace (S (length h3) - length h3) with 1 by lia.
      * by rewrite K35.
      * done.
      * done.
      * done.
      * apply length_subtract_frames.
      * apply length_subtract_frames.
      * by apply length_cleaned_of.
      * done.
    + rewrite <- (surjective_pairing (subtract_frames xs ws noise n fi)).
      rewrite <- subtract_frames_S.
      assert (L5 : length h5 = length hc + 5).
      { unfold h5. rewrite length_app, Hl3. simpl. lia. }
      split; [|split].
      * eapply kept_trans; [done|]. split.
        { rewrite !length_insert. lia. }
        intros a Ha [Ha1 [Ha2 _]%not_elem_of_cons]%not_elem_of_cons.
        rewrite !list_lookup_insert_ne by done. by apply K35.
      * rewrite list_lookup_insert_ne by done. apply list_lookup_insert_eq. lia.
      * apply list_lookup_insert_eq. rewrite length_insert. lia.
  - exists h1. by rewrite Hr.
Qed.

Lemma divideByWindowSum_run h o wsum out sums n :
  h !! o = Some (FArr out) → h !! wsum = Some (FArr sums) → o ≠ wsum →
  length out = n → length sums = n →
  divideByWindowSum (Some o) (Some wsum) n h = Ok tt (<[o := FArr (divided out sums)]> h).
Proof.
  intros Ho Hs Hne Hlo Hls. pose proof (lookup_lt_Some _ _ _ Ho) as Holt.
  unfold divideByWindowSum, divided.
  rewrite <- (imap_zip_with_gen (λ o w, if (flit 1e-8 <? w)%fl then (o / w)%fl else o) _ _ f0)
    by lia.
  eapply for_updateF_run; [done..|].
  intros i x cur Hx Hc Hlc.
  destruct (lookup_lt_is_Some_2 sums i) as [v Hv].
  { apply lookup_lt_Some in Hx. lia. }
  erewrite bind_Ok; [|eapply (getF_insert_ne _ _ _ _ sums); [by apply not_eq_sym|done|done]].
  rewrite (nth_lookup_Some' _ _ _ _ Hv).
  destruct (flit 1e-8 <? v)%fl.
  - erewrite bind_Ok; [|by apply getF_insert].
    apply setF_insert; [done|]. by apply lookup_lt_Some in Hc.
  - unfold ret. by rewrite (list_insert_id cur).
Qed.

End PipelineRun3.

Lemma FrameSize_gt1 : (FrameSize <=? 1) = false.
Proof. reflexivity. Qed.

Lemma FrameSize_pos : 0 < FrameSize.
Proof. rewrite FrameSize_pow2. apply Nat.neq_0_lt_0, Nat.pow_nonzero. lia. Qed.

Section DenoiseRun.
Context {F : Type} `{Float64 F}.
Implicit Types (h : heap F) (l : nat) (xs ws : list F).

Local Opaque FrameSize HopSize.

Lemma length_hannValues n : 1 < n → length (hannValues n) = n.
Proof.
  intros Hn. unfold hannValues. destruct (Nat.leb_spec n 1); [lia|].
  by rewrite length_map, length_seq.
Qed.

Lemma length_hann_FrameSize : length (hannValues (F := F) FrameSize) = FrameSize.
Proof.
  unfold hannValues. rewrite FrameSize_gt1. by rewrite length_map, length_seq.
Qed.

Lemma length_padded xs :
  length (padded xs) = if length xs <? FrameSize then FrameSize else length xs.
Proof.
  unfold padded. destruct (Nat.ltb_spec (length xs) FrameSize); [|done].
  unfold overwrite. rewrite length_app, length_take, length_drop, !length_replicate. lia.
Qed.

Lemma length_padded_ge xs : FrameSize ≤ length (padded xs).
Proof. rewrite length_padded. destruct (Nat.ltb_spec (length xs) FrameSize); lia. Qed.

Lemma frame_count_eq n : frame_count n = (n - FrameSize) / HopSize + 1.
Proof.
  unfold frame_count. destruct (Nat.ltb_spec ((n - FrameSize) / HopSize + 1) 1); [lia|done].
Qed.

Lemma frame_in_range n fi :
  FrameSize ≤ n → fi < frame_count n → fi * HopSize + FrameSize ≤ n.
Proof.
  intros Hn Hfi. rewrite frame_count_eq in Hfi.
  pose proof (Nat.Div0.mul_div_le (n - FrameSize) HopSize) as Hd.
  assert (fi * HopSize ≤ HopSize * ((n - FrameSize) / HopSize)) by nia. lia.
Qed.

Lemma noise_count_le tf : noise_count tf ≤ tf.
Proof. unfold noise_count. destruct (Nat.ltb_spec tf NoiseFrames); lia. Qed.

Lemma length_divided (out wsum : list F) :
  length wsum = length out → length (divided out wsum) = length out.
Proof. intros E. unfold divided. rewrite length_zip_with. lia. Qed.

Lemma length_normalizeValues xs t : length (normalizeValues xs t) = length xs.
Proof.
  unfold normalizeValues. destruct (peakOf xs <? flit 1e-10)%fl; [done|].
  by rewrite length_map.
Qed.

Lemma length_denoise_list xs : length (denoise_list xs) = length (padded xs).
Proof.
  unfold denoise_list. rewrite length_normalizeValues.
  destruct (length_subtract_frames (padded xs) (hannValues FrameSize)
    (noise_profile (padded xs) (hannValues FrameSize)
       (noise_count (frame_count (length (padded xs)))))
    (length (padded xs)) (frame_count (length (padded xs)))) as [E1 E2].
  rewrite length_divided; [done|]. by rewrite E1, E2.
Qed.

Lemma length_noise_profile xs ws nf :
  length ws = FrameSize → length (noise_profile xs ws nf) = FrameSize.
Proof. intros Hw. unfold noise_profile. by rewrite length_map, length_noise_sum. Qed.

(** Everything [Denoise] does once the samples are at least one frame long. *)
Lemma Denoise_frames_run h s xs :
  h !! s = Some (FArr xs) → FrameSize ≤ length xs →
  let n := length xs in
  let ws := hannValues FrameSize in
  let noise := noise_profile xs ws (noise_count (frame_count n)) in
  let acc := subtract_frames xs ws noise n (frame_count n) in
  ∃ h' r,
    bind (HannWindow FrameSize)
      (λ window, bind (makeF FrameSize)
        (λ noiseMag,
           bind (estimateNoise (Some s) window noiseMag
                   (if frame_count n <? NoiseFrames then frame_count n else NoiseFrames))
             (λ _, bind (makeF n)
               (λ output, bind (makeF n)
                 (λ windowSum,
                    bind (subtractFrames (Some s) window noiseMag output windowSum n
                            (frame_count n))
                      (λ _, bind (divideByWindowSum output windowSum n)
                        (λ _, bind (normalize output (flit 0.95))
                          (λ _, ret output)))))))) h
    = Ok (Some r) h'
    ∧ kept [] h h'
    ∧ length h ≤ r
    ∧ h' !! r = Some (FArr (normalizeValues (divided (fst acc) (snd acc)) (flit 0.95)))
    ∧ h' !! S r = Some (FArr (snd acc)).
Proof.
  intros Hs Hn n ws noise acc.
  pose proof (lookup_lt_Some _ _ _ Hs) as Hslt.
  assert (Hlw : length ws = FrameSize) by apply length_hann_FrameSize.
  rewrite (bind_Ok _ _ _ _ _ (HannWindow_run h FrameSize)). fold ws.
  set (h1 := h ++ [FArr ws]).
  unfold makeF at 1.
  rewrite (bind_Ok _ _ _ (Some (length h1)) (h1 ++ [FArr (replicate FrameSize f0)])) by done.
  set (h2 := h1 ++ [FArr (replicate FrameSize f0)]).
  assert (L1 : length h1 = length h + 1) by (unfold h1; rewrite length_app; simpl; lia).
  assert (L2 : length h2 = length h + 2) by (unfold h2; rewrite length_app, L1; simpl; lia).
  assert (H2s : h2 !! s = Some (FArr xs)).
  { unfold h2, h1. by rewrite !lookup_app_l by (rewrite ?length_app; simpl; lia). }
  assert (H2w : h2 !! length h = Some (FArr ws)).
  { unfold h2. rewrite lookup_app_l by lia. apply lookup_alloc_new. }
  assert (H2n : h2 !! length h1 = Some (FArr (replicate FrameSize f0)))
    by apply lookup_alloc_new.
  destruct (estimateNoise_run h2 s (length h) (length h1) xs ws
              (noise_count (frame_count n)) H2s H2w H2n) as (h3 & Hr3 & K3 & H3n);
    [lia|lia|done| |].
  { intros fi Hfi. pose proof (noise_count_le (frame_count n)).
    pose proof (frame_in_range n fi Hn ltac:(lia)). unfold n in *. lia. }
  unfold noise_count in Hr3 at 1. rewrite (bind_Ok _ _ _ _ _ Hr3).
  fold noise in H3n.
  destruct K3 as [L3 K3].
  unfold makeF at 1.
  rewrite (bind_Ok _ _ _ (Some (length h3)) (h3 ++ [FArr (replicate n f0)])) by done.
  set (h4 := h3 ++ [FArr (replicate n f0)]).
  unfold makeF at 1.
  rewrite (bind_Ok _ _ _ (Some (length h4)) (h4 ++ [FArr (replicate n f0)])) by done.
  set (h5 := h4 ++ [FArr (replicate n f0)]).
  assert (L4 : length h4 = length h3 + 1) by (unfold h4; rewrite length_app; simpl; lia).
  assert (L5 : length h5 = length h3 + 2) by (unfold h5; rewrite length_app, L4; simpl; lia).
  assert (K5 : ∀ a, a < length h3 → h5 !! a = h3 !! a).
  { intros a Ha. unfold h5, h4. by rewrite !lookup_app_l by (rewrite ?length_app; simpl; lia). }
  assert (H5s : h5 !! s = Some (FArr xs)).
  { rewrite K5 by lia. rewrite K3; [done|lia|solve_elem]. }
  assert (H5w : h5 !! length h = Some (FArr ws)).
  { rewrite K5 by lia. rewrite K3; [done|lia|solve_elem]. }
  assert (H5n : h5 !! length h1 = Some (FArr noise)).
  { rewrite K5 by lia. done. }
  assert (H5o : h5 !! length h3 = Some (FArr (replicate n f0))).
  { unfold h5. rewrite lookup_app_l by lia. apply lookup_alloc_new. }
  assert (H5ws : h5 !! length h4 = Some (FArr (replicate n f0)))
    by apply lookup_alloc_new.
  destruct (subtractFrames_run h5 s (length h) (length h1) (length h3) (length h4)
              xs ws noise n (frame_count n) H5s H5w H5n H5o H5ws)
    as (h6 & Hr6 & K6 & H6o & H6ws); try lia; try done.
  { by apply length_noise_profile. }
  { intros fi Hfi. pose proof (frame_in_range n fi Hn Hfi). unfold n in *. lia. }
  rewrite (bind_Ok _ _ _ _ _ Hr6). fold acc in H6o, H6ws.
  destruct (length_subtract_frames xs ws noise n (frame_count n)) as [La Lb].
  fold acc in La, Lb.
  erewrite bind_Ok; cycle 1.
  { apply (divideByWindowSum_run h6 (length h3) (length h4) acc.1 acc.2 n); [done|done|lia|done|done]. }
  erewrite bind_Ok; cycle 1.
  { apply normalize_run. apply list_lookup_insert_eq. by eapply lookup_lt_Some. }
  rewrite list_insert_insert_eq.
  destruct K6 as [L6 K6].
  eexists _, _. split; [reflexivity|]. split; [|split; [|split]].
  - split; [rewrite length_insert; lia|].
    intros a Ha _. rewrite list_lookup_insert_ne by lia.
    rewrite K6; [|lia|solve_elem]. rewrite K5 by lia.
    rewrite K3; [|lia|solve_elem].
    unfold h2, h1. by rewrite !lookup_app_l by (rewrite ?length_app; simpl; lia).
  - lia.
  - apply list_lookup_insert_eq. by eapply lookup_lt_Some.
  - rewrite list_lookup_insert_ne by lia. by replace (S (length h3)) with (length h4) by lia.
Qed.

Lemma Denoise_run h l xs sampleRate :
  h !! l = Some (FArr xs) → xs ≠ [] →
  ∃ h' r,
    Denoise (Some l) sampleRate h = Ok (Some r) h'
    ∧ kept [] h h'
    ∧ length h ≤ r
    ∧ h' !! r = Some (FArr (denoise_list xs))
    ∧ h' !! S r = Some (FArr (windowSum_list xs)).
Proof.
  intros Hl Hne. pose proof (lookup_lt_Some _ _ _ Hl) as Hlt.
  unfold Denoise. rewrite (bind_Ok _ _ _ _ _ (lenF_Ok _ _ _ Hl)).
  destruct (Nat.eqb_spec (length xs) 0) as [E|_].
  { by apply length_zero_iff_nil in E. }
  unfold denoise_list, windowSum_list, padded.
  destruct (Nat.ltb_spec (length xs) FrameSize) as [Hshort|Hlong].
  - cbv iota. erewrite bind_Ok; cycle 1.
    { unfold makeF.
      rewrite (bind_Ok _ _ _ (Some (length h)) (h ++ [FArr (replicate FrameSize f0)])) by done.
      erewrite bind_Ok; [|apply loadF_Ok; by rewrite lookup_alloc_old].
      erewrite bind_Ok; [|apply copyF_Ok, lookup_alloc_new].
      rewrite insert_alloc_new. reflexivity. }
    cbn [fst snd].
    set (xs' := overwrite (replicate FrameSize f0) xs).
    assert (Lx : length xs' = FrameSize).
    { unfold xs', overwrite.
      rewrite length_app, length_take, length_drop, !length_replicate. lia. }
    destruct (Denoise_frames_run (h ++ [FArr xs']) (length h) xs' (lookup_alloc_new _ _))
      as (h' & r & Hr & K & Hfresh & Hres & Hsum); [lia|].
    rewrite Lx in Hr, Hres, Hsum. rewrite Lx.
    exists h', r. split; [done|]. split; [|split; [|done]].
    + eapply kept_trans; [apply kept_app|done].
    + rewrite length_app in Hfresh. lia.
  - cbv iota. rewrite (bind_Ok _ _ _ (Some l, length xs) h) by done. cbn [fst snd].
    destruct (Denoise_frames_run h l xs Hl Hlong)
      as (h' & r & Hr & K & Hfresh & Hres & Hsum).
    by exists h', r.
Qed.

Lemma Denoise_empty h l sampleRate :
  h !! l = Some (FArr []) → Denoise (Some l) sampleRate h = Ok None h.
Proof.
  intros Hl. unfold Denoise. by rewrite (bind_Ok _ _ _ _ _ (lenF_Ok _ _ _ Hl)).
Qed.

Lemma Denoise_nil h sampleRate : Denoise None sampleRate h = Ok None h.
Proof. done. Qed.

End DenoiseRun.

(** * The claims that hold for every arithmetic *)

Section Structure.
Context {F : Type} `{Float64 F}.
Implicit Types (h : heap F) (s : slice) (xs : list F) (zs : list (complex128 F)).

Lemma IFFT_nil h : IFFT None h = Ok None h.
Proof. done. Qed.

Lemma IFFT_empty h l : h !! l = Some (CArr []) → IFFT (Some l) h = Ok None h.
Proof.
  intros Hl. unfold IFFT. by rewrite (bind_Ok _ _ _ _ _ (lenC_Ok _ _ _ Hl)).
Qed.

Lemma extractFrame_nil h size :
  extractFrame None 0 size h = Ok (Some (length h)) (h ++ [FArr (frameValues [] 0 size)]).
Proof.
  unfold extractFrame, makeF.
  rewrite (bind_Ok _ _ _ (Some (length h)) (h ++ [FArr (replicate size f0)])) by done.
  rewrite (bind_Ok _ _ _ 0 (h ++ [FArr (replicate size f0)])) by done.
  replace (if 0 <? 0 + size then 0 else 0 + size) with 0
    by (destruct (Nat.ltb_spec 0 (0 + size)); lia).
  rewrite (bind_Ok _ _ _ [] (h ++ [FArr (replicate size f0)])) by done.
  rewrite (bind_Ok _ _ _ _ _ (copyF_Ok _ _ _ _ (lookup_alloc_new _ _))).
  unfold ret. rewrite insert_alloc_new. do 4 f_equal.
  unfold overwrite, frameValues. simpl. by rewrite take_nil, resize_nil.
Qed.

Lemma extractFrame_holds h s xs start size :
  holdsF h s xs → start ≤ length xs →
  extractFrame s start size h
  = Ok (Some (length h)) (h ++ [FArr (frameValues xs start size)]).
Proof.
  destruct s as [l|]; simpl.
  - apply extractFrame_run.
  - intros -> Hs. simpl in Hs. replace start with 0 by lia. apply extractFrame_nil.
Qed.

Lemma lookup_frameValues_copied xs start size i :
  i < Nat.min (start + size) (length xs) - start →
  frameValues xs start size !! i = xs !! (start + i).
Proof.
  intros Hi. unfold frameValues.
  rewrite lookup_resize by (rewrite ?length_drop; lia). apply lookup_drop.
Qed.

Lemma lookup_frameValues_zero xs start size i :
  Nat.min (start + size) (length xs) - start ≤ i → i < size →
  frameValues xs start size !! i = Some f0.
Proof.
  intros Hi Hs. unfold frameValues.
  destruct (decide (i < length (drop start xs))) as [Hlt|Hge].
  - rewrite length_drop in Hlt. lia.
  - apply lookup_resize_new; lia.
Qed.

End Structure.

Section StructureClaims.
Context {F : Type} `{Float64 F}.
Implicit Types (h : heap F) (s : slice) (xs : list F) (zs : list (complex128 F)).

Lemma kept_nil_lookup h h' a (c : cell F) :
  kept [] h h' → h !! a = Some c → h' !! a = Some c.
Proof. intros K Ha. eapply kept_lookup; [done..|apply not_elem_of_nil]. Qed.

Lemma kept_holdsF h h' s xs : kept [] h h' → holdsF h s xs → holdsF h' s xs.
Proof. destruct s; simpl; [|done]. apply kept_nil_lookup. Qed.

Lemma kept_holdsC h h' s zs : kept [] h h' → holdsC h s zs → holdsC h' s zs.
Proof. destruct s; simpl; [|done]. apply kept_nil_lookup. Qed.

(** What [Denoise] does on any input: it returns, keeps every array of the
    heap, and the returned slice is nil (empty input) or a fresh array that
    holds [denoise_list]. *)
Lemma Denoise_holds h s xs sampleRate :
  holdsF h s xs →
  ∃ r h', Denoise s sampleRate h = Ok r h' ∧ kept [] h h'
          ∧ resultF (Ok r h') = Some (if decide (xs = []) then [] else denoise_list xs).
Proof.
  intros Hs. destruct (decide (xs = [])) as [->|Hne].
  - exists None, h. split; [|split; [apply kept_refl|done]].
    destruct s as [l|]; [by apply Denoise_empty|apply Denoise_nil].
  - destruct s as [l|]; [|done].
    destruct (Denoise_run h l xs sampleRate Hs Hne) as (h' & r & Hr & K & _ & Hres & _).
    exists (Some r), h'. split; [done|]. split; [done|]. simpl. by rewrite Hres.
Qed.

(** C2. For every input of length N >= FrameSize, [Denoise] returns a sequence
    of length N; for 0 < N < FrameSize, one of length FrameSize; for N = 0, the
    empty sequence. *)
Theorem Denoise_length h s xs sampleRate :
  holdsF h s xs →
  ∃ ys, resultF (Denoise s sampleRate h) = Some ys
        ∧ (FrameSize ≤ length xs → length ys = length xs)
        ∧ (0 < length xs < FrameSize → length ys = FrameSize)
        ∧ (length xs = 0 → ys = []).
Proof.
  intros Hs. destruct (Denoise_holds h s xs sampleRate Hs) as (r & h' & -> & _ & Hres).
  eexists. split; [done|].
  destruct (decide (xs = [])) as [->|Hne].
  - simpl. repeat split; intros; try done; lia.
  - assert (length xs ≠ 0) by (by intros ?%length_zero_iff_nil).
    rewrite length_denoise_list, length_padded.
    repeat split; intros; try lia.
    + destruct (Nat.ltb_spec (length xs) FrameSize); lia.
    + destruct (Nat.ltb_spec (length xs) FrameSize); lia.
Qed.

(** C9. The sample rate does not influence the computation: for all sample
    rates the call gives the same outcome (result and heap). *)
Theorem Denoise_sampleRate_irrelevant h s (r1 r2 : Z) :
  Denoise s r1 h = Denoise s r2 h.
Proof. reflexivity. Qed.

(** C3, as amended.  [FFT] fails with InvalidLength exactly when the length of
    its input is not zero and not a power of two; on an empty input it returns
    the nil slice, without failing; on an input whose length is a power of two
    it does not fail and returns as many elements. *)
Theorem FFT_failure h s zs :
  holdsC h s zs →
  (FFT s h = Panic InvalidLength ↔ length zs ≠ 0 ∧ ¬ ∃ L, length zs = 2 ^ L)
  ∧ (length zs = 0 → FFT s h = Ok None h)
  ∧ ((∃ L, length zs = 2 ^ L) →
       ∃ ys, resultC (FFT s h) = Some ys ∧ length ys = length zs).
Proof.
  intros Hs.
  assert (E0 : length zs = 0 → FFT s h = Ok None h).
  { intros ->%length_zero_iff_nil. destruct s; [by apply FFT_empty|apply FFT_nil]. }
  assert (E2 : (∃ L, length zs = 2 ^ L) →
               ∃ ys, resultC (FFT s h) = Some ys ∧ length ys = length zs).
  { intros [L HL]. destruct s as [l|].
    - destruct (FFT_run h l zs L Hs HL) as [-> Hlen].
      exists (fft_list zs). split; [|done]. simpl. by rewrite lookup_alloc_new.
    - simpl in Hs. subst zs. simpl in HL.
      assert (2 ^ L ≠ 0) by (apply Nat.pow_nonzero; lia). lia. }
  split; [|by split].
  split.
  - intros Hp. split.
    + intros E. by rewrite (E0 E) in Hp.
    + intros HL. destruct (E2 HL) as (ys & Hr & _). by rewrite Hp in Hr.
  - intros [Hn Hnp]. destruct s as [l|].
    + apply (FFT_panic h l zs Hs Hn).
      destruct (isPowerOf2 (length zs)) eqn:E; [|done].
      exfalso. apply Hnp. by apply isPowerOf2_spec.
    + simpl in Hs. by subst zs.
Qed.

(** C7, as amended.  For every start within the source, 0 <= start <= len(src),
    and every size, [extractFrame] returns a buffer of length [size] whose first
    min(start+size, len(src)) - start elements are those of [src] from [start]
    on, and whose other elements are zero. *)
Theorem extractFrame_spec h s src start size :
  holdsF h s src → start ≤ length src →
  ∃ fr, resultF (extractFrame s start size h) = Some fr
        ∧ length fr = size
        ∧ (∀ i, i < Nat.min (start + size) (length src) - start →
                fr !! i = src !! (start + i))
        ∧ (∀ i, Nat.min (start + size) (length src) - start ≤ i → i < size →
                fr !! i = Some f0).
Proof.
  intros Hs Hstart. rewrite (extractFrame_holds h s src start size Hs Hstart).
  exists (frameValues src start size). split; [|split; [|split]].
  - simpl. by rewrite lookup_alloc_new.
  - apply length_frameValues.
  - apply lookup_frameValues_copied.
  - apply lookup_frameValues_zero.
Qed.

(** C8. [FFT], [IFFT] and [Denoise] do not mutate their input: on every valid
    input the call returns, and afterwards the input slice, and every other
    array of the heap, holds the values it held before. *)
Theorem no_input_mutation :
  (∀ h s zs, holdsC h s zs → (zs = [] ∨ ∃ L, length zs = 2 ^ L) →
     ∃ r h', FFT s h = Ok r h' ∧ holdsC h' s zs ∧ kept [] h h')
  ∧ (∀ h s zs, holdsC h s zs → (zs = [] ∨ ∃ L, length zs = 2 ^ L) →
     ∃ r h', IFFT s h = Ok r h' ∧ holdsC h' s zs ∧ kept [] h h')
  ∧ (∀ h s xs sampleRate, holdsF h s xs →
     ∃ r h', Denoise s sampleRate h = Ok r h' ∧ holdsF h' s xs ∧ kept [] h h').
Proof.
  split; [|split].
  - intros h s zs Hs [->|[L HL]].
    + exists None, h. split; [|split; [done|apply kept_refl]].
      destruct s; [by apply FFT_empty|apply FFT_nil].
    + destruct s as [l|].
      * destruct (FFT_run h l zs L Hs HL) as [Hr _].
        eexists _, _. split; [done|].
        split; [|apply kept_app]. eapply kept_holdsC; [apply kept_app|done].
      * exists None, h. split; [done|]. split; [done|apply kept_refl].
  - intros h s zs Hs [->|[L HL]].
    + exists None, h. split; [|split; [done|apply kept_refl]].
      destruct s; [by apply IFFT_empty|apply IFFT_nil].
    + destruct s as [l|].
      * destruct (IFFT_run h l zs L Hs HL) as [Hr _].
        eexists _, _. split; [done|].
        split; [|apply kept_app]. eapply kept_holdsC; [apply kept_app|done].
      * exists None, h. split; [done|]. split; [done|apply kept_refl].
  - intros h s xs sampleRate Hs.
    destruct (Denoise_holds h s xs sampleRate Hs) as (r & h' & Hr & K & _).
    exists r, h'. split; [done|]. split; [|done]. by eapply kept_holdsF.
Qed.

End StructureClaims.

(** Concrete inputs, in exact arithmetic. *)

Lemma Denoise_length_witness :
  holdsF [FArr [1%R]] (Some 0) [1%R]
  ∧ ∃ ys, resultF (Denoise (Some 0) 44100 [FArr [1%R]]) = Some ys
          ∧ (FrameSize ≤ length [1%R] → length ys = length [1%R])
          ∧ (0 < length [1%R] < FrameSize → length ys = FrameSize)
          ∧ (length [1%R] = 0 → ys = []).
Proof.
  split; [reflexivity|]. apply (Denoise_length [FArr [1%R]] (Some 0) [1%R] 44100).
  reflexivity.
Defined.

(** C3: on the empty input the claim says [FFT] fails with InvalidLength; it
    returns the nil slice. *)
Lemma FFT_empty_counterexample :
  ¬ (FFT (Some 0) [CArr (F := R) []] = Panic InvalidLength
     ↔ (length (A := complex128 R) [] = 0 ∨ ¬ ∃ L, length (A := complex128 R) [] = 2 ^ L)).
Proof.
  intros [_ Hc]. specialize (Hc (or_introl eq_refl)).
  rewrite FFT_empty in Hc by reflexivity. discriminate.
Qed.

Lemma FFT_failure_witness :
  holdsC [CArr [Cx 1%R 0%R; Cx 2%R 0%R; Cx 3%R 0%R]] (Some 0)
         [Cx 1%R 0%R; Cx 2%R 0%R; Cx 3%R 0%R]
  ∧ FFT (Some 0) [CArr [Cx 1%R 0%R; Cx 2%R 0%R; Cx 3%R 0%R]] = Panic InvalidLength.
Proof.
  split; [reflexivity|].
  apply (FFT_failure [CArr [Cx 1%R 0%R; Cx 2%R 0%R; Cx 3%R 0%R]] (Some 0)
           [Cx 1%R 0%R; Cx 2%R 0%R; Cx 3%R 0%R] eq_refl).
  split; [simpl; lia|]. intros [L HL]. simpl in HL.
  destruct L as [|[|[|L]]]; simpl in HL; lia.
Defined.

(** C7: a start past the end of the source makes the slice expression panic. *)
Lemma extractFrame_counterexample :
  extractFrame (Some 0) 1 1 [FArr (F := R) []] = Panic SliceBounds
  ∧ ¬ ∃ fr, resultF (extractFrame (Some 0) 1 1 [FArr (F := R) []]) = Some fr.
Proof.
  assert (E : extractFrame (Some 0) 1 1 [FArr (F := R) []] = Panic SliceBounds).
  { apply (extractFrame_panic _ _ []); [reflexivity|simpl; lia]. }
  split; [done|]. rewrite E. by intros [fr Hfr].
Qed.

Lemma extractFrame_spec_witness :
  holdsF [FArr [1%R; 2%R; 3%R]] (Some 0) [1%R; 2%R; 3%R] ∧ 2 ≤ length [1%R; 2%R; 3%R]
  ∧ ∃ fr, resultF (extractFrame (Some 0) 2 4 [FArr [1%R; 2%R; 3%R]]) = Some fr
        ∧ length fr = 4
        ∧ (∀ i, i < Nat.min (2 + 4) (length [1%R; 2%R; 3%R]) - 2 →
                fr !! i = [1%R; 2%R; 3%R] !! (2 + i))
        ∧ (∀ i, Nat.min (2 + 4) (length [1%R; 2%R; 3%R]) - 2 ≤ i → i < 4 →
                fr !! i = Some f0).
Proof.
  split; [reflexivity|]. split; [simpl; lia|].
  apply (extractFrame_spec [FArr [1%R; 2%R; 3%R]] (Some 0) [1%R; 2%R; 3%R] 2 4);
    [reflexivity|simpl; lia].
Defined.

Lemma no_input_mutation_witness :
  (∃ r h', FFT (Some 0) [CArr [Cx 1%R 0%R; Cx 2%R 0%R]] = Ok r h'
           ∧ holdsC h' (Some 0) [Cx 1%R 0%R; Cx 2%R 0%R]
           ∧ kept [] [CArr [Cx 1%R 0%R; Cx 2%R 0%R]] h')
  ∧ (∃ r h', IFFT (Some 0) [CArr [Cx 1%R 0%R; Cx 2%R 0%R]] = Ok r h'
           ∧ holdsC h' (Some 0) [Cx 1%R 0%R; Cx 2%R 0%R]
           ∧ kept [] [CArr [Cx 1%R 0%R; Cx 2%R 0%R]] h')
  ∧ (∃ r h', Denoise (Some 0) 8000 [FArr [1%R]] = Ok r h'
           ∧ holdsF h' (Some 0) [1%R] ∧ kept [] [FArr [1%R]] h').
Proof.
  destruct (no_input_mutation (F := R)) as (HF & HI & HD).
  split; [|split].
  - apply HF; [reflexivity|]. right. by exists 1.
  - apply HI; [reflexivity|]. right. by exists 1.
  - apply HD. reflexivity.
Defined.

(** * Exact arithmetic: the claims about values *)

Ltac r_lit :=
  repeat match goal with
  | |- context [Q2R ?q] =>
      let n := eval vm_compute in (Qnum q) in
      let d := eval vm_compute in (Qden q) in
      change (Q2R q) with (IZR n * / IZR (Zpos d))%R
  | H : context [Q2R ?q] |- _ =>
      let n := eval vm_compute in (Qnum q) in
      let d := eval vm_compute in (Qden q) in
      change (Q2R q) with (IZR n * / IZR (Zpos d))%R in H
  end.

Ltac r_ops :=
  cbn [fadd fsub fmul fdiv fneg fabs fofZ flit fpi m_cos m_sin m_exp m_hypot
       R_Float64 f0 c0 c1 re im] in *.

Section RealPeak.
Local Open Scope R_scope.
Implicit Types (xs : list R) (h : heap R).

Lemma R_fltb_true (a b : R) : fltb a b = true ↔ a < b.
Proof. cbn. destruct (Rlt_dec a b); split; intros; try done; lra. Qed.

Lemma R_fltb_false (a b : R) : fltb a b = false ↔ b <= a.
Proof. cbn. destruct (Rlt_dec a b); split; intros; try done; lra. Qed.

(** The loop of [normalize] that looks for the peak computes a maximum. *)
Definition peak_from (a : R) xs : R :=
  fold_left (λ peak s, if fltb peak (fabs s) then fabs s else peak) xs a.

Lemma peakOf_peak_from xs : peakOf xs = peak_from 0 xs.
Proof. done. Qed.

Lemma peak_from_cons a x xs :
  peak_from a (x :: xs) = peak_from (if Rlt_dec a (Rabs x) then Rabs x else a) xs.
Proof. unfold peak_from. simpl. by destruct (Rlt_dec a (Rabs x)). Qed.

Lemma peak_from_ge_start a xs : a <= peak_from a xs.
Proof.
  revert a. induction xs as [|x xs IH]; intros a; [unfold peak_from; simpl; lra|].
  rewrite peak_from_cons. destruct (Rlt_dec a (Rabs x)).
  - specialize (IH (Rabs x)). lra.
  - apply IH.
Qed.

Lemma peak_from_ge a xs x : x ∈ xs → Rabs x <= peak_from a xs.
Proof.
  revert a. induction xs as [|y xs IH]; intros a Hx; [by apply elem_of_nil in Hx|].
  rewrite peak_from_cons. apply elem_of_cons in Hx as [->|Hx]; [|by apply IH].
  destruct (Rlt_dec a (Rabs y)).
  - apply peak_from_ge_start.
  - pose proof (peak_from_ge_start a xs). lra.
Qed.

Lemma peak_from_attained a xs :
  peak_from a xs = a ∨ ∃ x, x ∈ xs ∧ peak_from a xs = Rabs x.
Proof.
  revert a. induction xs as [|y xs IH]; intros a; [by left|].
  rewrite peak_from_cons. destruct (Rlt_dec a (Rabs y)).
  - destruct (IH (Rabs y)) as [E|(x & Hx & E)].
    + right. exists y. split; [apply list_elem_of_here|done].
    + right. exists x. split; [by apply list_elem_of_further|done].
  - destruct (IH a) as [E|(x & Hx & E)]; [by left|].
    right. exists x. split; [by apply list_elem_of_further|done].
Qed.

Lemma peakOf_nonneg xs : 0 <= peakOf xs.
Proof. rewrite peakOf_peak_from. apply peak_from_ge_start. Qed.

Lemma peakOf_ge xs x : x ∈ xs → Rabs x <= peakOf xs.
Proof. rewrite peakOf_peak_from. apply peak_from_ge. Qed.

Lemma peakOf_attained xs : xs ≠ [] → ∃ x, x ∈ xs ∧ peakOf xs = Rabs x.
Proof.
  intros Hne. rewrite peakOf_peak_from.
  destruct (peak_from_attained 0 xs) as [E|?]; [|done].
  destruct xs as [|y xs]; [done|].
  assert (Hy : Rabs y <= 0).
  { rewrite <- E. apply peak_from_ge, list_elem_of_here. }
  exists y. split; [apply list_elem_of_here|].
  pose proof (Rabs_pos y). lra.
Qed.

Lemma peak_from_scale g a xs :
  0 <= g → peak_from (a * g) (map (λ s, s * g) xs) = peak_from a xs * g.
Proof.
  intros Hg. revert a. induction xs as [|x xs IH]; intros a; [done|].
  rewrite map_cons, !peak_from_cons.
  rewrite Rabs_mult, (Rabs_pos_eq g Hg).
  destruct (Rlt_dec a (Rabs x)) as [Hlt|Hge];
    destruct (Rlt_dec (a * g) (Rabs x * g)) as [Hlt'|Hge']; try apply IH.
  - assert (E : a * g = Rabs x * g) by nra. rewrite E. apply IH.
  - nra.
Qed.

Lemma peakOf_scale g xs : 0 <= g → peakOf (map (λ s, s * g) xs) = peakOf xs * g.
Proof.
  intros Hg. rewrite !peakOf_peak_from. rewrite <- peak_from_scale by done.
  by rewrite Rmult_0_l.
Qed.

Lemma normalizeValues_silent xs t :
  peakOf xs < flit 1e-10 → normalizeValues xs t = xs.
Proof.
  intros Hp. unfold normalizeValues.
  by rewrite (proj2 (R_fltb_true _ _) Hp).
Qed.

Lemma normalizeValues_scaled xs t :
  flit 1e-10 <= peakOf xs →
  normalizeValues xs t = map (λ s, s * (t / peakOf xs)) xs.
Proof.
  intros Hp. unfold normalizeValues.
  by rewrite (proj2 (R_fltb_false _ _) Hp).
Qed.

Lemma lit_1e10_pos : 0 < flit (F := R) 1e-10.
Proof. r_ops. r_lit. lra. Qed.

Lemma peakOf_normalized xs t :
  0 <= t → flit 1e-10 <= peakOf xs → peakOf (normalizeValues xs t) = t.
Proof.
  intros Ht Hp. pose proof lit_1e10_pos as Hpos.
  rewrite normalizeValues_scaled by done.
  rewrite peakOf_scale.
  - field. lra.
  - apply Rmult_le_pos; [done|]. left. apply Rinv_0_lt_compat. lra.
Qed.

Lemma normalizeValues_bound xs t y :
  0 <= t → flit 1e-10 <= t → y ∈ normalizeValues xs t → Rabs y <= t.
Proof.
  intros Ht Ht' Hy. pose proof lit_1e10_pos as Hpos.
  destruct (Rlt_dec (peakOf xs) (flit 1e-10)) as [Hs|Hs].
  - rewrite normalizeValues_silent in Hy by done.
    pose proof (peakOf_ge xs y Hy). lra.
  - assert (Hp : flit 1e-10 <= peakOf xs) by lra.
    rewrite <- (peakOf_normalized xs t Ht Hp). by apply peakOf_ge.
Qed.

End RealPeak.

Section RealSilence.
Implicit Types (xs ws : list R) (zs : list (complex128 R)).

Local Opaque FrameSize HopSize.

Lemma replicate_eq_of_all {A} (x : A) (l : list A) :
  (∀ y, y ∈ l → y = x) → l = replicate (length l) x.
Proof.
  induction l as [|a l IH]; intros Hall; [done|]. simpl. f_equal.
  - apply Hall, list_elem_of_here.
  - apply IH. intros y Hy. by apply Hall, list_elem_of_further.
Qed.

Lemma nth_replicate_same {A} (x : A) n i : nth i (replicate n x) x = x.
Proof.
  destruct (decide (i < n)) as [Hi|Hi].
  - apply nth_lookup_Some', lookup_replicate_2. lia.
  - apply nth_overflow. rewrite length_replicate. lia.
Qed.

Lemma Cx_eq (a b c d : R) : a = c → b = d → Cx a b = Cx c d.
Proof. by intros -> ->. Qed.

Lemma cmul_c0_r (w : complex128 R) : cmul w c0 = c0.
Proof. unfold cmul, c0. r_ops. apply Cx_eq; ring. Qed.

Lemma cadd_c0 : cadd (F := R) c0 c0 = c0.
Proof. unfold cadd, c0. r_ops. apply Cx_eq; ring. Qed.

Lemma csub_c0 : csub (F := R) c0 c0 = c0.
Proof. unfold csub, c0. r_ops. apply Cx_eq; ring. Qed.

Lemma conj_c0 : cmplx_Conj (F := R) c0 = c0.
Proof. unfold cmplx_Conj, c0. r_ops. apply Cx_eq; ring. Qed.

Lemma R_isNaN (x : R) : isNaN x = false.
Proof.
  unfold isNaN. cbn [fleb R_Float64]. destruct (Rle_dec x x) as [_|Hn]; [done|lra].
Qed.

(** Over the reals the quotient is the one of Smith's algorithm. *)
Lemma cdiv_R (n m : complex128 R) : cdiv n m = cdiv_smith n m.
Proof. unfold cdiv. cbv zeta. by rewrite R_isNaN. Qed.

Lemma cdiv_c0 (m : complex128 R) : cdiv c0 m = c0.
Proof.
  rewrite cdiv_R.
  unfold cdiv_smith, c0. destruct (fleb _ _); r_ops; apply Cx_eq; unfold Rdiv; ring.
Qed.

Lemma abs_c0 : cmplx_Abs (F := R) c0 = 0%R.
Proof.
  unfold cmplx_Abs, c0. r_ops. replace (0 * 0 + 0 * 0)%R with 0%R by ring. apply sqrt_0.
Qed.

Lemma subtractBin_c0 : subtractBin (F := R) c0 0%R = c0.
Proof.
  unfold subtractBin. rewrite abs_c0. unfold cmplx_Rect, c0. r_ops.
  destruct (fltb _ _); apply Cx_eq; ring.
Qed.

Lemma bitReverse_list_zero n :
  bitReverse_list (replicate n (c0 (F := R))) = replicate n c0.
Proof.
  unfold bitReverse_list. rewrite length_replicate.
  generalize (ilog2 n) as b. intros b. generalize (seq 0 n) as idx.
  induction idx as [|i idx IH]; [done|].
  rewrite fold_left_cons_eq. cbv zeta.
  destruct (i <? reverseBits i b); [|done].
  unfold swapped. by rewrite !nth_replicate_same, !insert_replicate.
Qed.

Lemma butterflies_list_zero m k wm n :
  butterflies_list m k wm (replicate n (c0 (F := R))) = replicate n c0.
Proof.
  unfold butterflies_list.
  assert (G : ∀ idx w, snd (fold_left (butterfly_step m k wm) idx (w, replicate n c0))
                       = replicate n (c0 (F := R))).
  { induction idx as [|j idx IH]; intros w; [done|].
    rewrite fold_left_cons_eq. unfold butterfly_step at 2. cbn [fst snd].
    rewrite !nth_replicate_same, cmul_c0_r, cadd_c0, csub_c0, !insert_replicate.
    apply IH. }
  apply G.
Qed.

Lemma stage_list_zero n' n s :
  stage_list n' (replicate n (c0 (F := R))) s = replicate n c0.
Proof.
  unfold stage_list. generalize (range_step 0 n' (2 ^ s)) as idx.
  induction idx as [|k idx IH]; [done|].
  by rewrite fold_left_cons_eq, butterflies_list_zero.
Qed.

Lemma fft_list_zero n : fft_list (replicate n (c0 (F := R))) = replicate n c0.
Proof.
  unfold fft_list. rewrite bitReverse_list_zero, length_replicate.
  generalize (seq 1 (ilog2 n)) as idx.
  induction idx as [|s idx IH]; [done|].
  by rewrite fold_left_cons_eq, stage_list_zero.
Qed.

Lemma map_replicate {A B} (g : A → B) n (x : A) :
  map g (replicate n x) = replicate n (g x).
Proof. induction n as [|n IH]; simpl; [done|]. by rewrite IH. Qed.

Lemma ifft_list_zero n : ifft_list (replicate n (c0 (F := R))) = replicate n c0.
Proof.
  unfold ifft_list. rewrite map_replicate, conj_c0, fft_list_zero, map_replicate.
  by rewrite conj_c0, cdiv_c0.
Qed.

Lemma frameValues_zero n start size :
  frameValues (replicate n 0%R) start size = replicate size 0%R.
Proof. unfold frameValues. r_ops. by rewrite drop_replicate, resize_replicate. Qed.

Lemma windowed_zero n ws :
  length ws = n → windowed (replicate n 0%R) ws = replicate n 0%R.
Proof.
  intros Hw. unfold windowed. rewrite zip_with_replicate_l by lia.
  rewrite <- Hw. rewrite (replicate_eq_of_all 0%R (_ <$> ws)).
  - by rewrite length_fmap.
  - intros y (w & -> & _)%list_elem_of_fmap. r_ops. ring.
Qed.

Lemma promoted_zero n : promoted (replicate n 0%R) = replicate n c0.
Proof. unfold promoted. by rewrite map_replicate. Qed.

Lemma spectrum_of_zero n ws fi :
  length ws = FrameSize → spectrum_of (replicate n 0%R) ws fi = replicate FrameSize c0.
Proof.
  intros Hw. unfold spectrum_of.
  by rewrite frameValues_zero, windowed_zero, promoted_zero, fft_list_zero.
Qed.

Lemma noise_sum_zero n ws nf :
  length ws = FrameSize → noise_sum (replicate n 0%R) ws nf = replicate FrameSize 0%R.
Proof.
  intros Hw. induction nf as [|nf IH]; [done|].
  rewrite noise_sum_S, IH, spectrum_of_zero, zip_with_replicate by done.
  f_equal. rewrite abs_c0. r_ops. ring.
Qed.

Lemma noise_profile_zero n ws nf :
  length ws = FrameSize → noise_profile (replicate n 0%R) ws nf = replicate FrameSize 0%R.
Proof.
  intros Hw. unfold noise_profile. rewrite noise_sum_zero, map_replicate by done.
  f_equal. r_ops. unfold Rdiv. ring.
Qed.

Lemma cleaned_of_zero n ws fi :
  length ws = FrameSize →
  cleaned_of (replicate n 0%R) ws (replicate FrameSize 0%R) fi = replicate FrameSize c0.
Proof.
  intros Hw. unfold cleaned_of.
  rewrite spectrum_of_zero, zip_with_replicate by done.
  change 0%R with (f0 (F := R)) at 1. r_ops.
  by rewrite subtractBin_c0, ifft_list_zero.
Qed.

Lemma overlap_fold_zero n m start ws idx (b : list R) :
  fst (fold_left (overlap_step n start (replicate m c0) ws) idx (replicate n 0%R, b))
  = replicate n 0%R.
Proof.
  revert b. induction idx as [|j idx IH]; intros b; [done|].
  rewrite fold_left_cons_eq. unfold overlap_step at 2. cbn [fst snd].
  destruct (start + j <? n); [|apply IH].
  change 0%R with (f0 (F := R)) at 1 2. rewrite !nth_replicate_same.
  r_ops.
  replace (0 + 0 * nth j ws 0)%R with 0%R by ring. rewrite insert_replicate. apply IH.
Qed.

Lemma overlap_add_zero n start ws (b : list R) :
  fst (overlap_add n start (replicate FrameSize c0) ws (replicate n 0%R, b)) = replicate n 0%R.
Proof. apply overlap_fold_zero. Qed.

Lemma subtract_frames_zero n ws tf :
  length ws = FrameSize →
  fst (subtract_frames (replicate n 0%R) ws (replicate FrameSize 0%R) n tf)
  = replicate n 0%R.
Proof.
  intros Hw. induction tf as [|tf IH]; [done|].
  rewrite subtract_frames_S, cleaned_of_zero by done.
  rewrite (surjective_pairing (subtract_frames _ _ _ _ _)), IH.
  apply overlap_add_zero.
Qed.

Lemma divided_zero n (b : list R) :
  length b = n → divided (replicate n 0%R) b = replicate n 0%R.
Proof.
  intros Hb. unfold divided. rewrite zip_with_replicate_l by lia.
  rewrite <- Hb. rewrite (replicate_eq_of_all 0%R (_ <$> b)).
  - by rewrite length_fmap.
  - intros y (w & -> & _)%list_elem_of_fmap.
    destruct (fltb _ _); [|done]. r_ops. unfold Rdiv. ring.
Qed.

Lemma peakOf_zero n : peakOf (replicate n 0%R) = 0%R.
Proof.
  induction n as [|n IH]; [done|].
  rewrite peakOf_peak_from in *. simpl replicate. rewrite peak_from_cons.
  rewrite Rabs_R0. destruct (Rlt_dec 0 0); [lra|done].
Qed.

Lemma normalizeValues_zero n t :
  normalizeValues (replicate n 0%R) t = replicate n 0%R.
Proof.
  apply normalizeValues_silent. rewrite peakOf_zero. apply lit_1e10_pos.
Qed.

Lemma padded_zero n :
  0 < n → padded (replicate n 0%R) = replicate (Nat.max n FrameSize) 0%R.
Proof.
  intros Hn. unfold padded. rewrite length_replicate.
  destruct (Nat.ltb_spec n FrameSize).
  - unfold overwrite. rewrite !length_replicate. r_ops.
    rewrite take_replicate, drop_replicate, <- replicate_add. f_equal. lia.
  - f_equal. lia.
Qed.

Lemma denoise_list_zero n :
  0 < n → denoise_list (replicate n 0%R) = replicate (Nat.max n FrameSize) 0%R.
Proof.
  intros Hn. unfold denoise_list. rewrite padded_zero by done.
  rewrite length_replicate.
  set (N := Nat.max n FrameSize).
  rewrite noise_profile_zero by apply length_hann_FrameSize.
  pose proof (length_subtract_frames (replicate N 0%R) (hannValues FrameSize)
                (replicate FrameSize 0%R) N (frame_count N)) as [_ Lb].
  rewrite subtract_frames_zero by apply length_hann_FrameSize.
  rewrite divided_zero by done. apply normalizeValues_zero.
Qed.

End RealSilence.






(** C4, as amended.  For every N >= 1, [Denoise] applied to the all-zero
    sequence of length N returns the all-zero sequence of length
    max(N, FrameSize): every output sample is exactly zero. *)
Theorem Denoise_silence (h : heap R) (s : slice) (N : nat) (sampleRate : Z) :
  1 ≤ N → holdsF h s (replicate N 0%R) →
  ∃ ys, resultF (Denoise s sampleRate h) = Some ys
        ∧ ys = replicate (Nat.max N FrameSize) 0%R
        ∧ length ys = Nat.max N FrameSize
        ∧ ∀ y, y ∈ ys → (Rabs (y - 0) <= 1 / 1000000000000)%R.
Proof.
  intros HN Hs.
  destruct (Denoise_holds h s _ sampleRate Hs) as (r & h' & -> & _ & Hres).
  eexists. split; [done|].
  destruct (decide (replicate N 0%R = [])) as [E|_].
  { destruct N; [lia|done]. }
  rewrite denoise_list_zero by lia. split; [done|]. split; [apply length_replicate|].
  intros y ->%elem_of_replicate_inv. rewrite Rminus_0_r, Rabs_R0. lra.
Qed.

Lemma Denoise_silence_witness :
  1 ≤ 3 ∧ holdsF [FArr [0%R; 0%R; 0%R]] (Some 0) (replicate 3 0%R)
  ∧ ∃ ys, resultF (Denoise (Some 0) 44100 [FArr [0%R; 0%R; 0%R]]) = Some ys
        ∧ ys = replicate (Nat.max 3 FrameSize) 0%R
        ∧ length ys = Nat.max 3 FrameSize
        ∧ ∀ y, y ∈ ys → (Rabs (y - 0) <= 1 / 1000000000000)%R.
Proof.
  split; [lia|]. split; [reflexivity|].
  apply (Denoise_silence [FArr [0%R; 0%R; 0%R]] (Some 0) 3 44100); [lia|reflexivity].
Defined.

(** C4: on the empty input the claim asks for max(0, FrameSize) = 2048 zeros;
    [Denoise] returns the empty sequence. *)
Lemma Denoise_silence_counterexample :
  ¬ ∃ ys, resultF (Denoise (F := R) None 44100 []) = Some ys
          ∧ length ys = Nat.max 0 FrameSize
          ∧ ∀ y, y ∈ ys → (Rabs (y - 0) <= 1 / 1000000000000)%R.
Proof.
  intros (ys & Hr & Hlen & _). rewrite Denoise_nil in Hr. simpl in Hr.
  injection Hr as <-. rewrite Nat.max_0_l, FrameSize_pow2 in Hlen. simpl in Hlen.
  assert (2 ^ 11 ≠ 0) by (apply Nat.pow_nonzero; lia). lia.
Qed.

(** * The accumulated window energy *)

Section WindowSum.
Context {F : Type} `{Float64 F}.
Implicit Types (xs ws : list F).

Local Opaque FrameSize HopSize.

Lemma nth_insert_eq {A} (l : list A) i v d : i < length l → nth i (<[i := v]> l) d = v.
Proof. intros Hi. apply nth_lookup_Some'. by apply list_lookup_insert_eq. Qed.

Lemma nth_insert_ne {A} (l : list A) i j v d : i ≠ j → nth j (<[i := v]> l) d = nth j l d.
Proof.
  intros Hij. destruct (decide (j < length l)) as [Hj|Hj].
  - destruct (lookup_lt_is_Some_2 l j Hj) as [x Hx].
    rewrite (nth_lookup_Some' _ _ _ _ Hx). apply nth_lookup_Some'.
    by rewrite list_lookup_insert_ne.
  - rewrite !nth_overflow; rewrite ?length_insert; [done|lia|lia].
Qed.

(** What the first [k] iterations of the overlap-add loop leave in
    [windowSum]. *)
Lemma overlap_fold_sums n start cleaned ws k (a b : list F) idx :
  length b = n →
  nth idx (snd (fold_left (overlap_step n start cleaned ws) (seq 0 k) (a, b))) f0
  = if decide (start ≤ idx < start + k ∧ idx < n)
    then (nth idx b f0 + nth (idx - start) ws f0 * nth (idx - start) ws f0)%fl
    else nth idx b f0.
Proof.
  intros Hb. induction k as [|k IH].
  - simpl. destruct (decide _); [lia|done].
  - rewrite seq_S, fold_left_snoc. simpl.
    destruct (length_overlap_fold n start cleaned ws (seq 0 k) (a, b)) as [_ Lb].
    cbn [snd] in Lb.
    set (st := fold_left (overlap_step n start cleaned ws) (seq 0 k) (a, b)) in *.
    unfold overlap_step. destruct (Nat.ltb_spec (start + k) n) as [Hk|Hk]; cbn [snd].
    + destruct (decide (idx = start + k)) as [->|Hne].
      * rewrite nth_insert_eq by lia. rewrite IH.
        destruct (decide _) as [?|_]; [lia|].
        destruct (decide _) as [_|?]; [|lia].
        by replace (start + k - start) with k by lia.
      * rewrite nth_insert_ne by done. rewrite IH.
        destruct (decide _), (decide _); try done; lia.
    + rewrite IH. destruct (decide _), (decide _); try done; lia.
Qed.

Lemma overlap_add_sums n start cleaned ws (st : list F * list F) idx :
  length (snd st) = n →
  nth idx (snd (overlap_add n start cleaned ws st)) f0
  = if decide (start ≤ idx < start + FrameSize ∧ idx < n)
    then (nth idx (snd st) f0 + nth (idx - start) ws f0 * nth (idx - start) ws f0)%fl
    else nth idx (snd st) f0.
Proof.
  intros Hb. unfold overlap_add. rewrite (surjective_pairing st).
  by apply overlap_fold_sums.
Qed.

(** [windowSum] at an index of the second half of frame [q - 1], which is
    also in the first half of frame [q], after the frames below [k]. *)
Lemma subtract_frames_sums xs ws noise n q j k :
  1 ≤ q → j < HopSize → q * HopSize + j < n →
  nth (q * HopSize + j) (snd (subtract_frames xs ws noise n k)) f0
  = if k <? q then f0
    else if k =? q then (f0 + nth (j + HopSize) ws f0 * nth (j + HopSize) ws f0)%fl
    else ((f0 + nth (j + HopSize) ws f0 * nth (j + HopSize) ws f0)
          + nth j ws f0 * nth j ws f0)%fl.
Proof.
  intros Hq Hj Hn. pose proof FrameSize_HopSize as HF.
  induction k as [|k IH].
  - destruct (Nat.ltb_spec 0 q); [|lia].
    unfold subtract_frames. simpl. apply nth_replicate_same.
  - rewrite subtract_frames_S, overlap_add_sums
      by (by destruct (length_subtract_frames xs ws noise n k)).
    rewrite IH.
    destruct (Nat.ltb_spec (S k) q), (Nat.ltb_spec k q),
             (Nat.eqb_spec (S k) q), (Nat.eqb_spec k q); try lia.
    + destruct (decide _); [nia|done].
    + destruct (decide _); [|nia]. subst q.
      by replace (S k * HopSize + j - k * HopSize) with (j + HopSize) by lia.
    + destruct (decide _); [|nia]. subst q.
      by replace (k * HopSize + j - k * HopSize) with j by lia.
    + destruct (decide _); [nia|done].
Qed.

Lemma lookup_hannValues n j :
  1 < n → j < n → hannValues (F := F) n !! j = Some (hann n j).
Proof.
  intros Hn Hj. unfold hannValues. destruct (Nat.leb_spec n 1); [lia|].
  rewrite list_lookup_fmap, lookup_seq_lt by done. done.
Qed.

(** [windowSum] of [Denoise] at an interior index. *)
Lemma windowSum_list_interior xs i :
  let n := length (padded xs) in
  HopSize ≤ i → i < frame_count n * HopSize →
  windowSum_list xs !! i
  = Some ((f0 + hann FrameSize (i mod HopSize + HopSize) * hann FrameSize (i mod HopSize + HopSize))
          + hann FrameSize (i mod HopSize) * hann FrameSize (i mod HopSize))%fl.
Proof.
  intros n Hlo Hhi. pose proof FrameSize_HopSize as HF. pose proof HopSize_pos as HH.
  pose proof (length_padded_ge xs) as Hn. fold n in Hn.
  assert (Hfit : frame_count n * HopSize + HopSize ≤ n).
  { destruct (frame_count n) as [|t] eqn:E.
    - rewrite frame_count_eq in E. lia.
    - pose proof (frame_in_range n t Hn ltac:(lia)). lia. }
  pose proof (Nat.div_mod_eq i HopSize) as Hdm.
  pose proof (Nat.mod_upper_bound i HopSize ltac:(lia)) as Hm.
  set (q := i / HopSize) in *. set (j := i mod HopSize) in *.
  assert (Hq : 1 ≤ q ∧ q < frame_count n) by nia.
  unfold windowSum_list. fold n.
  destruct (length_subtract_frames (padded xs) (hannValues FrameSize)
              (noise_profile (padded xs) (hannValues FrameSize)
                 (noise_count (frame_count n))) n (frame_count n)) as [_ Lb].
  destruct (lookup_lt_is_Some_2 _ i ltac:(rewrite Lb; lia)) as [v Hv].
  rewrite Hv. f_equal. apply (nth_lookup_Some' _ _ f0) in Hv. rewrite <- Hv.
  replace i with (q * HopSize + j) by lia.
  rewrite subtract_frames_sums by lia.
  destruct (Nat.ltb_spec (frame_count n) q); [lia|].
  destruct (Nat.eqb_spec (frame_count n) q); [lia|].
  assert (H1 : 1 < FrameSize) by lia.
  rewrite (nth_lookup_Some' _ _ f0 _ (lookup_hannValues FrameSize (j + HopSize) H1 ltac:(lia))).
  by rewrite (nth_lookup_Some' _ _ f0 _ (lookup_hannValues FrameSize j H1 ltac:(lia))).
Qed.

End WindowSum.

Lemma FrameSize_pred : Z.of_nat (FrameSize - 1) = 2047%Z.
Proof. reflexivity. Qed.

Lemma HopSize_eq : HopSize = 1024.
Proof. reflexivity. Qed.

Section RealHann.
Local Open Scope R_scope.

Lemma Rabs_le_between (x a : R) : Rabs x <= a → - a <= x <= a.
Proof. unfold Rabs. destruct (Rcase_abs x); lra. Qed.

Lemma sin_abs_le (u : R) : Rabs (sin u) <= Rabs u.
Proof.
  assert (Hpos : ∀ v, 0 < v → Rabs (sin v) <= v).
  { intros v Hv. pose proof (sin_lt_x v Hv). pose proof (SIN_bound v) as [Hl _].
    pose proof PI2_1.
    apply Rabs_le. split; [|lra].
    destruct (Rle_dec v PI) as [Hle|Hgt].
    - pose proof (sin_ge_0 v ltac:(lra) Hle). lra.
    - lra. }
  destruct (Rtotal_order u 0) as [Hu|[->|Hu]].
  - rewrite <- (Ropp_involutive u) at 1. rewrite sin_neg, Rabs_Ropp.
    rewrite (Rabs_left u Hu). apply Hpos. lra.
  - rewrite sin_0, Rabs_R0. lra.
  - rewrite (Rabs_right u) by lra. by apply Hpos.
Qed.

Lemma cos_lipschitz (p q : R) : Rabs (cos p - cos q) <= Rabs (p - q).
Proof.
  rewrite form2, !Rabs_mult.
  replace (Rabs (-2)) with 2 by (rewrite Rabs_left; lra).
  pose proof (sin_abs_le ((p - q) / 2)) as H1.
  pose proof (SIN_bound ((p + q) / 2)) as [H2 H3].
  assert (H4 : Rabs (sin ((p + q) / 2)) <= 1) by (apply Rabs_le; lra).
  assert (H5 : Rabs ((p - q) / 2) = Rabs (p - q) / 2).
  { unfold Rdiv. rewrite Rabs_mult. f_equal. rewrite Rabs_right; lra. }
  rewrite H5 in H1.
  pose proof (Rabs_pos (sin ((p - q) / 2))). pose proof (Rabs_pos (sin ((p + q) / 2))).
  nra.
Qed.

Lemma hann_R (j : nat) :
  hann (F := R) FrameSize j = (1 - cos (2 * PI * INR j / 2047)) / 2.
Proof.
  unfold hann. rewrite FrameSize_pred. r_ops. r_lit.
  rewrite <- INR_IZR_INZ.
  replace (2 * / 1 * PI * INR j / 2047) with (2 * PI * INR j / 2047) by field.
  lra.
Qed.

(** The two squared window values that meet at an index, as cosines. *)
Lemma hann_pair (j : nat) :
  let x := 2 * PI * INR j / 2047 in
  let a := cos x in
  let b := cos (x + PI / 2047) in
  4 * ((0 + hann (F := R) FrameSize (j + HopSize) * hann FrameSize (j + HopSize))
       + hann FrameSize j * hann FrameSize j)
  = 2 + 2 * (b - a) + a * a + b * b.
Proof.
  intros x a b. rewrite !hann_R, HopSize_eq, plus_INR.
  replace (INR 1024) with 1024 by (rewrite INR_IZR_INZ; reflexivity).
  replace (2 * PI * (INR j + 1024) / 2047) with ((x + PI / 2047) + PI) by (unfold x; field).
  rewrite neg_cos. fold a b. change (cos (2 * PI * INR j / 2047)) with a.
  clearbody a b. field.
Qed.

Lemma eps_bound : 0 < PI / 2047 <= 2 / 1000.
Proof. pose proof PI_RGT_0. pose proof PI_4. split; lra. Qed.

Lemma hann_pair_bounds (j : nat) :
  499 / 1000 <= (0 + hann (F := R) FrameSize (j + HopSize) * hann FrameSize (j + HopSize))
                + hann FrameSize j * hann FrameSize j <= 1001 / 1000.
Proof.
  pose proof (hann_pair j) as E. cbv zeta in E.
  set (x := 2 * PI * INR j / 2047) in *.
  pose proof (cos_lipschitz (x + PI / 2047) x) as HL.
  replace (x + PI / 2047 - x) with (PI / 2047) in HL by ring.
  pose proof eps_bound as [He1 He2].
  rewrite (Rabs_right (PI / 2047)) in HL by lra.
  apply Rabs_le_between in HL.
  pose proof (COS_bound x) as [Ha1 Ha2].
  pose proof (COS_bound (x + PI / 2047)) as [Hb1 Hb2].
  split; nra.
Qed.

(** Half-way between two frame starts the sum is about one half. *)
Lemma hann_pair_middle :
  (0 + hann (F := R) FrameSize (512 + HopSize) * hann FrameSize (512 + HopSize))
  + hann FrameSize 512 * hann FrameSize 512 <= 51 / 100.
Proof.
  pose proof (hann_pair 512) as E. cbv zeta in E.
  replace (INR 512) with 512 in E by (rewrite INR_IZR_INZ; reflexivity).
  set (x := 2 * PI * 512 / 2047) in *.
  pose proof eps_bound as [He1 He2].
  pose proof (cos_lipschitz (x + PI / 2047) x) as HL.
  replace (x + PI / 2047 - x) with (PI / 2047) in HL by ring.
  rewrite (Rabs_right (PI / 2047)) in HL by lra.
  apply Rabs_le_between in HL.
  pose proof (cos_lipschitz x (PI / 2)) as HM.
  rewrite cos_PI2, Rminus_0_r in HM.
  replace (x - PI / 2) with (PI / 2047 / 2) in HM by (unfold x; field).
  rewrite (Rabs_right (PI / 2047 / 2)) in HM by lra.
  apply Rabs_le_between in HM.
  nra.
Qed.

End RealHann.

(** C1, as amended.  For the Hann window of length FrameSize = 2048 and
    HopSize = 1024, the value of [windowSum] built by the overlap-add loop of
    [Denoise] at an interior index [i] (one covered by two frames) is
    w[i mod HopSize + HopSize]^2 + w[i mod HopSize]^2; it is not constant: it
    lies between 0.499 and 1.001. *)
Theorem windowSum_interior (h : heap R) (s : slice) (xs : list R) (sampleRate : Z)
    (i : nat) :
  holdsF h s xs → xs ≠ [] →
  HopSize ≤ i → i < frame_count (length (padded xs)) * HopSize →
  ∃ r h' sums v,
    Denoise s sampleRate h = Ok (Some r) h'
    ∧ h' !! S r = Some (FArr sums)
    ∧ sums !! i = Some v
    ∧ v = (hann FrameSize (i mod HopSize + HopSize) * hann FrameSize (i mod HopSize + HopSize)
           + hann FrameSize (i mod HopSize) * hann FrameSize (i mod HopSize))%R
    ∧ (499 / 1000 <= v <= 1001 / 1000)%R.
Proof.
  intros Hs Hne Hlo Hhi. destruct s as [l|]; [|done].
  destruct (Denoise_run h l xs sampleRate Hs Hne) as (h' & r & Hr & _ & _ & _ & Hsum).
  pose proof (windowSum_list_interior xs i Hlo Hhi) as Hv.
  eexists r, h', _, _. split; [exact Hr|]. split; [exact Hsum|]. split; [exact Hv|].
  split.
  - r_ops. ring.
  - apply hann_pair_bounds.
Qed.

Lemma length_padded_3072 : length (padded (replicate 3072 0%R)) = 3072.
Proof.
  rewrite length_padded, length_replicate.
  by replace (3072 <? FrameSize) with false by (by vm_compute).
Qed.

Lemma frame_count_3072 : frame_count 3072 = 2.
Proof. by vm_compute. Qed.

Lemma windowSum_interior_witness :
  holdsF [FArr (replicate 3072 0%R)] (Some 0) (replicate 3072 0%R)
  ∧ replicate 3072 0%R ≠ []
  ∧ HopSize ≤ 1536
  ∧ 1536 < frame_count (length (padded (replicate 3072 0%R))) * HopSize
  ∧ ∃ r h' sums v,
      Denoise (Some 0) 44100 [FArr (replicate 3072 0%R)] = Ok (Some r) h'
      ∧ h' !! S r = Some (FArr sums)
      ∧ sums !! 1536 = Some v
      ∧ (499 / 1000 <= v <= 1001 / 1000)%R.
Proof.
  assert (H1 : holdsF [FArr (replicate 3072 0%R)] (Some 0) (replicate 3072 0%R))
    by reflexivity.
  assert (H2 : replicate 3072 0%R ≠ []) by (by intros ?%(f_equal length)).
  assert (H3 : HopSize ≤ 1536) by (rewrite HopSize_eq; lia).
  assert (H4 : 1536 < frame_count (length (padded (replicate 3072 0%R))) * HopSize).
  { rewrite length_padded_3072, frame_count_3072, HopSize_eq. lia. }
  repeat (split; [assumption|]).
  destruct (windowSum_interior [FArr (replicate 3072 0%R)] (Some 0) (replicate 3072 0%R)
              44100 1536 H1 H2 H3 H4) as (r & h' & sums & v & Hr & Hs & Hv & _ & Hb).
  exists r, h', sums, v. exact (conj Hr (conj Hs (conj Hv Hb))).
Defined.

(** C1: with three hops of silence, the index 1536 is covered by both frames,
    and the accumulated squared-window sum there is below 0.51, not within
    1e-9 of 1.0. *)
Lemma windowSum_counterexample :
  ∃ r h' sums v,
    Denoise (Some 0) 44100 [FArr (replicate 3072 0%R)] = Ok (Some r) h'
    ∧ h' !! S r = Some (FArr sums)
    ∧ sums !! 1536 = Some v
    ∧ HopSize ≤ 1536 < frame_count (length (padded (replicate 3072 0%R))) * HopSize
    ∧ ¬ (Rabs (v - 1) <= 1 / 1000000000)%R.
Proof.
  assert (H1 : holdsF [FArr (replicate 3072 0%R)] (Some 0) (replicate 3072 0%R))
    by reflexivity.
  assert (H2 : replicate 3072 0%R ≠ []) by (by intros ?%(f_equal length)).
  assert (H3 : HopSize ≤ 1536) by (rewrite HopSize_eq; lia).
  assert (H4 : 1536 < frame_count (length (padded (replicate 3072 0%R))) * HopSize).
  { rewrite length_padded_3072, frame_count_3072, HopSize_eq. lia. }
  destruct (Denoise_run [FArr (replicate 3072 0%R)] 0 (replicate 3072 0%R) 44100 H1 H2)
    as (h' & r & Hr & _ & _ & _ & Hsum).
  pose proof (windowSum_list_interior (replicate 3072 0%R) 1536 H3 H4) as Hv.
  replace (1536 mod HopSize) with 512 in Hv by (by vm_compute).
  eexists r, h', _, _. split; [exact Hr|]. split; [exact Hsum|]. split; [exact Hv|].
  split; [exact (conj H3 H4)|].
  pose proof hann_pair_middle as Hm. r_ops.
  intros Habs%Rabs_le_between. lra.
Qed.

(** * The WAV codec *)

Section WAVBytes.

Lemma le_bytes_S w v : le_bytes (S w) v = (v mod 256)%Z :: le_bytes w (v / 256)%Z.
Proof.
  unfold le_bytes. rewrite <- cons_seq. simpl map. f_equal.
  - by rewrite Z.mul_0_r, Z.pow_0_r, Z.div_1_r.
  - rewrite <- seq_shift, map_map. apply map_ext. intros i.
    rewrite Nat2Z.inj_succ, Z.mul_succ_r, Z.pow_add_r by lia.
    rewrite (Z.mul_comm (2 ^ _) (2 ^ 8)), <- Z.div_div by lia. done.
Qed.

Lemma length_le_bytes w v : length (le_bytes w v) = w.
Proof. unfold le_bytes. by rewrite length_map, length_seq. Qed.

Lemma le_uint_le_bytes w v : le_uint (le_bytes w v) = (v mod 2 ^ (8 * Z.of_nat w))%Z.
Proof.
  revert v. induction w as [|w IH]; intros v.
  - change (0 = v mod 1)%Z. by rewrite Z.mod_1_r.
  - rewrite le_bytes_S. simpl le_uint. rewrite IH.
    replace (8 * Z.of_nat (S w))%Z with (8 + 8 * Z.of_nat w)%Z by lia.
    rewrite Z.pow_add_r by lia. change (2 ^ 8)%Z with 256%Z.
    rewrite Z.rem_mul_r by lia. done.
Qed.

Lemma le_uint_range w v :
  (0 ≤ v < 2 ^ (8 * Z.of_nat w))%Z → le_uint (le_bytes w v) = v.
Proof. intros Hv. rewrite le_uint_le_bytes. by apply Z.mod_small. Qed.

Lemma int16_roundtrip q :
  (-32768 ≤ q ≤ 32767)%Z → int16_of_uint16 (le_uint (le_bytes 2 q)) = q.
Proof.
  intros Hq. rewrite le_uint_le_bytes. change (2 ^ (8 * Z.of_nat 2))%Z with 65536%Z.
  unfold int16_of_uint16. destruct (Z.ltb_spec (q mod 65536) 32768) as [Hlt|Hge].
  - destruct (Z_lt_le_dec q 0) as [Hn|Hp].
    + rewrite <- (Z.mod_add q 1 65536) in Hlt by lia.
      rewrite Z.mod_small in Hlt by lia. lia.
    + apply Z.mod_small. lia.
  - destruct (Z_lt_le_dec q 0) as [Hn|Hp].
    + rewrite <- (Z.mod_add q 1 65536) by lia. rewrite Z.mod_small by lia. lia.
    + rewrite Z.mod_small in Hge by lia. lia.
Qed.

Lemma bytes_at_app_l (a b : list Z) lo hi :
  hi ≤ length a → bytes_at (a ++ b) lo hi = bytes_at a lo hi.
Proof.
  intros Hhi. unfold bytes_at. rewrite drop_app, take_app.
  rewrite length_drop. replace (hi - lo - (length a - lo)) with 0 by lia.
  by rewrite take_0, app_nil_r.
Qed.

Lemma bytes_at_app_r (a b : list Z) lo hi :
  length a ≤ lo → bytes_at (a ++ b) lo hi = bytes_at b (lo - length a) (hi - length a).
Proof.
  intros Hlo. unfold bytes_at. rewrite drop_app.
  rewrite (drop_ge a) by done. simpl. f_equal. lia.
Qed.

Lemma bytes_at_all (a : list Z) : bytes_at a 0 (length a) = a.
Proof. unfold bytes_at. by rewrite drop_0, Nat.sub_0_r, firstn_all. Qed.

End WAVBytes.

Section WAVRoundTrip.

Context {F : Type} `{Float64 F}.
Implicit Types (samples : list F) (rate : Z).

Lemma WriteWAV_layout samples rate :
  WriteWAV samples rate = wav_header (length samples) rate ++ pcm_bytes samples.
Proof. unfold WriteWAV, wav_header, pcm_bytes. by rewrite <- !app_assoc. Qed.

Lemma length_wav_header n rate : length (wav_header n rate) = 44.
Proof. reflexivity. Qed.

Lemma pcm_bytes_cons s samples :
  pcm_bytes (s :: samples) = le_bytes 2 (sample_to_int16 s) ++ pcm_bytes samples.
Proof. reflexivity. Qed.

Lemma length_pcm_bytes samples : length (pcm_bytes samples) = length samples * 2.
Proof.
  induction samples as [|s samples IH]; [done|].
  rewrite pcm_bytes_cons, length_app, length_le_bytes, IH. simpl. lia.
Qed.

Lemma wav_header_field n rate lo hi bs :
  hi ≤ 44 → bytes_at (wav_header n rate) lo hi = bs →
  ∀ body, bytes_at (wav_header n rate ++ body) lo hi = bs.
Proof. intros Hhi <- body. apply bytes_at_app_l. by rewrite length_wav_header. Qed.

(** The samples are read back from their two bytes each. *)
Lemma decode_pcm {A} (g : list Z → A) samples :
  map (λ i, g (bytes_at (pcm_bytes samples) (i * 2) (i * 2 + 2))) (seq 0 (length samples))
  = map (λ s, g (le_bytes 2 (sample_to_int16 s))) samples.
Proof.
  induction samples as [|s samples IH]; [done|].
  simpl length. rewrite <- cons_seq, !map_cons. f_equal.
  rewrite <- IH, <- seq_shift, map_map. apply map_ext. intros i. reflexivity.
Qed.

(** One iteration of the chunk walk on a [fmt ] chunk of 16 bytes, on a
    [data] chunk, and the end of the walk. *)
Lemma walk_chunks_fmt fuel data pos header pcmData :
  pos + 24 ≤ length data →
  bytes_at data pos (pos + 4) = ascii_bytes "fmt " →
  le_uint (bytes_at data (pos + 4) (pos + 8)) = 16%Z →
  le_uint (bytes_at data (pos + 8) (pos + 8 + 2)) = 1%Z →
  le_uint (bytes_at data (pos + 8 + 14) (pos + 8 + 16)) = 16%Z →
  walk_chunks (S fuel) data pos header pcmData
  = walk_chunks fuel data (pos + 24)
      (Some {| SampleRate := le_uint (bytes_at data (pos + 8 + 4) (pos + 8 + 8));
               NumChannels := le_uint (bytes_at data (pos + 8 + 2) (pos + 8 + 4));
               BitsPerSample := 16 |}) pcmData.
Proof.
  intros Hlen Hid Hsize Hfmt Hbits. cbn [walk_chunks].
  replace (pos + 8 <=? length data) with true by (symmetry; apply Nat.leb_le; lia).
  rewrite Hid, decide_True by done. rewrite Hsize.
  change (Z.to_nat 16) with 16. change (16 <? 16) with false. cbv iota.
  replace (length data <? pos + 8 + 16) with false by (symmetry; apply Nat.ltb_ge; lia).
  rewrite Hfmt. change (negb (1 =? 1)%Z) with false. cbv iota.
  cbn [BitsPerSample]. rewrite Hbits. change (negb (16 =? 16)%Z) with false. cbv iota.
  change (16 `mod` 2 =? 0) with true. cbv iota.
  f_equal. lia.
Qed.

Lemma walk_chunks_data fuel data pos header pcmData size :
  pos + 8 ≤ length data →
  bytes_at data pos (pos + 4) = ascii_bytes "data" →
  le_uint (bytes_at data (pos + 4) (pos + 8)) = Z.of_nat size →
  walk_chunks (S fuel) data pos header pcmData
  = walk_chunks fuel data (pos + 8 + size + (if size `mod` 2 =? 0 then 0 else 1)) header
      (Some (bytes_at data (pos + 8)
               (if length data <? pos + 8 + size then length data else pos + 8 + size))).
Proof.
  intros Hlen Hid Hsize. cbn [walk_chunks].
  replace (pos + 8 <=? length data) with true by (symmetry; apply Nat.leb_le; lia).
  rewrite Hid, Hsize, Nat2Z.id.
  rewrite decide_False by (intros E; vm_compute in E; discriminate E).
  by rewrite decide_True by done.
Qed.

Lemma walk_chunks_end fuel data pos header pcmData :
  length data < pos + 8 →
  walk_chunks fuel data pos header pcmData = inr (header, pcmData).
Proof.
  intros Hlen. destruct fuel; cbn [walk_chunks];
    by replace (pos + 8 <=? length data) with false by (symmetry; apply Nat.leb_gt; lia).
Qed.

(** The first iteration on a file that starts with [wav_header n rate]. *)
Lemma walk_chunks_header fuel n rate body :
  walk_chunks (S fuel) (wav_header n rate ++ body) 12 None None
  = walk_chunks fuel (wav_header n rate ++ body) 36
      (Some {| SampleRate := (rate mod 2 ^ 32)%Z; NumChannels := 1; BitsPerSample := 16 |})
      None.
Proof.
  rewrite walk_chunks_fmt; cycle 1.
  { rewrite length_app, length_wav_header. lia. }
  { apply wav_header_field; [simpl; lia|reflexivity]. }
  { by rewrite (wav_header_field n rate 16 20 (le_bytes 4 16)) by (simpl; lia || reflexivity). }
  { by rewrite (wav_header_field n rate 20 22 (le_bytes 2 1)) by (simpl; lia || reflexivity). }
  { by rewrite (wav_header_field n rate 34 36 (le_bytes 2 16)) by (simpl; lia || reflexivity). }
  rewrite (wav_header_field n rate 24 28 (le_bytes 4 rate)) by (simpl; lia || reflexivity).
  rewrite (wav_header_field n rate 22 24 (le_bytes 2 1)) by (simpl; lia || reflexivity).
  rewrite le_uint_le_bytes. reflexivity.
Qed.

(** [ReadWAV] on a file of [WriteWAV]: the chunk walk finds the [fmt ] chunk at
    byte 12 and the [data] chunk at byte 36, and ends after it. *)
Lemma ReadWAV_WriteWAV samples rate :
  (Z.of_nat (length samples) < 2 ^ 31)%Z →
  ReadWAV (WriteWAV samples rate)
  = inr (map requantize samples, (rate mod 2 ^ 32)%Z).
Proof.
  intros Hn. rewrite WriteWAV_layout.
  set (n := length samples) in *. set (body := pcm_bytes samples).
  assert (Hlen : length (wav_header n rate ++ body) = 44 + n * 2).
  { rewrite length_app, length_wav_header. unfold body. by rewrite length_pcm_bytes. }
  unfold ReadWAV. rewrite Hlen.
  replace (44 + n * 2 <? 12) with false by (symmetry; apply Nat.ltb_ge; lia).
  rewrite (wav_header_field n rate 0 4 (ascii_bytes "RIFF")) by (done || lia).
  rewrite (wav_header_field n rate 8 12 (ascii_bytes "WAVE")) by (done || lia).
  rewrite !bool_decide_eq_true_2 by done. cbv [negb].
  replace (44 + n * 2) with (S (S (42 + n * 2))) by lia.
  rewrite walk_chunks_header.
  rewrite (walk_chunks_data _ _ _ _ _ (n * 2)); cycle 1.
  { rewrite Hlen. lia. }
  { apply wav_header_field; [simpl; lia|reflexivity]. }
  { rewrite (wav_header_field n rate 40 44 (le_bytes 4 (Z.of_nat n * 2)))
      by (simpl; lia || reflexivity).
    rewrite le_uint_range; [lia|].
    change (2 ^ (8 * Z.of_nat 4))%Z with (2 * 2 ^ 31)%Z. lia. }
  rewrite walk_chunks_end by (rewrite Hlen; destruct (_ =? _); lia).
  rewrite Hlen.
  replace (44 + n * 2 <? 36 + 8 + n * 2) with false by (symmetry; apply Nat.ltb_ge; lia).
  rewrite bytes_at_app_r by (rewrite length_wav_header; lia).
  rewrite length_wav_header.
  replace (36 + 8 - 44) with 0 by lia.
  replace (36 + 8 + n * 2 - 44) with (length body)
    by (unfold body; rewrite length_pcm_bytes; lia).
  rewrite bytes_at_all. cbn [NumChannels SampleRate]. change (1 =? 2)%Z with false. cbv iota.
  f_equal. f_equal.
  unfold body. rewrite length_pcm_bytes, Nat.div_mul by lia.
  apply (decode_pcm (λ bs, (fofZ (int16_of_uint16 (le_uint bs)) / flit 32768)%fl)).
Qed.

(** When the byte count [2 n] is a multiple of 2^32 the size field of the
    [data] chunk is 0; over silence the walk then steps through the samples
    as chunks of size 0 and no sample is returned. *)
Lemma walk_chunks_zeros fuel pre m pos header pcmData :
  length pre ≤ pos → length pre + m ≤ pos + fuel →
  walk_chunks fuel (pre ++ replicate m 0%Z) pos header pcmData = inr (header, pcmData).
Proof.
  revert pos. induction fuel as [|fuel IH]; intros pos Hpos Hfuel.
  - apply walk_chunks_end. rewrite length_app, length_replicate. lia.
  - destruct (le_lt_dec (pos + 8) (length pre + m)) as [Hin|Hout].
    + assert (Hz : ∀ lo hi, length pre ≤ lo → lo ≤ hi → hi ≤ length pre + m →
                bytes_at (pre ++ replicate m 0%Z) lo hi = replicate (hi - lo) 0%Z).
      { intros lo hi H1 H2 H3. rewrite bytes_at_app_r by done. unfold bytes_at.
        rewrite drop_replicate, take_replicate. f_equal. lia. }
      cbn [walk_chunks].
      replace (pos + 8 <=? length (pre ++ replicate m 0%Z)) with true
        by (symmetry; apply Nat.leb_le; rewrite length_app, length_replicate; lia).
      rewrite !Hz by lia.
      replace (pos + 4 - pos) with 4 by lia. replace (pos + 8 - (pos + 4)) with 4 by lia.
      rewrite decide_False by (intros E; vm_compute in E; discriminate E).
      rewrite decide_False by (intros E; vm_compute in E; discriminate E).
      change (Z.to_nat (le_uint (replicate 4 0%Z))) with 0.
      change (0 `mod` 2 =? 0) with true. cbv iota.
      apply IH; lia.
    + apply walk_chunks_end. rewrite length_app, length_replicate. lia.
Qed.

End WAVRoundTrip.

Section WAVReal.
Implicit Types (s : R) (samples : list R).

Lemma R_trunc_IZR z : R_trunc (IZR z) = z.
Proof.
  unfold R_trunc. destruct (Rle_dec 0 (IZR z)).
  - apply ZfloorZ.
  - unfold Zceil. rewrite ZfloorNZ. lia.
Qed.

(** The 16-bit value of a sample in [-1, 1] is in the range of [int16] and
    within 3/2 of [32768 * s]. *)
Lemma sample_to_int16_bounds s :
  (-1 <= s <= 1)%R →
  (-32768 ≤ sample_to_int16 s ≤ 32767)%Z
  ∧ (Rabs (IZR (sample_to_int16 s) - 32768 * s) <= 3 / 2)%R.
Proof.
  intros Hs. unfold sample_to_int16.
  cbn [fltb fleb fneg fmul flit m_round f2Z R_Float64]. r_lit.
  destruct (Rlt_dec _ s) as [Hgt|_]; [lra|].
  destruct (Rlt_dec s _) as [Hlt|_]; [lra|].
  destruct (Rle_dec _ s) as [Hpos|Hneg].
  - unfold R_round. destruct (Rle_dec 0 _) as [_|Hn]; [|lra].
    rewrite R_trunc_IZR.
    pose proof (Zfloor_bound (s * (32767 * / 1) + / 2)) as Hb.
    set (q := Zfloor _) in *. split.
    + assert (-1 < IZR q < 32768)%R as [H1 H2] by lra.
      apply lt_IZR in H1, H2. lia.
    + apply Rabs_le. lra.
  - unfold R_round. destruct (Rle_dec 0 _) as [Hn|_]; [lra|].
    rewrite R_trunc_IZR.
    pose proof (Zceil_bound (s * (32768 * / 1) - / 2)) as Hb.
    set (q := Zceil _) in *. split.
    + assert (-32769 < IZR q < 1)%R as [H1 H2] by lra.
      apply lt_IZR in H1, H2. lia.
    + apply Rabs_le. lra.
Qed.

Lemma requantize_close s :
  (-1 <= s <= 1)%R → (Rabs (requantize s - s) <= / 1000)%R.
Proof.
  intros Hs. destruct (sample_to_int16_bounds s Hs) as [Hq Hd].
  unfold requantize. rewrite int16_roundtrip by done.
  cbn [fofZ fdiv flit R_Float64]. r_lit.
  set (q := IZR (sample_to_int16 s)) in *.
  apply Rabs_le_between in Hd. apply Rabs_le. split.
  - apply Rmult_le_reg_l with 32768%R; [lra|]. field_simplify. lra.
  - apply Rmult_le_reg_l with 32768%R; [lra|]. field_simplify. lra.
Qed.

Lemma sample_to_int16_0 : sample_to_int16 0%R = 0%Z.
Proof.
  unfold sample_to_int16.
  cbn [fltb fleb fneg fmul flit m_round f2Z R_Float64]. r_lit.
  destruct (Rlt_dec _ 0) as [Hgt|_]; [lra|].
  destruct (Rlt_dec 0 _) as [Hlt|_]; [lra|].
  destruct (Rle_dec _ 0) as [_|Hneg]; [|lra].
  unfold R_round. destruct (Rle_dec 0 _) as [_|Hn]; [|lra].
  rewrite R_trunc_IZR. apply Zfloor_eq. lra.
Qed.

Lemma pcm_bytes_silence n : pcm_bytes (replicate n 0%R) = replicate (n * 2) 0%Z.
Proof.
  induction n as [|n IH]; [done|].
  cbn [replicate]. rewrite pcm_bytes_cons, IH, sample_to_int16_0. reflexivity.
Qed.

(** Silence of [n] samples where [2 n] is a multiple of 2^32: no sample is
    read back. *)
Lemma ReadWAV_WriteWAV_wrapped n rate :
  ((Z.of_nat n * 2) mod 2 ^ 32 = 0)%Z →
  ReadWAV (WriteWAV (replicate n 0%R) rate) = inr ([], (rate mod 2 ^ 32)%Z).
Proof.
  intros Hn. rewrite WriteWAV_layout, length_replicate, pcm_bytes_silence.
  set (data := wav_header n rate ++ replicate (n * 2) 0%Z).
  assert (Hlen : length data = 44 + n * 2).
  { unfold data. by rewrite length_app, length_wav_header, length_replicate. }
  unfold ReadWAV. rewrite Hlen.
  replace (44 + n * 2 <? 12) with false by (symmetry; apply Nat.ltb_ge; lia).
  unfold data.
  rewrite (wav_header_field n rate 0 4 (ascii_bytes "RIFF")) by (done || lia).
  rewrite (wav_header_field n rate 8 12 (ascii_bytes "WAVE")) by (done || lia).
  rewrite !bool_decide_eq_true_2 by done. cbv [negb].
  replace (44 + n * 2) with (S (S (42 + n * 2))) by lia.
  rewrite walk_chunks_header.
  rewrite (walk_chunks_data _ _ _ _ _ 0); cycle 1.
  { fold data. rewrite Hlen. lia. }
  { apply wav_header_field; [simpl; lia|reflexivity]. }
  { rewrite (wav_header_field n rate 40 44 (le_bytes 4 (Z.of_nat n * 2)))
      by (simpl; lia || reflexivity).
    by rewrite le_uint_le_bytes. }
  rewrite walk_chunks_zeros by (rewrite length_wav_header; simpl; lia).
  fold data. rewrite Hlen.
  replace (44 + n * 2 <? 36 + 8 + 0) with false by (symmetry; apply Nat.ltb_ge; lia).
  reflexivity.
Qed.

End WAVReal.

Section WAVClaims.
Implicit Types (samples : list R) (rate : Z).

(** C10, as amended.  For mono samples in [-1, 1], fewer than 2^31 of them, and a
    sample rate that fits the 32-bit field of the format, [ReadWAV] of the file
    [WriteWAV] produces succeeds and returns the same sample rate, as many
    samples, and every sample within 0.001 of the original. *)
Theorem WAV_roundtrip samples rate :
  Forall (λ s, -1 <= s <= 1)%R samples →
  (0 ≤ rate < 2 ^ 32)%Z →
  (Z.of_nat (length samples) < 2 ^ 31)%Z →
  ∃ recovered,
    ReadWAV (WriteWAV samples rate) = inr (recovered, rate)
    ∧ length recovered = length samples
    ∧ ∀ i s r, samples !! i = Some s → recovered !! i = Some r →
               (Rabs (r - s) <= / 1000)%R.
Proof.
  intros Hs Hrate Hn. exists (map requantize samples).
  rewrite ReadWAV_WriteWAV by done. rewrite Z.mod_small by done.
  split; [done|]. split; [by rewrite length_map|].
  intros i s r Hi Hr. rewrite list_lookup_fmap, Hi in Hr. injection Hr as <-.
  apply requantize_close. by apply (Forall_lookup_1 _ _ _ _ Hs Hi).
Qed.

Lemma WAV_roundtrip_witness :
  Forall (λ s, -1 <= s <= 1)%R [0; 1; -1; / 2]%R
  ∧ (0 ≤ 44100 < 2 ^ 32)%Z
  ∧ (Z.of_nat (length [0; 1; -1; / 2]%R) < 2 ^ 31)%Z
  ∧ ∃ recovered,
      ReadWAV (WriteWAV [0; 1; -1; / 2]%R 44100) = inr (recovered, 44100%Z)
      ∧ length recovered = 4
      ∧ ∀ i s r, [0; 1; -1; / 2]%R !! i = Some s → recovered !! i = Some r →
                 (Rabs (r - s) <= / 1000)%R.
Proof.
  assert (Hs : Forall (λ s, -1 <= s <= 1)%R [0; 1; -1; / 2]%R).
  { repeat constructor; lra. }
  assert (Hrate : (0 ≤ 44100 < 2 ^ 32)%Z) by (split; [lia|reflexivity]).
  assert (Hn : (Z.of_nat (length [0; 1; -1; / 2]%R) < 2 ^ 31)%Z) by reflexivity.
  split; [exact Hs|]. split; [exact Hrate|]. split; [exact Hn|].
  exact (WAV_roundtrip [0; 1; -1; / 2]%R 44100 Hs Hrate Hn).
Defined.

(** C10: the sample rate is stored in a 32-bit field, so a rate of 2^32 is
    read back as 0; the byte count of the samples is stored in a 32-bit field,
    so of 2^31 samples (2^32 bytes, stored as 0) none is read back. *)
Lemma WAV_roundtrip_counterexample :
  (ReadWAV (WriteWAV ([] : list R) 4294967296) = inr ([], 0%Z)
   ∧ ¬ ∃ recovered,
         ReadWAV (WriteWAV ([] : list R) 4294967296) = inr (recovered, 4294967296%Z))
  ∧ (ReadWAV (WriteWAV (replicate (2 ^ 31) 0%R) 44100) = inr ([], 44100%Z)
     ∧ length ([] : list R) ≠ length (replicate (2 ^ 31) 0%R)).
Proof.
  assert (E : ReadWAV (WriteWAV ([] : list R) 4294967296) = inr ([], 0%Z)).
  { by rewrite ReadWAV_WriteWAV by reflexivity. }
  split; [split; [exact E|]|split].
  - rewrite E. intros [recovered Hr]. discriminate Hr.
  - apply (ReadWAV_WriteWAV_wrapped (2 ^ 31) 44100).
    rewrite Nat2Z.inj_pow. reflexivity.
  - rewrite length_replicate. apply not_eq_sym, Nat.pow_nonzero. discriminate.
Qed.

End WAVClaims.

(** * The FFT over the real numbers *)

(** ** complex128 over R is a commutative ring *)

Section ComplexRing.
Implicit Types (a b c : complex128 R).

Lemma Q2R_1 : Q2R 1 = 1%R.
Proof. unfold Q2R. simpl. lra. Qed.

Lemma Q2R_2 : Q2R 2 = 2%R.
Proof. unfold Q2R. simpl. lra. Qed.

Lemma complex_eq a b : re a = re b → im a = im b → a = b.
Proof. destruct a, b. simpl. by intros -> ->. Qed.

Lemma complex_ring_theory :
  ring_theory (R := complex128 R) c0 c1 cadd cmul csub copp eq.
Proof.
  split.
  - intros a. apply complex_eq; r_ops; simpl; ring.
  - intros a b. apply complex_eq; r_ops; simpl; ring.
  - intros a b c. apply complex_eq; r_ops; simpl; ring.
  - intros a. apply complex_eq; r_ops; simpl; rewrite Q2R_1; ring.
  - intros a b. apply complex_eq; r_ops; simpl; ring.
  - intros a b c. apply complex_eq; r_ops; simpl; ring.
  - intros a b c. apply complex_eq; r_ops; simpl; ring.
  - intros a b. apply complex_eq; r_ops; simpl; ring.
  - intros a. apply complex_eq; r_ops; simpl; ring.
Qed.

End ComplexRing.

Add Ring complex_ring : complex_ring_theory.

Section ComplexAlgebra.
Implicit Types (a b c : complex128 R) (t u : R).

Lemma cmul_eq_0 a b : cmul a b = c0 → a = c0 ∨ b = c0.
Proof.
  destruct a as [x y], b as [p q]. unfold cmul, c0. r_ops. simpl.
  intros E. injection E as E1 E2.
  assert (Hn : ((x * x + y * y) * (p * p + q * q) = 0)%R).
  { replace ((x * x + y * y) * (p * p + q * q))%R
      with ((x * p - y * q) * (x * p - y * q) + (x * q + y * p) * (x * q + y * p))%R by ring.
    rewrite E1, E2. ring. }
  apply Rmult_integral in Hn. destruct Hn as [Hn|Hn]; [left|right].
  - assert (x = 0)%R by nra. assert (y = 0)%R by nra. by subst.
  - assert (p = 0)%R by nra. assert (q = 0)%R by nra. by subst.
Qed.

Lemma cmplx_Conj_add a b : cmplx_Conj (cadd a b) = cadd (cmplx_Conj a) (cmplx_Conj b).
Proof. apply complex_eq; r_ops; simpl; ring. Qed.

Lemma cmplx_Conj_mul a b : cmplx_Conj (cmul a b) = cmul (cmplx_Conj a) (cmplx_Conj b).
Proof. apply complex_eq; r_ops; simpl; ring. Qed.

Lemma cmplx_Conj_invol a : cmplx_Conj (cmplx_Conj a) = a.
Proof. apply complex_eq; r_ops; simpl; ring. Qed.

Lemma cmplx_Conj_0 : cmplx_Conj (c0 (F := R)) = c0.
Proof. apply complex_eq; r_ops; simpl; ring. Qed.

(** *** The unit circle *)

Lemma cis_0 : cis 0 = c1.
Proof. unfold cis, c1. r_ops. by rewrite cos_0, sin_0, Q2R_1. Qed.

Lemma cis_add t u : cis (t + u) = cmul (cis t) (cis u).
Proof.
  unfold cis, cmul. r_ops. simpl. rewrite cos_plus, sin_plus. f_equal; ring.
Qed.

Lemma cis_period t (k : nat) : cis (t + 2 * INR k * PI) = cis t.
Proof. unfold cis. by rewrite cos_period, sin_period. Qed.

Lemma cis_opp t : cis (- t) = cmplx_Conj (cis t).
Proof. unfold cis, cmplx_Conj. r_ops. simpl. by rewrite cos_neg, sin_neg. Qed.

Lemma cis_PI : cis (- PI) = copp c1.
Proof.
  unfold cis, copp, c1. r_ops. simpl.
  rewrite cos_neg, sin_neg, cos_PI, sin_PI, Q2R_1. f_equal; ring.
Qed.

(** [cis t = 1] only at the multiples of [2 pi]. *)
Lemma cis_neq_1 t : (0 < t < 2 * PI)%R → cis t ≠ c1.
Proof.
  intros Ht E. unfold cis, c1 in E. r_ops. rewrite Q2R_1 in E. injection E as Ec Es.
  replace t with (2 * (t / 2))%R in Ec by field.
  rewrite cos_2a_sin in Ec.
  assert (0 < sin (t / 2))%R by (apply sin_gt_0; lra). nra.
Qed.

End ComplexAlgebra.

(** ** Roots of unity *)

Section Roots.
Implicit Types (m e h j k : nat).

Lemma omega_0 m : omega m 0 = c1.
Proof. unfold omega. rewrite <- cis_0. f_equal. simpl. unfold Rdiv. ring. Qed.

Lemma omega_add m a b : omega m (a + b) = cmul (omega m a) (omega m b).
Proof.
  unfold omega. rewrite <- cis_add. f_equal. rewrite plus_INR. unfold Rdiv. ring.
Qed.

Lemma omega_full m : m ≠ 0 → omega m m = c1.
Proof.
  intros Hm. unfold omega. rewrite <- cis_0, <- (cis_period _ 1). f_equal.
  simpl. field. by apply not_0_INR.
Qed.

Lemma omega_mul_full m k : m ≠ 0 → omega m (m * k) = c1.
Proof.
  intros Hm. induction k as [|k IH].
  - rewrite Nat.mul_0_r. apply omega_0.
  - rewrite Nat.mul_succ_r, omega_add, IH, omega_full by done. ring.
Qed.

Lemma omega_mod m e : m ≠ 0 → omega m (e mod m) = omega m e.
Proof.
  intros Hm. rewrite (Nat.div_mod_eq e m) at 2.
  rewrite omega_add, omega_mul_full by done. ring.
Qed.

Lemma omega_double h e : h ≠ 0 → omega (2 * h) (2 * e) = omega h e.
Proof.
  intros Hh. unfold omega. f_equal. rewrite !mult_INR. simpl. field.
  by apply not_0_INR.
Qed.

Lemma omega_half h : h ≠ 0 → omega (2 * h) h = copp c1.
Proof.
  intros Hh. unfold omega. rewrite <- cis_PI. f_equal. rewrite mult_INR. simpl.
  field. by apply not_0_INR.
Qed.

Lemma twiddle_omega m : twiddle (F := R) m = omega m 1.
Proof.
  unfold twiddle, cmplx_Exp, omega, cis. r_ops. cbn [re im fneg].
  rewrite exp_0, Q2R_2, !Rmult_1_l, <- INR_IZR_INZ.
  assert (E : (- (2 * PI) / INR m = - (2 * PI * INR 1 / INR m))%R).
  { simpl. unfold Rdiv. ring. }
  by rewrite E.
Qed.

Lemma cpow_S (w : complex128 R) j : cpow w (S j) = cmul (cpow w j) w.
Proof. reflexivity. Qed.

Lemma cpow_omega m j : cpow (omega m 1) j = omega m j.
Proof.
  induction j as [|j IH]; [by rewrite omega_0|].
  by rewrite cpow_S, IH, <- omega_add, Nat.add_1_r.
Qed.

End Roots.

(** ** Finite sums *)

Section ComplexSums.
Implicit Types (f g : nat → complex128 R) (n m : nat) (c : complex128 R).

Lemma csum_S n f : csum (S n) f = cadd (csum n f) (f n).
Proof. reflexivity. Qed.

Lemma csum_ext n f g : (∀ i, i < n → f i = g i) → csum n f = csum n g.
Proof.
  induction n as [|n IH]; intros Hfg; [done|].
  rewrite !csum_S, IH, Hfg by (intros; try apply Hfg; lia). done.
Qed.

Lemma csum_0 n : csum n (λ _, c0 (F := R)) = c0.
Proof. induction n as [|n IH]; [done|]. rewrite csum_S, IH. ring. Qed.

Lemma csum_add n f g : csum n (λ i, cadd (f i) (g i)) = cadd (csum n f) (csum n g).
Proof. induction n as [|n IH]; [simpl; ring|]. rewrite !csum_S, IH. ring. Qed.

Lemma csum_mul_l n c f : csum n (λ i, cmul c (f i)) = cmul c (csum n f).
Proof. induction n as [|n IH]; [simpl; ring|]. rewrite !csum_S, IH. ring. Qed.

Lemma csum_conj n f : cmplx_Conj (csum n f) = csum n (λ i, cmplx_Conj (f i)).
Proof.
  induction n as [|n IH]; [apply cmplx_Conj_0|].
  by rewrite !csum_S, cmplx_Conj_add, IH.
Qed.

Lemma csum_swap n m (f : nat → nat → complex128 R) :
  csum n (λ i, csum m (λ j, f i j)) = csum m (λ j, csum n (λ i, f i j)).
Proof.
  induction n as [|n IH]; [by rewrite csum_0|].
  rewrite csum_S, IH. rewrite <- csum_add. apply csum_ext. intros j _.
  by rewrite csum_S.
Qed.

(** A sum with one term that is not zero. *)
Lemma csum_single n i f c :
  i < n → csum n (λ j, cmul (f j) (if decide (j = i) then c else c0)) = cmul (f i) c.
Proof.
  intros Hi. induction n as [|n IH]; [lia|].
  rewrite csum_S. destruct (decide (n = i)) as [->|Hne].
  - rewrite (csum_ext i _ (λ _, c0)).
    + rewrite csum_0. ring.
    + intros j Hj. rewrite decide_False by lia. ring.
  - rewrite IH by lia. ring.
Qed.

(** The terms of even and of odd index. *)
Lemma csum_even_odd n f :
  csum (2 * n) f = cadd (csum n (λ q, f (2 * q))) (csum n (λ q, f (2 * q + 1))).
Proof.
  induction n as [|n IH]; [simpl; ring|].
  replace (2 * S n) with (S (S (2 * n))) by lia.
  rewrite !csum_S, IH. replace (S (2 * n)) with (2 * n + 1) by lia. ring.
Qed.

Lemma csum_const n c : csum n (λ _, c) = cmul (Cx (INR n) 0%R) c.
Proof.
  induction n as [|n IH]; [simpl; apply complex_eq; r_ops; simpl; ring|].
  rewrite csum_S, IH, S_INR. apply complex_eq; r_ops; simpl; ring.
Qed.

(** The geometric sum of the powers of [cis phi]. *)
Lemma csum_geometric n (phi : R) :
  cmul (csub (cis phi) c1) (csum n (λ k, cis (INR k * phi)))
  = csub (cis (INR n * phi)) c1.
Proof.
  induction n as [|n IH].
  - simpl. rewrite Rmult_0_l, cis_0. ring.
  - rewrite csum_S, S_INR.
    replace ((INR n + 1) * phi)%R with (INR n * phi + phi)%R by ring.
    rewrite cis_add.
    transitivity (cadd (cmul (csub (cis phi) c1) (csum n (λ k, cis (INR k * phi))))
                       (cmul (csub (cis phi) c1) (cis (INR n * phi)))); [ring|].
    rewrite IH. ring.
Qed.

Lemma cis_int (z : Z) : cis (2 * PI * IZR z) = c1.
Proof.
  assert (Hnat : ∀ k : nat, cis (2 * PI * INR k) = c1).
  { intros k. rewrite <- cis_0, <- (cis_period 0 k). f_equal. ring. }
  destruct (Z_le_gt_dec 0 z) as [Hz|Hz].
  - rewrite <- (Z2Nat.id z Hz), <- INR_IZR_INZ. apply Hnat.
  - replace (2 * PI * IZR z)%R with (- (2 * PI * IZR (- z)))%R
      by (rewrite opp_IZR; ring).
    rewrite cis_opp, <- (Z2Nat.id (- z)), <- INR_IZR_INZ, Hnat by lia.
    apply complex_eq; unfold c1; r_ops; simpl; ring.
Qed.

(** The rows of the DFT matrix are orthogonal. *)
Lemma omega_orthogonal n i j :
  i < n → j < n →
  csum n (λ k, cmul (omega n (i * k)) (cmplx_Conj (omega n (k * j))))
  = if decide (i = j) then Cx (INR n) 0%R else c0.
Proof.
  intros Hi Hj. assert (Hn : INR n ≠ 0%R) by (apply not_0_INR; lia).
  set (phi := (2 * PI * (INR j - INR i) / INR n)%R).
  rewrite (csum_ext n _ (λ k, cis (INR k * phi))).
  2:{ intros k _. unfold omega. rewrite <- cis_opp, <- cis_add. f_equal.
      rewrite !mult_INR. unfold phi. field. done. }
  destruct (decide (i = j)) as [->|Hne].
  - rewrite (csum_ext n _ (λ _, c1)).
    + rewrite csum_const. ring.
    + intros k _. rewrite <- cis_0. f_equal. unfold phi. field. done.
  - pose proof (csum_geometric n phi) as Hg.
    replace (INR n * phi)%R with (2 * PI * IZR (Z.of_nat j - Z.of_nat i))%R in Hg
      by (rewrite minus_IZR, <- !INR_IZR_INZ; unfold phi; field; done).
    rewrite cis_int in Hg.
    replace (csub c1 c1) with (c0 (F := R)) in Hg by ring.
    apply cmul_eq_0 in Hg. destruct Hg as [Hg|Hg]; [exfalso|done].
    assert (E : cis phi = c1).
    { transitivity (cadd (csub (cis phi) c1) c1); [ring|]. rewrite Hg. ring. }
    assert (Hi' := lt_INR _ _ Hi). assert (Hj' := lt_INR _ _ Hj).
    assert (Hi0 := pos_INR i). assert (Hj0 := pos_INR j).
    assert (Hn0 : (0 < INR n)%R) by (apply lt_0_INR; lia).
    assert (Hpi := PI_RGT_0).
    assert (Hij : INR i ≠ INR j) by (intros EE; apply INR_eq in EE; done).
    destruct (Rlt_dec (INR i) (INR j)) as [Hlt|Hge].
    + apply (cis_neq_1 phi); [|done]. unfold phi. split.
      * apply Rdiv_lt_0_compat; [|done]. apply Rmult_lt_0_compat; lra.
      * apply Rmult_lt_reg_r with (INR n); [done|].
        unfold Rdiv. rewrite Rmult_assoc, Rinv_l, Rmult_1_r by done.
        apply Rmult_lt_compat_l; lra.
    + apply (cis_neq_1 (- phi)).
      * unfold phi. split.
        -- replace (- (2 * PI * (INR j - INR i) / INR n))%R
             with (2 * PI * (INR i - INR j) / INR n)%R by (field; done).
           apply Rdiv_lt_0_compat; [|done]. apply Rmult_lt_0_compat; lra.
        -- replace (- (2 * PI * (INR j - INR i) / INR n))%R
             with (2 * PI * (INR i - INR j) / INR n)%R by (field; done).
           apply Rmult_lt_reg_r with (INR n); [done|].
           unfold Rdiv. rewrite Rmult_assoc, Rinv_l, Rmult_1_r by done.
           apply Rmult_lt_compat_l; lra.
      * rewrite cis_opp, E. apply complex_eq; unfold c1; r_ops; simpl; ring.
Qed.

End ComplexSums.

(** ** The bit-reversal permutation *)

Section BitReversal.

Lemma reverseBits_top L a r :
  a < 2 → r < 2 ^ L → reverseBits (a * 2 ^ L + r) (S L) = 2 * reverseBits r L + a.
Proof.
  revert r. induction L as [|L IH]; intros r Ha Hr.
  - rewrite Nat.pow_0_r in *. replace r with 0 by lia.
    rewrite reverseBits_S, !reverseBits_0, Nat.pow_0_r.
    rewrite Nat.mod_small by lia. lia.
  - rewrite reverseBits_S, (reverseBits_S r).
    rewrite Nat.pow_succ_r' in *.
    replace (a * (2 * 2 ^ L) + r) with (r + (a * 2 ^ L) * 2) by lia.
    rewrite Nat.Div0.mod_add, Nat.div_add by lia.
    replace (r `div` 2 + a * 2 ^ L) with (a * 2 ^ L + r `div` 2) by lia.
    rewrite IH; [lia|done|].
    apply Nat.Div0.div_lt_upper_bound. lia.
Qed.

Lemma reverseBits_invol L i : i < 2 ^ L → reverseBits (reverseBits i L) L = i.
Proof.
  revert i. induction L as [|L IH]; intros i Hi.
  - rewrite !reverseBits_0. simpl in Hi. lia.
  - rewrite (reverseBits_S i).
    rewrite reverseBits_top; [| apply Nat.mod_upper_bound; lia | apply reverseBits_lt].
    rewrite IH.
    + pose proof (Nat.div_mod_eq i 2). lia.
    + apply Nat.Div0.div_lt_upper_bound. rewrite Nat.pow_succ_r' in Hi. lia.
Qed.

Lemma reverseBits_even L b : reverseBits (2 * b) (S L) = reverseBits b L.
Proof.
  rewrite reverseBits_S. rewrite (Nat.mul_comm 2 b), Nat.Div0.mod_mul, Nat.div_mul by lia.
  lia.
Qed.

Lemma reverseBits_odd L b : reverseBits (2 * b + 1) (S L) = 2 ^ L + reverseBits b L.
Proof.
  rewrite reverseBits_S.
  replace (2 * b + 1) with (1 + b * 2) by lia.
  rewrite Nat.Div0.mod_add, Nat.div_add by lia.
  change (1 `mod` 2) with 1. change (1 `div` 2 + b) with b. lia.
Qed.

Context {F : Type} `{Float64 F}.
Implicit Types (zs cur : list (complex128 F)).

Lemma nth_swapped zs i j p :
  i < length zs → j < length zs →
  nth p (swapped zs i j) c0
  = if decide (p = j) then nth i zs c0
    else if decide (p = i) then nth j zs c0 else nth p zs c0.
Proof.
  intros Hi Hj. unfold swapped. destruct (decide (p = j)) as [->|Hpj].
  - apply nth_insert_eq. by rewrite length_insert.
  - rewrite nth_insert_ne by done. destruct (decide (p = i)) as [->|Hpi].
    + by apply nth_insert_eq.
    + by rewrite nth_insert_ne.
Qed.

(** The swaps up to index [t]: the pairs whose smaller index is below [t] are
    exchanged. *)
Lemma bitReverse_prefix L zs t :
  length zs = 2 ^ L → t ≤ 2 ^ L →
  let cur := fold_left (λ cur i,
               let j := reverseBits i L in
               if i <? j then swapped cur i j else cur) (seq 0 t) zs in
  length cur = 2 ^ L
  ∧ ∀ p, p < 2 ^ L →
      nth p cur c0
      = nth (if p `min` reverseBits p L <? t then reverseBits p L else p) zs c0.
Proof.
  intros Hlen. induction t as [|t IH]; intros Ht cur.
  - subst cur. simpl. split; [done|]. intros p Hp.
    by replace (p `min` reverseBits p L <? 0) with false by (symmetry; apply Nat.ltb_ge; lia).
  - destruct IH as [IHlen IH]; [lia|].
    subst cur. rewrite seq_S, fold_left_snoc. simpl "+".
    set (cur := fold_left _ (seq 0 t) zs) in *. cbv zeta.
    pose proof (reverseBits_lt t L) as Hj.
    pose proof (reverseBits_invol L t ltac:(lia)) as Hinv.
    set (j := reverseBits t L) in *.
    destruct (Nat.ltb_spec t j) as [Hlt|Hge].
    + split; [by rewrite length_swapped|]. intros p Hp.
      rewrite nth_swapped by lia.
      destruct (decide (p = j)) as [->|Hpj]; [|destruct (decide (p = t)) as [->|Hpt]].
      * rewrite IH by lia. fold j. rewrite Hinv.
        replace (j `min` t <? S t) with true by (symmetry; apply Nat.ltb_lt; lia).
        by replace (t `min` j <? t) with false by (symmetry; apply Nat.ltb_ge; lia).
      * rewrite IH by lia. rewrite Hinv. fold j.
        replace (t `min` j <? S t) with true by (symmetry; apply Nat.ltb_lt; lia).
        by replace (j `min` t <? t) with false by (symmetry; apply Nat.ltb_ge; lia).
      * rewrite IH by lia.
        assert (reverseBits p L ≠ t).
        { intros E. apply Hpj. unfold j. by rewrite <- E, reverseBits_invol. }
        destruct (Nat.ltb_spec (p `min` reverseBits p L) t);
          destruct (Nat.ltb_spec (p `min` reverseBits p L) (S t)); try done; lia.
    + split; [done|]. intros p Hp. rewrite IH by lia.
      destruct (Nat.ltb_spec (p `min` reverseBits p L) t);
        destruct (Nat.ltb_spec (p `min` reverseBits p L) (S t)); try done; try lia.
      assert (p = t) as ->.
      { destruct (decide (p = t)) as [|Hne]; [done|].
        assert (E : reverseBits p L = t) by lia.
        assert (p = j) by (unfold j; by rewrite <- E, reverseBits_invol). lia. }
      fold j. f_equal. lia.
Qed.

Lemma nth_bitReverse_list L zs p :
  length zs = 2 ^ L → p < 2 ^ L →
  nth p (bitReverse_list zs) c0 = nth (reverseBits p L) zs c0.
Proof.
  intros Hlen Hp. unfold bitReverse_list. rewrite Hlen, ilog2_pow2.
  destruct (bitReverse_prefix L zs (2 ^ L) Hlen (le_n _)) as [_ Hnth].
  rewrite Hnth by done.
  pose proof (reverseBits_lt p L).
  by replace (p `min` reverseBits p L <? 2 ^ L) with true by (symmetry; apply Nat.ltb_lt; lia).
Qed.

End BitReversal.

(** ** The butterflies, element by element *)

Section Butterflies.

Context {F : Type} `{Float64 F}.
Implicit Types (zs cur : list (complex128 F)) (wm : complex128 F).

(** After [t] butterflies of the span at [k]: the first [t] pairs are
    combined with the powers of [wm], the rest of the array is untouched. *)
Lemma butterflies_prefix m k wm zs t :
  let h := m / 2 in
  t ≤ h → k + h + h ≤ length zs →
  let st := fold_left (butterfly_step m k wm) (seq 0 t) (c1, zs) in
  fst st = cpow wm t
  ∧ length (snd st) = length zs
  ∧ (∀ j, j < t →
       nth (k + j) (snd st) c0
       = cadd (nth (k + j) zs c0) (cmul (cpow wm j) (nth (k + j + h) zs c0))
       ∧ nth (k + j + h) (snd st) c0
         = csub (nth (k + j) zs c0) (cmul (cpow wm j) (nth (k + j + h) zs c0)))
  ∧ (∀ p, ¬ (k ≤ p < k + t) → ¬ (k + h ≤ p < k + h + t) →
       nth p (snd st) c0 = nth p zs c0).
Proof.
  intros h. induction t as [|t IH]; intros Ht Hlen st.
  - subst st. simpl. split; [done|]. split; [done|]. split; [intros; lia|done].
  - destruct IH as (IHw & IHlen & IHin & IHout); [lia|done|].
    subst st. rewrite seq_S, fold_left_snoc. simpl "+".
    set (st := fold_left _ (seq 0 t) (c1, zs)) in *.
    unfold butterfly_step. fold h. cbn [fst snd].
    assert (Hu : nth (k + t) (snd st) c0 = nth (k + t) zs c0) by (apply IHout; lia).
    assert (Hv : nth (k + t + h) (snd st) c0 = nth (k + t + h) zs c0)
      by (apply IHout; lia).
    rewrite IHw, Hu, Hv.
    split; [done|]. split; [by rewrite !length_insert|]. split.
    + intros j Hj. destruct (decide (j = t)) as [->|Hne].
      * split.
        -- rewrite nth_insert_ne by lia. apply nth_insert_eq. lia.
        -- apply nth_insert_eq. rewrite length_insert. lia.
      * destruct (IHin j ltac:(lia)) as [E1 E2]. split.
        -- by rewrite !nth_insert_ne by lia.
        -- by rewrite !nth_insert_ne by lia.
    + intros p Hp1 Hp2. rewrite !nth_insert_ne by lia. apply IHout; lia.
Qed.

Lemma butterflies_list_spec m k wm zs :
  let h := m / 2 in
  k + h + h ≤ length zs →
  length (butterflies_list m k wm zs) = length zs
  ∧ (∀ j, j < h →
       nth (k + j) (butterflies_list m k wm zs) c0
       = cadd (nth (k + j) zs c0) (cmul (cpow wm j) (nth (k + j + h) zs c0))
       ∧ nth (k + j + h) (butterflies_list m k wm zs) c0
         = csub (nth (k + j) zs c0) (cmul (cpow wm j) (nth (k + j + h) zs c0)))
  ∧ (∀ p, ¬ (k ≤ p < k + h + h) → nth p (butterflies_list m k wm zs) c0 = nth p zs c0).
Proof.
  intros h Hlen.
  destruct (butterflies_prefix m k wm zs h (le_n _) Hlen) as (_ & Hl & Hin & Hout).
  unfold butterflies_list. fold h. split; [done|]. split; [done|].
  intros p Hp. apply Hout; lia.
Qed.

(** One stage: the spans of [m = 2 h] elements, one after the other. *)
Lemma stage_prefix m c wm zs B :
  let h := m / 2 in
  h + h = m → B ≤ c → length zs = c * m →
  let cur := fold_left (λ cur k, butterflies_list m k wm cur)
               (map (λ q, q * m) (seq 0 B)) zs in
  length cur = length zs
  ∧ (∀ b j, b < B → j < h →
       nth (b * m + j) cur c0
       = cadd (nth (b * m + j) zs c0) (cmul (cpow wm j) (nth (b * m + j + h) zs c0))
       ∧ nth (b * m + j + h) cur c0
         = csub (nth (b * m + j) zs c0) (cmul (cpow wm j) (nth (b * m + j + h) zs c0)))
  ∧ (∀ p, B * m ≤ p → nth p cur c0 = nth p zs c0).
Proof.
  intros h Hm. induction B as [|B IH]; intros HB Hlen cur.
  - subst cur. simpl. split; [done|]. split; [intros; lia|done].
  - destruct IH as (IHlen & IHin & IHout); [lia|done|].
    subst cur. rewrite seq_S, map_app, fold_left_app. simpl "+". cbn [map fold_left].
    set (cur := fold_left _ (map _ (seq 0 B)) zs) in *.
    assert (Hspan : B * m + h + h ≤ length cur) by nia.
    destruct (butterflies_list_spec m (B * m) wm cur Hspan) as (Hl & Hin & Hout).
    fold h in Hin, Hout.
    split; [lia|]. split.
    + intros b j Hb Hj. destruct (decide (b = B)) as [->|Hne].
      * destruct (Hin j Hj) as [E1 E2]. rewrite E1, E2.
        by rewrite !IHout by lia.
      * assert (b * m + m ≤ B * m) by nia.
        rewrite !Hout by lia. apply IHin; lia.
    + intros p Hp. rewrite Hout by lia. apply IHout. lia.
Qed.

Lemma stage_list_spec L s zs :
  1 ≤ s ≤ L → length zs = 2 ^ L →
  let m := 2 ^ s in
  let h := 2 ^ (s - 1) in
  length (stage_list (2 ^ L) zs s) = 2 ^ L
  ∧ ∀ b j, b < 2 ^ (L - s) → j < h →
      nth (b * m + j) (stage_list (2 ^ L) zs s) c0
      = cadd (nth (b * m + j) zs c0)
             (cmul (cpow (twiddle m) j) (nth (b * m + j + h) zs c0))
      ∧ nth (b * m + j + h) (stage_list (2 ^ L) zs s) c0
        = csub (nth (b * m + j) zs c0)
               (cmul (cpow (twiddle m) j) (nth (b * m + j + h) zs c0)).
Proof.
  intros Hs Hlen m h.
  assert (Hm : m = 2 * h).
  { unfold m, h. rewrite <- Nat.pow_succ_r'. f_equal. lia. }
  assert (Hh : m / 2 = h) by (rewrite Hm, Nat.mul_comm; apply Nat.div_mul; lia).
  assert (Hn : 2 ^ L = 2 ^ (L - s) * m).
  { unfold m. rewrite <- Nat.pow_add_r. f_equal. lia. }
  assert (Hpos : 0 < m) by (unfold m; apply Nat.neq_0_lt_0, Nat.pow_nonzero; lia).
  assert (E : range_step 0 (2 ^ L) m = map (λ q, q * m) (seq 0 (2 ^ (L - s)))).
  { rewrite Hn. by apply range_step_seq. }
  unfold stage_list. fold m. rewrite E.
  destruct (stage_prefix m (2 ^ (L - s)) (twiddle m) zs (2 ^ (L - s))) as (Hl & Hin & _);
    [lia|done|lia|].
  rewrite Hh in Hin. split; [lia|]. intros b j Hb Hj. by apply Hin.
Qed.

End Butterflies.

(** ** The stages compute the DFT *)

Section FFTCorrect.
Implicit Types (xs zs : list (complex128 R)) (L s b p q j : nat).

Lemma pow2_nonzero s : 2 ^ s ≠ 0.
Proof. apply Nat.pow_nonzero. lia. Qed.

(** The recursion of the decimation in time. *)
Lemma partial_dft_split L xs s b j :
  S s ≤ L → j < 2 ^ s →
  partial_dft L xs (S s) b j
  = cadd (partial_dft L xs s (2 * b) j)
         (cmul (omega (2 ^ S s) j) (partial_dft L xs s (2 * b + 1) j))
  ∧ partial_dft L xs (S s) b (j + 2 ^ s)
    = csub (partial_dft L xs s (2 * b) j)
           (cmul (omega (2 ^ S s) j) (partial_dft L xs s (2 * b + 1) j)).
Proof.
  intros Hs Hj. pose proof (pow2_nonzero s) as Hpos.
  unfold partial_dft. rewrite Nat.pow_succ_r'.
  replace (L - s) with (S (L - S s)) by lia.
  set (c := L - S s). set (r := reverseBits b c).
  rewrite reverseBits_even, reverseBits_odd. fold r.
  rewrite !csum_even_odd.
  assert (Eidx0 : ∀ q, 2 * q * 2 ^ c + r = q * 2 ^ S c + r).
  { intros q. rewrite Nat.pow_succ_r'. lia. }
  assert (Eidx1 : ∀ q, (2 * q + 1) * 2 ^ c + r = q * 2 ^ S c + (2 ^ c + r)).
  { intros q. rewrite Nat.pow_succ_r'. lia. }
  split.
  - f_equal.
    + apply csum_ext. intros q _. rewrite Eidx0.
      replace (2 * q * j) with (2 * (q * j)) by lia.
      by rewrite omega_double.
    + rewrite <- csum_mul_l. apply csum_ext. intros q _. rewrite Eidx1.
      replace ((2 * q + 1) * j) with (2 * (q * j) + j) by lia.
      rewrite omega_add, omega_double by done. ring.
  - match goal with |- _ = csub ?E (cmul ?w ?O) =>
      transitivity (cadd E (cmul (cmul (copp c1) w) O)); [|ring] end.
    f_equal.
    + apply csum_ext. intros q _. rewrite Eidx0.
      replace (2 * q * (j + 2 ^ s)) with (2 * (q * j + 2 ^ s * q)) by lia.
      rewrite omega_double, omega_add, omega_mul_full by done. ring.
    + rewrite <- csum_mul_l. apply csum_ext. intros q _. rewrite Eidx1.
      replace ((2 * q + 1) * (j + 2 ^ s))
        with (2 * (q * j + 2 ^ s * q) + (j + 2 ^ s)) by lia.
      rewrite (omega_add _ (2 * _)), omega_double by done.
      rewrite (omega_add _ j), omega_half by done.
      rewrite (omega_add _ (q * j)), omega_mul_full by done. ring.
Qed.

Lemma partial_dft_0 L xs b : partial_dft L xs 0 b 0 = nth (reverseBits b L) xs c0.
Proof.
  unfold partial_dft. rewrite Nat.pow_0_r, Nat.sub_0_r. cbn [csum].
  rewrite Nat.mul_0_l, omega_0. simpl. ring.
Qed.

Lemma partial_dft_full xs L p :
  length xs = 2 ^ L → partial_dft L xs L 0 p = dft xs p.
Proof.
  intros Hlen. unfold partial_dft, dft. rewrite Hlen, Nat.sub_diag, reverseBits_0.
  apply csum_ext. intros q _. rewrite Nat.pow_0_r. do 2 f_equal. lia.
Qed.

(** After the stages 1 to [s], position [b * 2^s + p] holds [partial_dft]. *)
Lemma stages_dft L xs s :
  length xs = 2 ^ L → s ≤ L →
  let zs := fold_left (stage_list (2 ^ L)) (seq 1 s) (bitReverse_list xs) in
  length zs = 2 ^ L
  ∧ ∀ b p, b < 2 ^ (L - s) → p < 2 ^ s →
      nth (b * 2 ^ s + p) zs c0 = partial_dft L xs s b p.
Proof.
  intros Hlen. induction s as [|s IH]; intros Hs zs.
  - subst zs. cbn [seq fold_left]. split; [by rewrite length_bitReverse_list|].
    intros b p Hb Hp. rewrite Nat.sub_0_r in Hb. rewrite Nat.pow_0_r in *.
    replace p with 0 by lia.
    rewrite partial_dft_0, Nat.mul_1_r, Nat.add_0_r.
    by apply nth_bitReverse_list.
  - destruct IH as [IHlen IH]; [lia|].
    subst zs. rewrite seq_S, fold_left_snoc. change (1 + s) with (S s).
    set (zs := fold_left _ (seq 1 s) (bitReverse_list xs)) in *.
    destruct (stage_list_spec L (S s) zs ltac:(lia) IHlen) as [Hl Hst].
    cbv zeta in Hst. replace (S s - 1) with s in Hst by lia.
    split; [done|]. intros b p Hb Hp.
    assert (Hb2 : 2 * b + 1 < 2 ^ (L - s)).
    { replace (L - s) with (S (L - S s)) by lia. rewrite Nat.pow_succ_r'. lia. }
    assert (Estep : ∀ j, j < 2 ^ s →
      nth (b * 2 ^ S s + j) zs c0 = partial_dft L xs s (2 * b) j
      ∧ nth (b * 2 ^ S s + j + 2 ^ s) zs c0 = partial_dft L xs s (2 * b + 1) j).
    { intros j Hj. split.
      - rewrite <- IH by (done || lia). f_equal. rewrite Nat.pow_succ_r'. lia.
      - rewrite <- IH by (done || lia). f_equal. rewrite Nat.pow_succ_r'. lia. }
    destruct (le_lt_dec (2 ^ s) p) as [Hhi|Hlo].
    + set (j := p - 2 ^ s). assert (Hj : j < 2 ^ s).
      { unfold j. rewrite Nat.pow_succ_r' in Hp. lia. }
      replace p with (j + 2 ^ s) by (unfold j; lia).
      destruct (Hst b j Hb Hj) as [_ E]. rewrite Nat.add_assoc, E.
      destruct (Estep j Hj) as [-> ->].
      rewrite twiddle_omega, cpow_omega.
      by destruct (partial_dft_split L xs s b j Hs Hj) as [_ ->].
    + destruct (Hst b p Hb Hlo) as [E _]. rewrite E.
      destruct (Estep p Hlo) as [-> ->].
      rewrite twiddle_omega, cpow_omega.
      by destruct (partial_dft_split L xs s b p Hs Hlo) as [-> _].
Qed.

(** [fft_list] is the discrete Fourier transform. *)
Theorem fft_list_dft xs L : length xs = 2 ^ L → fft_list xs = dft_list xs.
Proof.
  intros Hlen. unfold fft_list. rewrite Hlen, ilog2_pow2.
  destruct (stages_dft L xs L Hlen (le_n _)) as [Hl Hnth].
  apply (nth_ext _ _ c0 c0).
  - unfold dft_list. by rewrite length_map, length_seq, Hlen.
  - intros p Hp. rewrite Hl in Hp.
    specialize (Hnth 0 p). rewrite Nat.sub_diag in Hnth. simpl "+" in Hnth.
    rewrite Hnth by (done || simpl; lia).
    unfold dft_list. rewrite Hlen.
    rewrite (nth_indep _ c0 (dft xs 0)) by (by rewrite length_map, length_seq).
    rewrite (map_nth (dft xs)), seq_nth by done.
    by apply partial_dft_full.
Qed.

End FFTCorrect.

(** ** The inverse transform *)

Section Inversion.
Implicit Types (xs zs : list (complex128 R)) (L n k j : nat).


Lemma length_dft_list xs : length (dft_list xs) = length xs.
Proof. unfold dft_list. by rewrite length_map, length_seq. Qed.

Lemma nth_dft_list xs k : k < length xs → nth k (dft_list xs) c0 = dft xs k.
Proof.
  intros Hk. unfold dft_list.
  rewrite (nth_indep _ c0 (dft xs 0)) by (by rewrite length_map, length_seq).
  by rewrite (map_nth (dft xs)), seq_nth.
Qed.

Lemma nth_map_conj zs k :
  nth k (map cmplx_Conj zs) c0 = cmplx_Conj (nth k zs c0).
Proof. rewrite <- (map_nth cmplx_Conj). by rewrite cmplx_Conj_0. Qed.

(** The conjugate of the DFT of the conjugate of the DFT is [n] times the
    input. *)
Lemma dft_inverse xs n :
  n < length xs →
  cmplx_Conj (dft (map cmplx_Conj (dft_list xs)) n)
  = cmul (nth n xs c0) (Cx (INR (length xs)) 0%R).
Proof.
  intros Hn. unfold dft at 1. rewrite length_map, length_dft_list.
  set (N := length xs) in *.
  rewrite csum_conj.
  rewrite (csum_ext N _ (λ k, csum N (λ j,
             cmul (nth j xs c0)
                  (cmul (omega N (j * k)) (cmplx_Conj (omega N (k * n))))))).
  2:{ intros k Hk. rewrite nth_map_conj, nth_dft_list by done.
      rewrite cmplx_Conj_mul, cmplx_Conj_invol. unfold dft. fold N.
      set (c := cmplx_Conj (omega N (k * n))).
      transitivity (cmul c (csum N (λ j, cmul (nth j xs c0) (omega N (j * k)))));
        [ring|].
      rewrite <- csum_mul_l. apply csum_ext. intros j _. ring. }
  rewrite csum_swap.
  rewrite (csum_ext N _ (λ j,
             cmul (nth j xs c0) (if decide (j = n) then Cx (INR N) 0%R else c0))).
  2:{ intros j Hj. rewrite csum_mul_l. f_equal. by apply omega_orthogonal. }
  by apply csum_single.
Qed.


End Inversion.

(** ** [IFFT] after [FFT] *)

Section RoundTrip.
Implicit Types (h : heap R) (s : slice) (xs : list (complex128 R)).



End RoundTrip.


(** In IEEE arithmetic an input of that range comes back within the
    tolerance, not unchanged: for [x = (0.1, 0.2)], whatever the functions of
    the math package are, the round trip returns
    [(0.10000000000000002, 0.2 - 0i)]. *)
Lemma FFT_roundtrip_binary64_rounding (G : GoMath) :
  ∃ X h1 ys,
    FFT (H := prim_Float64 G) (Some 0)
        [CArr [Cx 0x1.999999999999ap-4%float 0%float;
               Cx 0x1.999999999999ap-3%float 0%float]] = Ok X h1
    ∧ resultC (IFFT (H := prim_Float64 G) X h1) = Some ys
    ∧ ys = [Cx 0x1.999999999999bp-4%float 0%float;
            Cx 0x1.999999999999ap-3%float (-0)%float]
    ∧ ∀ i x r, [Cx 0x1.999999999999ap-4%float 0%float;
                Cx 0x1.999999999999ap-3%float 0%float] !! i = Some x →
               ys !! i = Some r → prim_within 1e-9 r x.
Proof.
  eexists _, _, _. split; [vm_compute; reflexivity|].
  split; [vm_compute; reflexivity|]. split; [reflexivity|].
  intros [|[|i]] x r Hx Hr; [| |done].
  - injection Hx as <-. injection Hr as <-. vm_compute. discriminate.
  - injection Hx as <-. injection Hr as <-. vm_compute. discriminate.
Qed.

(** * More of the FFT kernel *)

Section KernelIntegers.

(** [isPowerOf2]: the test [n > 0 && n&(n-1) == 0] holds exactly for the
    powers of two. *)
Theorem isPowerOf2_characterization n : isPowerOf2 n = true ↔ ∃ L, n = 2 ^ L.
Proof. apply isPowerOf2_spec. Qed.

Lemma testbit_split a r b i :
  r < 2 ^ b →
  Nat.testbit (a * 2 ^ b + r) i
  = if i <? b then Nat.testbit r i else Nat.testbit a (i - b).
Proof.
  intros Hr. assert (Hpos : 2 ^ b ≠ 0) by (apply Nat.pow_nonzero; lia).
  destruct (Nat.ltb_spec i b) as [Hi|Hi].
  - rewrite <- (Nat.mod_pow2_bits_low _ b i Hi).
    rewrite Nat.add_comm, Nat.Div0.mod_add, Nat.mod_small by done.
    done.
  - replace i with (i - b + b) at 1 by lia.
    rewrite <- Nat.div_pow2_bits.
    rewrite Nat.div_add_l, Nat.div_small by done. by rewrite Nat.add_0_r.
Qed.

(** [reverseBits v bits], for at most 63 bits (the result fits Go's [int]):
    bit [i] of the result is bit [bits - 1 - i] of [v], for [i < bits]; the
    bits from [bits] up are zero, whatever the higher bits of [v] are. *)
Theorem reverseBits_testbit v bits i :
  bits ≤ 63 →
  Nat.testbit (reverseBits v bits) i
  = if i <? bits then Nat.testbit v (bits - 1 - i) else false.
Proof.
  intros _. revert v i. induction bits as [|b IH]; intros v i.
  - rewrite reverseBits_0. apply Nat.bits_0.
  - rewrite reverseBits_S, testbit_split by apply reverseBits_lt.
    destruct (Nat.ltb_spec i b) as [Hi|Hi].
    + rewrite IH. destruct (Nat.ltb_spec i b) as [_|]; [|lia].
      destruct (Nat.ltb_spec i (S b)) as [_|]; [|lia].
      change (v `div` 2) with (v / 2 ^ 1). rewrite Nat.div_pow2_bits.
      f_equal. lia.
    + change (v `mod` 2) with (v mod 2 ^ 1).
      destruct (Nat.ltb_spec i (S b)) as [Hlt|Hge].
      * replace (i - b) with 0 by lia. replace (S b - 1 - i) with 0 by lia.
        apply Nat.mod_pow2_bits_low. lia.
      * apply Nat.mod_pow2_bits_high. lia.
Qed.

Lemma reverseBits_testbit_witness :
  3 ≤ 63
  ∧ Nat.testbit (reverseBits 6 3) 0 = if 0 <? 3 then Nat.testbit 6 (3 - 1 - 0) else false.
Proof.
  assert (H3 : 3 ≤ 63) by lia.
  exact (conj H3 (reverseBits_testbit 6 3 0 H3)).
Defined.

(** On the values below [2^bits] (at most 63 bits), [reverseBits] is a
    permutation that is its own inverse. *)
Theorem reverseBits_involution v bits :
  bits ≤ 63 → v < 2 ^ bits →
  reverseBits v bits < 2 ^ bits ∧ reverseBits (reverseBits v bits) bits = v.
Proof. intros _ Hv. split; [apply reverseBits_lt|by apply reverseBits_invol]. Qed.

Lemma reverseBits_involution_witness :
  3 ≤ 63 ∧ 6 < 2 ^ 3 ∧ reverseBits 6 3 < 2 ^ 3 ∧ reverseBits (reverseBits 6 3) 3 = 6.
Proof.
  assert (H3 : 3 ≤ 63) by lia.
  assert (H6 : 6 < 2 ^ 3) by (simpl; lia).
  exact (conj H3 (conj H6 (reverseBits_involution 6 3 H3 H6))).
Defined.

End KernelIntegers.

Section KernelArrays.
Context {F : Type} `{Float64 F}.
Implicit Types (h : heap F) (s : slice) (zs : list (complex128 F)).

Lemma bitReverse_list_invol zs L :
  length zs = 2 ^ L → bitReverse_list (bitReverse_list zs) = zs.
Proof using Type*.
  intros Hlen. apply (nth_ext _ _ c0 c0).
  - by rewrite !length_bitReverse_list.
  - intros i Hi. rewrite !length_bitReverse_list, Hlen in Hi.
    rewrite (nth_bitReverse_list L) by (by rewrite ?length_bitReverse_list).
    rewrite (nth_bitReverse_list L) by (done || apply reverseBits_lt).
    by rewrite reverseBits_invol.
Qed.

(** [bitReverse] on an array of [2^L] elements: element [i] of the result is
    element [reverseBits i L] of the input, and a second call restores the
    array. *)
Theorem bitReverse_permutes h l zs L :
  h !! l = Some (CArr zs) → length zs = 2 ^ L →
  ∃ ys, bitReverse (Some l) h = Ok tt (<[l := CArr ys]> h)
        ∧ length ys = length zs
        ∧ (∀ i, i < 2 ^ L → ys !! i = zs !! reverseBits i L)
        ∧ bitReverse (Some l) (<[l := CArr ys]> h) = Ok tt h.
Proof using Type*.
  intros Hl Hlen. pose proof (lookup_lt_Some _ _ _ Hl) as Hlt.
  assert (Hrange : ∀ ws : list (complex128 F), length ws = 2 ^ L →
            ∀ i, i < length ws → reverseBits i (ilog2 (length ws)) < length ws).
  { intros ws Hw i Hi. rewrite Hw in *. by apply reverseBits_in_range. }
  destruct (bitReverse_run h l zs Hl (Hrange zs Hlen)) as [Hr Hrl].
  exists (bitReverse_list zs). split; [done|]. split; [done|]. split.
  - intros i Hi. pose proof (reverseBits_lt i L) as Hj.
    destruct (lookup_lt_is_Some_2 (bitReverse_list zs) i) as [y Hy]; [lia|].
    destruct (lookup_lt_is_Some_2 zs (reverseBits i L)) as [z Hz]; [lia|].
    rewrite Hy, Hz. f_equal.
    rewrite <- (nth_lookup_Some' _ _ c0 _ Hy), <- (nth_lookup_Some' _ _ c0 _ Hz).
    by apply nth_bitReverse_list.
  - destruct (bitReverse_run (<[l := CArr (bitReverse_list zs)]> h) l (bitReverse_list zs))
      as [Hr2 _].
    { by apply list_lookup_insert_eq. }
    { apply Hrange. by rewrite Hrl. }
    rewrite Hr2, list_insert_insert_eq, (bitReverse_list_invol zs L Hlen).
    by rewrite list_insert_id.
Qed.

Lemma IFFT_panic h l zs :
  h !! l = Some (CArr zs) → length zs ≠ 0 → isPowerOf2 (length zs) = false →
  IFFT (Some l) h = Panic InvalidLength.
Proof.
  intros Hl Hn Hp. pose proof (lookup_lt_Some _ _ _ Hl) as Hlt.
  unfold IFFT. rewrite (bind_Ok _ _ _ _ _ (lenC_Ok _ _ _ Hl)).
  destruct (Nat.eqb_spec (length zs) 0) as [|_]; [lia|]. unfold makeC.
  rewrite (bind_Ok _ _ _ (Some (length h)) (h ++ [CArr (replicate (length zs) c0)])) by done.
  erewrite bind_Ok; cycle 1.
  { eapply (for_updateC_run _ (length h) _ _ _ (λ i _, cmplx_Conj (nth i zs c0))).
    - apply lookup_alloc_new.
    - by rewrite length_replicate.
    - intros i x cur Hx Hc Hlc. rewrite !insert_alloc_new.
      destruct (lookup_lt_is_Some_2 zs i) as [v Hv].
      { apply lookup_lt_Some in Hx. by rewrite length_replicate in Hx. }
      erewrite bind_Ok; [|eapply getC_Ok; [by rewrite lookup_alloc_old|done]].
      erewrite setC_Ok; [|apply lookup_alloc_new|by apply lookup_lt_Some in Hc].
      rewrite insert_alloc_new. by rewrite (nth_lookup_Some' _ _ _ _ Hv). }
  rewrite insert_alloc_new, imap_replicate_const, (map_seq_nth cmplx_Conj).
  unfold bind at 1.
  rewrite (FFT_panic _ _ (map cmplx_Conj zs)); [done|apply lookup_alloc_new|..];
    by rewrite length_map.
Qed.

(** [IFFT] fails as [FFT] does: with InvalidLength exactly when the length of
    its input is not zero and not a power of two; an empty input gives the nil
    slice; on a power of two it returns as many elements. *)
Theorem IFFT_failure h s zs :
  holdsC h s zs →
  (IFFT s h = Panic InvalidLength ↔ length zs ≠ 0 ∧ ¬ ∃ L, length zs = 2 ^ L)
  ∧ (length zs = 0 → IFFT s h = Ok None h)
  ∧ ((∃ L, length zs = 2 ^ L) →
       ∃ ys, resultC (IFFT s h) = Some ys ∧ length ys = length zs).
Proof.
  intros Hs.
  assert (E0 : length zs = 0 → IFFT s h = Ok None h).
  { intros ->%length_zero_iff_nil. destruct s; [by apply IFFT_empty|apply IFFT_nil]. }
  assert (E2 : (∃ L, length zs = 2 ^ L) →
               ∃ ys, resultC (IFFT s h) = Some ys ∧ length ys = length zs).
  { intros [L HL]. destruct s as [l|].
    - destruct (IFFT_run h l zs L Hs HL) as [Hr Hrl].
      exists (ifft_list zs). split; [|done]. rewrite Hr. cbn [resultC].
      replace (S (length h)) with (length h + 1) by lia.
      rewrite lookup_app_r by lia. by replace (length h + 1 - length h) with 1 by lia.
    - simpl in Hs. subst zs. simpl in HL.
      assert (2 ^ L ≠ 0) by (apply Nat.pow_nonzero; lia). lia. }
  split; [|by split]. split.
  - intros Hp. split.
    + intros E. rewrite (E0 E) in Hp. discriminate.
    + intros HL. destruct (E2 HL) as (ys & Hr & _). rewrite Hp in Hr. discriminate.
  - intros [Hn HL]. destruct s as [l|]; [|simpl in Hs; by subst zs].
    apply (IFFT_panic h l zs Hs Hn).
    destruct (isPowerOf2 (length zs)) eqn:E; [|done].
    exfalso. apply HL. by apply isPowerOf2_spec.
Qed.

End KernelArrays.

Lemma bitReverse_permutes_witness :
  ([CArr [Cx 0%R 0%R; Cx 1%R 0%R; Cx 2%R 0%R; Cx 3%R 0%R]] : heap R) !! 0
  = Some (CArr [Cx 0%R 0%R; Cx 1%R 0%R; Cx 2%R 0%R; Cx 3%R 0%R])
  ∧ length [Cx 0%R 0%R; Cx 1%R 0%R; Cx 2%R 0%R; Cx 3%R 0%R] = 2 ^ 2
  ∧ ∃ ys, bitReverse (Some 0) [CArr [Cx 0%R 0%R; Cx 1%R 0%R; Cx 2%R 0%R; Cx 3%R 0%R]]
          = Ok tt (<[0 := CArr ys]>
                     [CArr [Cx 0%R 0%R; Cx 1%R 0%R; Cx 2%R 0%R; Cx 3%R 0%R]])
        ∧ length ys = 4.
Proof.
  split; [reflexivity|]. split; [reflexivity|].
  destruct (bitReverse_permutes
              [CArr [Cx 0%R 0%R; Cx 1%R 0%R; Cx 2%R 0%R; Cx 3%R 0%R]] 0
              [Cx 0%R 0%R; Cx 1%R 0%R; Cx 2%R 0%R; Cx 3%R 0%R] 2
              eq_refl eq_refl) as (ys & Hr & Hl & _).
  exists ys. split; [exact Hr|exact Hl].
Defined.

Lemma IFFT_failure_witness :
  holdsC ([CArr [Cx 1%R 0%R; Cx 2%R 0%R; Cx 3%R 0%R]] : heap R) (Some 0)
         [Cx 1%R 0%R; Cx 2%R 0%R; Cx 3%R 0%R]
  ∧ IFFT (Some 0) ([CArr [Cx 1%R 0%R; Cx 2%R 0%R; Cx 3%R 0%R]] : heap R)
    = Panic InvalidLength.
Proof.
  split; [reflexivity|].
  destruct (IFFT_failure [CArr [Cx 1%R 0%R; Cx 2%R 0%R; Cx 3%R 0%R]] (Some 0)
              [Cx 1%R 0%R; Cx 2%R 0%R; Cx 3%R 0%R] eq_refl) as [[_ Hp] _].
  apply Hp. split; [simpl; lia|]. intros [L HL]. simpl in HL.
  destruct L as [|[|[|L]]]; simpl in HL; lia.
Defined.

(** ** [NextPowerOf2] *)

Section NextPower.
Local Open Scope Z_scope.

Lemma int64_wrap_small z : - 2 ^ 63 ≤ z < 2 ^ 63 → int64_wrap z = z.
Proof. intros Hz. unfold int64_wrap. rewrite Z.mod_small; lia. Qed.

Lemma shiftl_1 p : Z.shiftl p 1 = 2 * p.
Proof. rewrite Z.shiftl_mul_pow2 by lia. lia. Qed.

Lemma pow2_le_mono (a b : nat) : (a ≤ b)%nat → 2 ^ Z.of_nat a ≤ 2 ^ Z.of_nat b.
Proof. intros Hab. apply Z.pow_le_mono_r; lia. Qed.

Lemma pow2_S (j : nat) : 2 ^ Z.of_nat (S j) = 2 * 2 ^ Z.of_nat j.
Proof. rewrite Nat2Z.inj_succ, Z.pow_succ_r by lia. done. Qed.

(** The loop from [p = 2^j], for [n <= 2^62]: it ends within [62 - j]
    iterations at the first power of two that is not below [n]. *)
Lemma NextPowerOf2_loop_run (d j fuel : nat) n :
  (j + d = 62)%nat → (d ≤ fuel)%nat → n ≤ 2 ^ 62 →
  ∃ k : nat, (j ≤ k ≤ 62)%nat
    ∧ NextPowerOf2_loop fuel (2 ^ Z.of_nat j) n = Some (2 ^ Z.of_nat k)
    ∧ n ≤ 2 ^ Z.of_nat k
    ∧ (k = j ∨ 2 ^ Z.of_nat k < 2 * n).
Proof.
  revert j fuel. induction d as [|d IH]; intros j fuel Hj Hfuel Hn.
  - exists j. split; [lia|].
    assert (E : 2 ^ Z.of_nat j = 2 ^ 62) by (f_equal; lia).
    destruct fuel; simpl; destruct (Z.ltb_spec (2 ^ Z.of_nat j) n); try lia; auto.
  - destruct (Z.ltb_spec (2 ^ Z.of_nat j) n) as [Hlt|Hge].
    + destruct fuel as [|fuel]; [lia|].
      assert (Hb : 2 ^ Z.of_nat (S j) ≤ 2 ^ 62).
      { change 62 with (Z.of_nat 62). apply pow2_le_mono. lia. }
      destruct (IH (S j) fuel) as (k & Hk & Hr & Hle & Hmin); [lia..|].
      exists k. split; [lia|].
      cbn [NextPowerOf2_loop]. destruct (Z.ltb_spec (2 ^ Z.of_nat j) n); [|lia].
      rewrite shiftl_1, <- pow2_S, int64_wrap_small by lia.
      split; [done|]. split; [done|]. right.
      destruct Hmin as [->|]; [|done]. rewrite pow2_S. lia.
    + exists j. split; [lia|]. split; [|split; [lia|by left]].
      destruct fuel; simpl; destruct (Z.ltb_spec (2 ^ Z.of_nat j) n); try lia; auto.
Qed.

Lemma isPowerOf2_of_Z (k : nat) : isPowerOf2 (Z.to_nat (2 ^ Z.of_nat k)) = true.
Proof.
  replace (Z.to_nat (2 ^ Z.of_nat k)) with (2 ^ k)%nat.
  - apply isPowerOf2_pow2.
  - rewrite <- (Nat2Z.id (2 ^ k)), Nat2Z.inj_pow. done.
Qed.

(** For [n <= 2^62], [NextPowerOf2] returns (within 62 iterations) the
    smallest power of two that is at least [n]; it is 1 for [n <= 1],
    negative [n] included.  [isPowerOf2] accepts the result. *)
Theorem NextPowerOf2_spec (fuel : nat) n :
  (62 ≤ fuel)%nat → n ≤ 2 ^ 62 →
  ∃ k : nat, (k ≤ 62)%nat
    ∧ NextPowerOf2 fuel n = Some (2 ^ Z.of_nat k)
    ∧ n ≤ 2 ^ Z.of_nat k
    ∧ (k = 0%nat ∨ 2 ^ Z.of_nat k < 2 * n)
    ∧ isPowerOf2 (Z.to_nat (2 ^ Z.of_nat k)) = true.
Proof.
  intros Hfuel Hn. unfold NextPowerOf2.
  destruct (Z.leb_spec n 1) as [H1|H1].
  - exists 0%nat. split; [lia|]. split; [done|]. split; [simpl; lia|].
    split; [by left|apply isPowerOf2_of_Z].
  - destruct (NextPowerOf2_loop_run 62 0 fuel n) as (k & Hk & Hr & Hle & Hmin);
      [lia..|].
    exists k. split; [lia|]. split; [done|]. split; [done|].
    split; [done|apply isPowerOf2_of_Z].
Qed.

Lemma NextPowerOf2_spec_witness :
  (62 ≤ 62)%nat ∧ 1000 ≤ 2 ^ 62
  ∧ ∃ k : nat, (k ≤ 62)%nat
    ∧ NextPowerOf2 62 1000 = Some (2 ^ Z.of_nat k)
    ∧ 1000 ≤ 2 ^ Z.of_nat k
    ∧ (k = 0%nat ∨ 2 ^ Z.of_nat k < 2 * 1000)
    ∧ isPowerOf2 (Z.to_nat (2 ^ Z.of_nat k)) = true.
Proof.
  assert (H1 : (62 ≤ 62)%nat) by lia.
  assert (H2 : 1000 ≤ 2 ^ 62) by (vm_compute; discriminate).
  exact (conj H1 (conj H2 (NextPowerOf2_spec 62 1000 H1 H2))).
Defined.

Lemma NextPowerOf2_loop_zero fuel n : 0 < n → NextPowerOf2_loop fuel 0 n = None.
Proof.
  intros Hn. induction fuel as [|fuel IH]; simpl;
    destruct (Z.ltb_spec 0 n); try lia; done.
Qed.

Lemma NextPowerOf2_loop_stuck (d j fuel : nat) n :
  (j + d = 62)%nat → 2 ^ 62 < n →
  NextPowerOf2_loop fuel (2 ^ Z.of_nat j) n = None.
Proof.
  revert j fuel. induction d as [|d IH]; intros j fuel Hj Hn.
  - assert (E : 2 ^ Z.of_nat j = 2 ^ 62) by (f_equal; lia). rewrite E.
    destruct fuel as [|fuel]; cbn [NextPowerOf2_loop];
      destruct (Z.ltb_spec (2 ^ 62) n); try lia; [done|].
    change (int64_wrap (Z.shiftl (2 ^ 62) 1)) with (- 2 ^ 63).
    destruct fuel as [|fuel]; cbn [NextPowerOf2_loop];
      destruct (Z.ltb_spec (- 2 ^ 63) n); try lia; [done|].
    change (int64_wrap (Z.shiftl (- 2 ^ 63) 1)) with 0.
    apply NextPowerOf2_loop_zero. lia.
  - assert (Hb : 2 ^ Z.of_nat (S j) ≤ 2 ^ 62).
    { change 62 with (Z.of_nat 62). apply pow2_le_mono. lia. }
    assert (Hb' : 2 ^ Z.of_nat j < 2 ^ Z.of_nat (S j)) by (rewrite pow2_S; lia).
    destruct fuel as [|fuel]; cbn [NextPowerOf2_loop];
      destruct (Z.ltb_spec (2 ^ Z.of_nat j) n); try lia; [done|].
    rewrite shiftl_1, <- pow2_S, int64_wrap_small by lia.
    apply IH; [lia|done].
Qed.

(** For [n > 2^62] the loop never ends: [p] reaches [2^62 < n], wraps to
    [-2^63] and then stays 0. *)
Theorem NextPowerOf2_diverges (fuel : nat) n :
  2 ^ 62 < n → NextPowerOf2 fuel n = None.
Proof.
  intros Hn. unfold NextPowerOf2. destruct (Z.leb_spec n 1); [lia|].
  by apply (NextPowerOf2_loop_stuck 62 0).
Qed.

Lemma NextPowerOf2_diverges_witness :
  2 ^ 62 < 2 ^ 62 + 1 ∧ NextPowerOf2 1000 (2 ^ 62 + 1) = None.
Proof.
  assert (H1 : 2 ^ 62 < 2 ^ 62 + 1) by lia.
  exact (conj H1 (NextPowerOf2_diverges 1000 (2 ^ 62 + 1) H1)).
Defined.

End NextPower.

(** ** More of the transform in exact arithmetic *)

Section TransformLaws.
Implicit Types (h : heap R) (s : slice) (xs zs : list (complex128 R)).

Lemma cdiv_real_scale (z : complex128 R) (r : R) :
  r ≠ 0%R → cdiv z (Cx r 0%R) = cmul z (Cx (/ r)%R 0%R).
Proof.
  intros Hr. rewrite cdiv_R. unfold cdiv_smith. cbn [fleb fabs re im R_Float64].
  destruct (Rle_dec (Rabs 0) (Rabs r)) as [_|Hn].
  - destruct z as [a b]. unfold cmul. r_ops. cbn [re im]. f_equal; field; done.
  - exfalso. apply Hn. rewrite Rabs_R0. apply Rabs_pos.
Qed.

(** The sum that inverts the DFT. *)
Lemma dft_adjoint xs j :
  j < length xs →
  csum (length xs) (λ k, cmul (dft xs k) (cmplx_Conj (omega (length xs) (k * j))))
  = cmul (nth j xs c0) (Cx (INR (length xs)) 0%R).
Proof.
  intros Hj. rewrite <- (dft_inverse xs j Hj).
  unfold dft at 2. rewrite length_map, length_dft_list, csum_conj.
  apply csum_ext. intros k Hk.
  by rewrite nth_map_conj, nth_dft_list, cmplx_Conj_mul, cmplx_Conj_invol.
Qed.

Lemma nth_ifft_dft zs L n :
  length zs = 2 ^ L → n < 2 ^ L →
  nth n (ifft_list zs) c0
  = cmul (Cx (/ INR (2 ^ L))%R 0%R)
         (csum (2 ^ L) (λ j, cmul (nth j zs c0) (cmplx_Conj (omega (2 ^ L) (j * n))))).
Proof.
  intros Hlen Hn. assert (Hpos := pow2_nonzero L).
  unfold ifft_list. rewrite (fft_list_dft _ L) by (by rewrite length_map).
  set (g := λ v : complex128 R, cdiv (cmplx_Conj v) _).
  rewrite (nth_indep _ c0 (g c0))
    by (by rewrite length_map, length_dft_list, length_map, Hlen).
  rewrite (map_nth g). unfold g.
  rewrite nth_dft_list by (by rewrite length_map, Hlen).
  cbn [fofZ f0 R_Float64]. rewrite <- INR_IZR_INZ, Hlen.
  rewrite cdiv_real_scale by (apply not_0_INR; lia).
  unfold dft. rewrite length_map, Hlen, csum_conj.
  rewrite (csum_ext _ _ (λ j, cmul (nth j zs c0) (cmplx_Conj (omega (2 ^ L) (j * n))))).
  - ring.
  - intros j _. by rewrite nth_map_conj, cmplx_Conj_mul, cmplx_Conj_invol.
Qed.

(** [FFT] after [IFFT] is the identity too. *)
Lemma fft_ifft_list zs L : length zs = 2 ^ L → fft_list (ifft_list zs) = zs.
Proof.
  intros Hlen. assert (Hpos := pow2_nonzero L).
  assert (Hil : length (ifft_list zs) = 2 ^ L) by (by rewrite (length_ifft_list zs L)).
  rewrite (fft_list_dft _ L Hil).
  apply (nth_ext _ _ c0 c0); [by rewrite length_dft_list, Hil|].
  intros k Hk. rewrite length_dft_list, Hil in Hk.
  rewrite nth_dft_list by (by rewrite Hil). unfold dft. rewrite Hil.
  rewrite (csum_ext _ _ (λ n, cmul (Cx (/ INR (2 ^ L))%R 0%R)
             (csum (2 ^ L) (λ j, cmul (nth j zs c0)
                (cmul (omega (2 ^ L) (k * n)) (cmplx_Conj (omega (2 ^ L) (n * j)))))))).
  2:{ intros n Hn. rewrite (nth_ifft_dft zs L n Hlen Hn).
      rewrite (Nat.mul_comm n k).
      set (w := omega (2 ^ L) (k * n)).
      transitivity (cmul (Cx (/ INR (2 ^ L))%R 0%R)
        (cmul w (csum (2 ^ L) (λ j, cmul (nth j zs c0)
                                  (cmplx_Conj (omega (2 ^ L) (j * n))))))); [ring|].
      f_equal. rewrite <- csum_mul_l. apply csum_ext. intros j _.
      rewrite (Nat.mul_comm j n). ring. }
  rewrite csum_mul_l, csum_swap.
  rewrite (csum_ext _ _ (λ j,
             cmul (nth j zs c0) (if decide (j = k) then Cx (INR (2 ^ L)) 0%R else c0))).
  2:{ intros j Hj. rewrite csum_mul_l. f_equal.
      rewrite omega_orthogonal by done.
      destruct (decide (k = j)), (decide (j = k)); done || lia. }
  rewrite csum_single by done.
  destruct (nth k zs c0) as [a b]. unfold cmul. r_ops. cbn [re im].
  f_equal; field; apply not_0_INR; lia.
Qed.

(** [IFFT] then [FFT] gives back the spectrum, in exact arithmetic. *)
Theorem IFFT_FFT_roundtrip h s zs k :
  holdsC h s zs → length zs = 2 ^ k →
  ∃ x h1 Y h2,
    IFFT s h = Ok x h1
    ∧ FFT x h1 = Ok Y h2
    ∧ resultC (FFT x h1) = Some zs.
Proof.
  intros Hs Hlen. assert (Hpos := pow2_nonzero k).
  destruct s as [l|]; [|simpl in Hs; subst zs; simpl in Hlen; lia].
  simpl in Hs.
  destruct (IFFT_run h l zs k Hs Hlen) as [HI HIl].
  set (h1 := h ++ [CArr (map cmplx_Conj zs); CArr (ifft_list zs)]) in *.
  assert (Hx : h1 !! S (length h) = Some (CArr (ifft_list zs))).
  { unfold h1. replace (S (length h)) with (length h + 1) by lia.
    rewrite lookup_app_r by lia. by replace (length h + 1 - length h) with 1 by lia. }
  destruct (FFT_run h1 (S (length h)) (ifft_list zs) k Hx) as [HF HFl].
  { by rewrite HIl. }
  eexists _, _, _, _. split; [exact HI|]. split; [exact HF|].
  rewrite HF. cbn [resultC]. rewrite lookup_alloc_new.
  by rewrite (fft_ifft_list zs k Hlen).
Qed.

Lemma IFFT_FFT_roundtrip_witness :
  holdsC [CArr [Cx 1%R 0%R; Cx 2%R 0%R]] (Some 0) [Cx 1%R 0%R; Cx 2%R 0%R]
  ∧ length [Cx 1%R 0%R; Cx 2%R 0%R] = 2 ^ 1
  ∧ ∃ x h1 Y h2,
      IFFT (Some 0) [CArr [Cx 1%R 0%R; Cx 2%R 0%R]] = Ok x h1
      ∧ FFT x h1 = Ok Y h2
      ∧ resultC (FFT x h1) = Some [Cx 1%R 0%R; Cx 2%R 0%R].
Proof.
  exact (conj eq_refl (conj eq_refl
    (IFFT_FFT_roundtrip [CArr [Cx 1%R 0%R; Cx 2%R 0%R]] (Some 0)
       [Cx 1%R 0%R; Cx 2%R 0%R] 1 eq_refl eq_refl))).
Defined.

(** *** Parseval *)

Lemma cmplx_Abs_sq (z : complex128 R) :
  (cmplx_Abs z * cmplx_Abs z = re z * re z + im z * im z)%R.
Proof.
  unfold cmplx_Abs. r_ops. apply sqrt_sqrt. nra.
Qed.

Lemma energy_snoc zs (z : complex128 R) :
  energy (zs ++ [z]) = (energy zs + cmplx_Abs z * cmplx_Abs z)%R.
Proof. unfold energy. by rewrite fold_left_snoc. Qed.

Lemma energy_csum zs :
  Cx (energy zs) 0%R
  = csum (length zs) (λ i, cmul (nth i zs c0) (cmplx_Conj (nth i zs c0))).
Proof.
  induction zs as [|z zs IH] using rev_ind; [done|].
  rewrite energy_snoc, length_app, Nat.add_1_r, csum_S.
  rewrite (csum_ext _ _ (λ i, cmul (nth i zs c0) (cmplx_Conj (nth i zs c0)))).
  2:{ intros i Hi. by rewrite app_nth1. }
  rewrite <- IH, app_nth2, Nat.sub_diag by lia. cbn [nth].
  rewrite cmplx_Abs_sq. destruct z as [a b].
  unfold cadd, cmul, cmplx_Conj. r_ops. cbn [re im]. f_equal; ring.
Qed.

Lemma energy_dft xs : energy (dft_list xs) = (INR (length xs) * energy xs)%R.
Proof.
  assert (E : Cx (energy (dft_list xs)) 0%R
              = cmul (Cx (INR (length xs)) 0%R) (Cx (energy xs) 0%R)).
  { rewrite !energy_csum, length_dft_list. set (N := length xs).
    rewrite (csum_ext N _ (λ k, csum N (λ j,
               cmul (cmplx_Conj (nth j xs c0))
                    (cmul (dft xs k) (cmplx_Conj (omega N (k * j))))))).
    2:{ intros k Hk. rewrite nth_dft_list by done.
        unfold dft at 2. fold N. rewrite csum_conj, <- csum_mul_l.
        apply csum_ext. intros j _. rewrite cmplx_Conj_mul, (Nat.mul_comm j k). ring. }
    rewrite csum_swap, <- csum_mul_l. apply csum_ext. intros j Hj.
    rewrite csum_mul_l. unfold N. rewrite dft_adjoint by done. ring. }
  unfold cmul in E. r_ops. cbn [re im] in E. injection E as E. rewrite E. ring.
Qed.

(** Parseval's identity for [FFT], in exact arithmetic: the energy of the
    spectrum is [N] times the energy of the input. *)
Theorem FFT_parseval h s xs k :
  holdsC h s xs → length xs = 2 ^ k →
  ∃ X, resultC (FFT s h) = Some X
       ∧ energy X = (INR (length xs) * energy xs)%R.
Proof.
  intros Hs Hlen. assert (Hpos := pow2_nonzero k).
  destruct s as [l|]; [|simpl in Hs; subst xs; simpl in Hlen; lia].
  simpl in Hs. destruct (FFT_run h l xs k Hs Hlen) as [HF _].
  exists (dft_list xs). split; [|apply energy_dft].
  rewrite HF. cbn [resultC]. rewrite lookup_alloc_new.
  by rewrite (fft_list_dft xs k Hlen).
Qed.

Lemma FFT_parseval_witness :
  holdsC [CArr [Cx 1%R 0%R; Cx 2%R 0%R]] (Some 0) [Cx 1%R 0%R; Cx 2%R 0%R]
  ∧ length [Cx 1%R 0%R; Cx 2%R 0%R] = 2 ^ 1
  ∧ ∃ X, resultC (FFT (Some 0) [CArr [Cx 1%R 0%R; Cx 2%R 0%R]]) = Some X
         ∧ energy X
           = (INR (length [Cx 1%R 0%R; Cx 2%R 0%R]) * energy [Cx 1%R 0%R; Cx 2%R 0%R])%R.
Proof.
  exact (conj eq_refl (conj eq_refl
    (FFT_parseval [CArr [Cx 1%R 0%R; Cx 2%R 0%R]] (Some 0)
       [Cx 1%R 0%R; Cx 2%R 0%R] 1 eq_refl eq_refl))).
Defined.

End TransformLaws.

(** * The Hann window *)

Section WindowAny.
Context {F : Type} `{Float64 F}.
Implicit Types (h : heap F).

(** [HannWindow n] never fails: it returns a new array of [max n 1] elements,
    the array [[1.0]] for [n <= 1] (for [n = 0] too), and keeps the arrays
    that exist. *)
Theorem HannWindow_returns h n :
  ∃ ws, HannWindow n h = Ok (Some (length h)) (h ++ [FArr ws])
        ∧ length ws = Nat.max n 1
        ∧ (n ≤ 1 → ws = [flit 1])
        ∧ (1 < n → ∀ i, i < n → ws !! i = Some (hann n i)).
Proof.
  exists (hannValues n). split; [apply HannWindow_run|].
  split; [|split].
  - unfold hannValues. destruct (Nat.leb_spec n 1); [simpl; lia|].
    rewrite length_map, length_seq. lia.
  - intros Hn. unfold hannValues. by destruct (Nat.leb_spec n 1); [|lia].
  - intros Hn i Hi. by apply lookup_hannValues.
Qed.

End WindowAny.

Section WindowReal.
Local Open Scope R_scope.

Lemma hann_real (n i : nat) :
  (1 < n)%nat →
  hann (F := R) n i = (1 - cos (2 * PI * INR i / INR (n - 1))) / 2.
Proof.
  intros Hn. unfold hann. r_ops. r_lit. rewrite <- !INR_IZR_INZ.
  assert (INR (n - 1) ≠ 0) by (apply not_0_INR; lia).
  replace (2 * / 1 * PI * INR i / INR (n - 1)) with (2 * PI * INR i / INR (n - 1))
    by (field; done).
  lra.
Qed.

Lemma hann_shape (n i : nat) :
  (1 < n)%nat → (i < n)%nat →
  0 <= hann (F := R) n i <= 1
  ∧ hann (F := R) n i = hann (F := R) n (n - 1 - i)
  ∧ hann (F := R) n 0 = 0
  ∧ hann (F := R) n (n - 1) = 0.
Proof.
  intros Hn Hi. assert (Hd : INR (n - 1) ≠ 0) by (apply not_0_INR; lia).
  rewrite !hann_real by done. split; [|split; [|split]].
  - pose proof (COS_bound (2 * PI * INR i / INR (n - 1))). lra.
  - f_equal. f_equal.
    replace (2 * PI * INR (n - 1 - i) / INR (n - 1))
      with (- (2 * PI * INR i / INR (n - 1)) + 2 * INR 1 * PI).
    + by rewrite cos_period, cos_neg.
    + rewrite (minus_INR (n - 1) i) by lia. simpl. field. done.
  - simpl. replace (2 * PI * 0 / INR (n - 1)) with 0 by (field; done).
    rewrite cos_0. lra.
  - replace (2 * PI * INR (n - 1) / INR (n - 1)) with (0 + 2 * INR 1 * PI)
      by (simpl; field; done).
    rewrite cos_period, cos_0. lra.
Qed.

(** In exact arithmetic the window [HannWindow n] returns for [n >= 2] has
    its values in [0, 1], is symmetric ([w[i] = w[n-1-i]]) and starts and ends
    at 0. *)
Theorem HannWindow_shape (h : heap R) (n : nat) :
  (1 < n)%nat →
  ∃ ws, resultF (HannWindow n h) = Some ws
        ∧ length ws = n
        ∧ (∀ i w, ws !! i = Some w → 0 <= w <= 1 ∧ ws !! (n - 1 - i)%nat = Some w)
        ∧ ws !! 0%nat = Some 0
        ∧ ws !! (n - 1)%nat = Some 0.
Proof.
  intros Hn. exists (hannValues n). split; [|split; [|split; [|split]]].
  - rewrite HannWindow_run. cbn [resultF]. by rewrite lookup_alloc_new.
  - by apply length_hannValues.
  - intros i w Hw. pose proof (lookup_lt_Some _ _ _ Hw) as Hi.
    rewrite length_hannValues in Hi by done.
    rewrite lookup_hannValues in Hw by done.
    assert (Ew : w = hann n i) by congruence. subst w.
    destruct (hann_shape n i Hn Hi) as (Hb & Hsym & _). split; [done|].
    rewrite lookup_hannValues by lia. by rewrite Hsym.
  - rewrite lookup_hannValues by lia. f_equal.
    by destruct (hann_shape n 0 Hn ltac:(lia)) as (_ & _ & -> & _).
  - rewrite lookup_hannValues by lia. f_equal.
    by destruct (hann_shape n 0 Hn ltac:(lia)) as (_ & _ & _ & ->).
Qed.

Lemma HannWindow_shape_witness :
  (1 < 4)%nat
  ∧ ∃ ws, resultF (HannWindow (F := R) 4 []) = Some ws
        ∧ length ws = 4%nat
        ∧ (∀ i w, ws !! i = Some w → 0 <= w <= 1 ∧ ws !! (4 - 1 - i)%nat = Some w)
        ∧ ws !! 0%nat = Some 0
        ∧ ws !! (4 - 1)%nat = Some 0.
Proof.
  assert (H1 : (1 < 4)%nat) by lia.
  exact (conj H1 (HannWindow_shape [] 4 H1)).
Defined.

End WindowReal.

(** * More of denoise.go *)

Section Loops.
Context {F : Type} `{Float64 F}.
Implicit Types (h : heap F) (xs ws : list F).

Lemma for_in_app {St} (l1 l2 : list nat) (body : nat → St → M F St) s h :
  for_in (l1 ++ l2) body s h
  = match for_in l1 body s h with
    | Ok s' h' => for_in l2 body s' h'
    | Panic e => Panic e
    end.
Proof.
  revert s h. induction l1 as [|i l1 IH]; intros s h; [done|].
  cbn [app for_in]. unfold bind. destruct (body i s h); [apply IH|done].
Qed.

(** A loop whose body panics at index [k], having run normally before. *)
Lemma for_range_panic {St} (I : nat → St → heap F → Prop) (lo k hi : nat)
    (body : nat → St → M F St) s h e :
  lo ≤ k < hi →
  I lo s h →
  (∀ i s h, lo ≤ i < k → I i s h →
     ∃ s' h', body i s h = Ok s' h' ∧ I (S i) s' h') →
  (∀ s h, I k s h → body k s h = Panic e) →
  for_range lo hi body s h = Panic e.
Proof.
  intros Hk H0 Hstep Hpanic. unfold for_range.
  replace (hi - lo) with ((k - lo) + S (hi - S k)) by lia.
  rewrite seq_app, for_in_app.
  destruct (for_range_inv I lo k body s h) as (s' & h' & Hr & HI); [lia|done|done|].
  unfold for_range in Hr. rewrite Hr.
  replace (lo + (k - lo)) with k by lia. cbn [seq for_in]. unfold bind.
  by rewrite (Hpanic s' h' HI).
Qed.

(** [applyWindow(frame, window)] on two different arrays: the frame becomes
    the element-wise product when the window is at least as long; a shorter
    window makes [window[i]] panic with an index out of range. *)
Theorem applyWindow_bounds h fr w xs ws :
  h !! fr = Some (FArr xs) → h !! w = Some (FArr ws) → fr ≠ w →
  (length xs ≤ length ws →
     applyWindow (Some fr) (Some w) h = Ok tt (<[fr := FArr (zip_with fmul xs ws)]> h))
  ∧ (length ws < length xs →
     applyWindow (Some fr) (Some w) h = Panic IndexOutOfRange).
Proof.
  intros Hfr Hw Hne. split; [by apply applyWindow_run|].
  intros Hlen. pose proof (lookup_lt_Some _ _ _ Hfr) as Hlt.
  unfold applyWindow. rewrite (bind_Ok _ _ _ _ _ (lenF_Ok _ _ _ Hfr)).
  apply (for_range_panic
    (λ i (_ : unit) h', ∃ cur, h' = <[fr := FArr cur]> h ∧ length cur = length xs)
    0 (length ws)).
  - lia.
  - exists xs. by rewrite list_insert_id.
  - intros i [] h1 Hi (cur & -> & Hc).
    destruct (lookup_lt_is_Some_2 cur i) as [a Ha]; [lia|].
    destruct (lookup_lt_is_Some_2 ws i) as [b Hb]; [lia|].
    eexists tt, _. split.
    + rewrite (bind_Ok _ _ _ _ _ (getF_insert _ _ _ _ _ Hlt Ha)).
      erewrite bind_Ok; [|apply (getF_insert_ne _ _ _ _ ws); done].
      by apply setF_insert; [|lia].
    + eexists. split; [done|]. by rewrite length_insert.
  - intros [] h1 (cur & -> & Hc).
    destruct (lookup_lt_is_Some_2 cur (length ws)) as [a Ha]; [lia|].
    rewrite (bind_Ok _ _ _ _ _ (getF_insert _ _ _ _ _ Hlt Ha)).
    unfold getF, bind, loadF. rewrite list_lookup_insert_ne by done. rewrite Hw.
    cbn. by rewrite lookup_ge_None_2.
Qed.

End Loops.

Lemma applyWindow_bounds_witness :
  ([FArr [1%R; 2%R]; FArr [3%R]] : heap R) !! 0 = Some (FArr [1%R; 2%R])
  ∧ ([FArr [1%R; 2%R]; FArr [3%R]] : heap R) !! 1 = Some (FArr [3%R])
  ∧ 0 ≠ 1
  ∧ applyWindow (Some 0) (Some 1) ([FArr [1%R; 2%R]; FArr [3%R]] : heap R)
    = Panic IndexOutOfRange.
Proof.
  assert (Hne : 0 ≠ 1) by lia.
  split; [reflexivity|]. split; [reflexivity|]. split; [exact Hne|].
  exact (proj2 (applyWindow_bounds [FArr [1%R; 2%R]; FArr [3%R]] 0 1
                  [1%R; 2%R] [3%R] eq_refl eq_refl Hne) (le_n 2)).
Defined.

Section DenoiseAny.
Context {F : Type} `{Float64 F}.
Implicit Types (h : heap F) (s : slice) (xs : list F).

Local Opaque FrameSize HopSize.

Lemma padded_short xs :
  length xs < FrameSize → padded xs = xs ++ replicate (FrameSize - length xs) f0.
Proof.
  intros Hlen. unfold padded. destruct (Nat.ltb_spec (length xs) FrameSize); [|lia].
  unfold overwrite. rewrite length_replicate, take_ge by lia.
  by rewrite drop_replicate.
Qed.

Lemma padded_idem xs : padded (padded xs) = padded xs.
Proof.
  unfold padded at 1. pose proof (length_padded_ge xs).
  by destruct (Nat.ltb_spec (length (padded xs)) FrameSize); [lia|].
Qed.

Lemma denoise_list_padded xs : denoise_list (padded xs) = denoise_list xs.
Proof. unfold denoise_list. by rewrite padded_idem. Qed.

(** An input shorter than one frame is processed as the same samples
    followed by zeros up to [FrameSize]: both calls return the same
    samples. *)
Theorem Denoise_zero_padding h s h' s' xs (r r' : Z) :
  xs ≠ [] → length xs < FrameSize →
  holdsF h s xs →
  holdsF h' s' (xs ++ replicate (FrameSize - length xs) f0) →
  ∃ ys, resultF (Denoise s r h) = Some ys
        ∧ resultF (Denoise s' r' h') = Some ys
        ∧ length ys = FrameSize.
Proof.
  intros Hne Hlen Hs Hs'.
  destruct (Denoise_holds h s xs r Hs) as (a & h1 & -> & _ & Hr).
  destruct (Denoise_holds h' s' _ r' Hs') as (a' & h1' & -> & _ & Hr').
  exists (denoise_list xs). split; [|split].
  - rewrite Hr. by destruct (decide (xs = [])).
  - rewrite Hr'.
    destruct (decide (xs ++ replicate (FrameSize - length xs) f0 = [])) as [E|_].
    + by destruct xs.
    + rewrite <- padded_short by done. by rewrite denoise_list_padded.
  - rewrite length_denoise_list, padded_short, length_app, length_replicate by done. lia.
Qed.

End DenoiseAny.

Lemma Denoise_zero_padding_witness :
  [1%R] ≠ [] ∧ length [1%R] < FrameSize
  ∧ holdsF [FArr [1%R]] (Some 0) [1%R]
  ∧ holdsF [FArr ([1%R] ++ replicate (FrameSize - length [1%R]) f0)] (Some 0)
           ([1%R] ++ replicate (FrameSize - length [1%R]) f0)
  ∧ ∃ ys, resultF (Denoise (Some 0) 44100 [FArr [1%R]]) = Some ys
        ∧ resultF (Denoise (Some 0) 8000
                     [FArr ([1%R] ++ replicate (FrameSize - length [1%R]) f0)]) = Some ys
        ∧ length ys = FrameSize.
Proof.
  assert (H1 : [1%R] ≠ []) by discriminate.
  assert (H2 : length [1%R] < FrameSize) by (rewrite FrameSize_pow2; simpl; lia).
  split; [exact H1|]. split; [exact H2|]. split; [reflexivity|]. split; [reflexivity|].
  exact (Denoise_zero_padding [FArr [1%R]] (Some 0)
           [FArr ([1%R] ++ replicate (FrameSize - length [1%R]) f0)] (Some 0)
           [1%R] 44100 8000 H1 H2 eq_refl eq_refl).
Defined.

(** ** denoise.go in exact arithmetic *)

Section NormalizeTwice.
Local Open Scope R_scope.
Implicit Types (h : heap R) (xs : list R).

Lemma normalizeValues_idem xs t :
  0 <= t → normalizeValues (normalizeValues xs t) t = normalizeValues xs t.
Proof.
  intros Ht. pose proof lit_1e10_pos as Hpos.
  destruct (Rlt_dec (peakOf xs) (flit 1e-10)) as [Hs|Hs].
  - by rewrite !(normalizeValues_silent xs) by done.
  - apply Rnot_lt_le in Hs.
    pose proof (peakOf_normalized xs t Ht Hs) as Hp.
    destruct (Rlt_dec t (flit 1e-10)) as [Hq|Hq].
    + apply normalizeValues_silent. by rewrite Hp.
    + apply Rnot_lt_le in Hq. rewrite (normalizeValues_scaled (normalizeValues xs t))
        by (by rewrite Hp).
      rewrite Hp. rewrite <- (map_id (normalizeValues xs t)) at 2.
      apply map_ext. intros y. unfold id. field. lra.
Qed.

(** [normalize] twice with the same target (a level [t >= 0]) leaves the
    buffer as the first call left it. *)
Theorem normalize_idempotent h l xs t :
  h !! l = Some (FArr xs) → 0 <= t →
  ∃ h1, normalize (Some l) t h = Ok tt h1
        ∧ normalize (Some l) t h1 = Ok tt h1.
Proof.
  intros Hl Ht. pose proof (lookup_lt_Some _ _ _ Hl) as Hlt.
  exists (<[l := FArr (normalizeValues xs t)]> h). split; [by apply normalize_run|].
  rewrite (normalize_run _ l (normalizeValues xs t)) by (by apply list_lookup_insert_eq).
  by rewrite list_insert_insert_eq, normalizeValues_idem.
Qed.

Lemma normalize_idempotent_witness :
  ([FArr [3; -4]] : heap R) !! 0%nat = Some (FArr [3; -4]) ∧ 0 <= 2
  ∧ ∃ h1, normalize (Some 0%nat) 2 [FArr [3; -4]] = Ok tt h1
          ∧ normalize (Some 0%nat) 2 h1 = Ok tt h1.
Proof.
  assert (Ht : 0 <= 2) by lra.
  exact (conj eq_refl (conj Ht (normalize_idempotent [FArr [3; -4]] 0 [3; -4] 2 eq_refl Ht))).
Defined.

End NormalizeTwice.

Section SpectralFloor.
Local Open Scope R_scope.

Lemma cmplx_Abs_nonneg (z : complex128 R) : 0 <= cmplx_Abs z.
Proof. unfold cmplx_Abs. r_ops. apply sqrt_pos. Qed.

Lemma cmplx_Abs_Rect (r t : R) : 0 <= r → cmplx_Abs (cmplx_Rect r t) = r.
Proof.
  intros Hr. unfold cmplx_Abs, cmplx_Rect. r_ops. cbn [re im].
  replace (r * cos t * (r * cos t) + r * sin t * (r * sin t))
    with (r * r * (Rsqr (sin t) + Rsqr (cos t))) by (unfold Rsqr; ring).
  rewrite sin2_cos2, Rmult_1_r. by apply sqrt_square.
Qed.

(** Spectral subtraction of one bin, against a noise estimate [noise >= 0]:
    the new magnitude is [max (|z| - 2 noise) (0.02 |z|)], so between 2% of
    the old magnitude and the old magnitude; with no noise it is unchanged. *)
Theorem subtractBin_magnitude (z : complex128 R) (noise : R) :
  0 <= noise →
  cmplx_Abs (subtractBin z noise)
  = Rmax (cmplx_Abs z - 2 * noise) (2 / 100 * cmplx_Abs z)
  ∧ 2 / 100 * cmplx_Abs z <= cmplx_Abs (subtractBin z noise) <= cmplx_Abs z
  ∧ (noise = 0 → cmplx_Abs (subtractBin z noise) = cmplx_Abs z).
Proof.
  intros Hn. pose proof (cmplx_Abs_nonneg z) as Hz.
  assert (E : cmplx_Abs (subtractBin z noise)
              = Rmax (cmplx_Abs z - 2 * noise) (2 / 100 * cmplx_Abs z)).
  { unfold subtractBin. cbv zeta.
    cbn [fltb fsub fmul flit R_Float64]. unfold OverSubtract, SpectralFloor. r_lit.
    set (m := cmplx_Abs z) in *.
    destruct (Rlt_dec _ _) as [Hlt|Hge].
    - rewrite cmplx_Abs_Rect by lra. unfold Rmax. destruct (Rle_dec _ _); lra.
    - rewrite cmplx_Abs_Rect by lra. unfold Rmax. destruct (Rle_dec _ _); lra. }
  rewrite E. split; [done|]. unfold Rmax.
  destruct (Rle_dec _ _); split; try split; intros; lra.
Qed.

Lemma subtractBin_magnitude_witness :
  0 <= 1
  ∧ cmplx_Abs (subtractBin (Cx 3 4) 1) = Rmax (cmplx_Abs (Cx 3 4) - 2 * 1)
                                              (2 / 100 * cmplx_Abs (Cx 3 4))
  ∧ 2 / 100 * cmplx_Abs (Cx 3 4) <= cmplx_Abs (subtractBin (Cx 3 4) 1)
    <= cmplx_Abs (Cx 3 4)
  ∧ (1 = 0 → cmplx_Abs (subtractBin (Cx 3 4) 1) = cmplx_Abs (Cx 3 4)).
Proof.
  assert (H1 : 0 <= 1) by lra.
  exact (conj H1 (subtractBin_magnitude (Cx 3 4) 1 H1)).
Defined.

End SpectralFloor.

(** ** The samples no frame reaches *)

Section OverlapOut.
Context {F : Type} `{Float64 F}.
Implicit Types (xs ws : list F).

Local Opaque FrameSize HopSize.

Lemma overlap_fold_outs n start cleaned ws k (a b : list F) idx :
  length a = n →
  nth idx (fst (fold_left (overlap_step n start cleaned ws) (seq 0 k) (a, b))) f0
  = if decide (start ≤ idx < start + k ∧ idx < n)
    then (nth idx a f0 + re (nth (idx - start) cleaned c0) * nth (idx - start) ws f0)%fl
    else nth idx a f0.
Proof.
  intros Ha. induction k as [|k IH].
  - simpl. destruct (decide _); [lia|done].
  - rewrite seq_S, fold_left_snoc. simpl.
    destruct (length_overlap_fold n start cleaned ws (seq 0 k) (a, b)) as [La _].
    cbn [fst] in La.
    set (st := fold_left (overlap_step n start cleaned ws) (seq 0 k) (a, b)) in *.
    unfold overlap_step. destruct (Nat.ltb_spec (start + k) n) as [Hk|Hk]; cbn [fst].
    + destruct (decide (idx = start + k)) as [->|Hne].
      * rewrite nth_insert_eq by lia. rewrite IH.
        destruct (decide _) as [?|_]; [lia|].
        destruct (decide _) as [_|?]; [|lia].
        by replace (start + k - start) with k by lia.
      * rewrite nth_insert_ne by done. rewrite IH.
        destruct (decide _), (decide _); try done; lia.
    + rewrite IH. destruct (decide _), (decide _); try done; lia.
Qed.

Lemma overlap_add_outs n start cleaned ws (st : list F * list F) idx :
  length (fst st) = n →
  nth idx (fst (overlap_add n start cleaned ws st)) f0
  = if decide (start ≤ idx < start + FrameSize ∧ idx < n)
    then (nth idx (fst st) f0
          + re (nth (idx - start) cleaned c0) * nth (idx - start) ws f0)%fl
    else nth idx (fst st) f0.
Proof.
  intros Ha. unfold overlap_add. rewrite (surjective_pairing st).
  by apply overlap_fold_outs.
Qed.

End OverlapOut.

Section Edges.
Local Open Scope R_scope.
Implicit Types (h : heap R) (xs ws : list R).

Local Opaque FrameSize HopSize.

(** Where every frame that reaches an index does so with window value 0,
    both accumulators stay 0. *)
Lemma accumulators_zero xs ws noise (n k idx : nat) :
  (∀ fi, (fi < k)%nat → (fi * HopSize ≤ idx < fi * HopSize + FrameSize)%nat →
         nth (idx - fi * HopSize) ws 0 = 0) →
  nth idx (fst (subtract_frames xs ws noise n k)) 0 = 0
  ∧ nth idx (snd (subtract_frames xs ws noise n k)) 0 = 0.
Proof.
  induction k as [|k IH]; intros Hw.
  - unfold subtract_frames. simpl. split; apply nth_replicate_same.
  - destruct IH as [IH1 IH2]; [intros fi Hfi; apply Hw; lia|].
    destruct (length_subtract_frames xs ws noise n k) as [L1 L2].
    rewrite subtract_frames_S. split.
    + pose proof (overlap_add_outs (F := R) n (k * HopSize)
                    (cleaned_of xs ws noise k) ws _ idx L1) as E.
      cbn [f0 fofZ fadd fmul R_Float64] in E. rewrite E, IH1.
      destruct (decide _) as [[Hin _]|_]; [|done].
      rewrite (Hw k); [ring|lia|exact Hin].
    + pose proof (overlap_add_sums (F := R) n (k * HopSize)
                    (cleaned_of xs ws noise k) ws _ idx L2) as E.
      cbn [f0 fofZ fadd fmul R_Float64] in E. rewrite E, IH2.
      destruct (decide _) as [[Hin _]|_]; [|done].
      rewrite (Hw k); [ring|lia|exact Hin].
Qed.

Lemma lookup_denoise_zero xs (idx : nat) :
  (idx < length (padded xs))%nat →
  (∀ fi, (fi < frame_count (length (padded xs)))%nat →
         (fi * HopSize ≤ idx < fi * HopSize + FrameSize)%nat →
         nth (idx - fi * HopSize) (hannValues (F := R) FrameSize) 0 = 0) →
  denoise_list xs !! idx = Some 0.
Proof.
  intros Hidx Hw. unfold denoise_list. cbv zeta.
  set (n := length (padded xs)) in *.
  set (ws := hannValues FrameSize) in *.
  set (noise := noise_profile _ _ _).
  destruct (accumulators_zero (padded xs) ws noise n (frame_count n) idx Hw) as [E1 E2].
  destruct (length_subtract_frames (padded xs) ws noise n (frame_count n)) as [L1 L2].
  set (acc := subtract_frames _ _ _ _ _) in *.
  assert (Ho : acc.1 !! idx = Some 0).
  { destruct (lookup_lt_is_Some_2 acc.1 idx) as [o Ho]; [lia|].
    by rewrite <- E1, (nth_lookup_Some' _ _ _ _ Ho). }
  assert (Hs : acc.2 !! idx = Some 0).
  { destruct (lookup_lt_is_Some_2 acc.2 idx) as [o Hs]; [lia|].
    by rewrite <- E2, (nth_lookup_Some' _ _ _ _ Hs). }
  assert (Hd : divided acc.1 acc.2 !! idx = Some 0).
  { unfold divided. rewrite lookup_zip_with, Ho. cbn. rewrite Hs. cbn.
    r_lit. destruct (Rlt_dec _ 0) as [Hlt|_]; [lra|done]. }
  unfold normalizeValues. destruct (fltb _ _).
  - done.
  - rewrite list_lookup_fmap, Hd. cbn. f_equal. ring.
Qed.

(** In exact arithmetic the first sample [Denoise] returns is 0, and so is
    every sample from the last index of the last frame on: with [n] the
    length of the (padded) input, the samples from index
    [((n - FrameSize) / HopSize + 2) * HopSize - 1] on, up to 1024 of them. *)
Theorem Denoise_edges_zero h s xs (sampleRate : Z) :
  holdsF h s xs → xs ≠ [] →
  ∃ ys, resultF (Denoise s sampleRate h) = Some ys
        ∧ length ys = Nat.max (length xs) FrameSize
        ∧ ys !! 0%nat = Some 0
        ∧ ∀ i, (((length ys - FrameSize) / HopSize + 2) * HopSize - 1 ≤ i < length ys)%nat →
               ys !! i = Some 0.
Proof.
  intros Hs Hne.
  destruct (Denoise_holds h s xs sampleRate Hs) as (a & h1 & -> & _ & Hr).
  destruct (decide (xs = [])) as [|_]; [done|].
  exists (denoise_list xs). split; [done|].
  pose proof (length_denoise_list xs) as Hl.
  pose proof (length_padded_ge xs) as Hge.
  pose proof FrameSize_HopSize as HF. pose proof HopSize_pos as HH.
  assert (Hw0 : nth 0 (hannValues (F := R) FrameSize) 0 = 0).
  { apply nth_lookup_Some'. rewrite lookup_hannValues by lia.
    f_equal. by destruct (hann_shape FrameSize 0 ltac:(lia) ltac:(lia)) as (_ & _ & -> & _). }
  assert (Hw1 : nth (FrameSize - 1) (hannValues (F := R) FrameSize) 0 = 0).
  { apply nth_lookup_Some'. rewrite lookup_hannValues by lia.
    f_equal. by destruct (hann_shape FrameSize 0 ltac:(lia) ltac:(lia)) as (_ & _ & _ & ->). }
  split; [|split].
  - rewrite Hl. unfold padded. destruct (Nat.ltb_spec (length xs) FrameSize).
    + unfold overwrite. rewrite length_app, length_take, length_drop, !length_replicate. lia.
    + lia.
  - apply lookup_denoise_zero; [lia|]. intros fi _ Hin.
    assert (fi = 0%nat) as -> by nia. by rewrite Nat.sub_0_r.
  - intros i Hi. rewrite Hl in Hi. apply lookup_denoise_zero; [lia|].
    intros fi Hfi Hin. rewrite frame_count_eq in Hfi.
    set (q := ((length (padded xs) - FrameSize) / HopSize)%nat) in *.
    assert (fi = q) as -> by nia.
    replace (i - q * HopSize)%nat with (FrameSize - 1)%nat by nia. done.
Qed.

Lemma Denoise_edges_zero_witness :
  holdsF [FArr [1; 1]] (Some 0%nat) [1; 1] ∧ [1; 1] ≠ []
  ∧ ∃ ys, resultF (Denoise (Some 0%nat) 44100 [FArr [1; 1]]) = Some ys
        ∧ length ys = Nat.max (length [1; 1]) FrameSize
        ∧ ys !! 0%nat = Some 0
        ∧ ∀ i, (((length ys - FrameSize) / HopSize + 2) * HopSize - 1 ≤ i < length ys)%nat →
               ys !! i = Some 0.
Proof.
  assert (H1 : [1; 1] ≠ []) by discriminate.
  exact (conj eq_refl (conj H1
    (Denoise_edges_zero [FArr [1; 1]] (Some 0%nat) [1; 1] 44100 eq_refl H1))).
Defined.

End Edges.

(** * More of the WAV codec *)

Section WAVFiles.
Context {F : Type} `{Float64 F}.
Implicit Types (samples : list F) (rate : Z) (data hdr body : list Z).

Lemma bytes_at_take data m lo hi :
  hi ≤ m → bytes_at (take m data) lo hi = bytes_at data lo hi.
Proof.
  intros Hhi. unfold bytes_at. rewrite skipn_firstn_comm, take_take.
  f_equal. lia.
Qed.

Lemma bytes_at_0 data n : bytes_at data 0 n = take n data.
Proof. unfold bytes_at. by rewrite drop_0, Nat.sub_0_r. Qed.

(** The samples of a data chunk, two bytes each. *)
Lemma decode_pcm_take {A} (g : list Z → A) samples j :
  map (λ i, g (bytes_at (take j (pcm_bytes samples)) (i * 2) (i * 2 + 2)))
      (seq 0 (length (take j (pcm_bytes samples)) / 2))
  = map (λ s, g (le_bytes 2 (sample_to_int16 s))) (take (j / 2) samples).
Proof.
  rewrite length_take, length_pcm_bytes.
  assert (Hk : j `min` (length samples * 2) / 2 = length (take (j / 2) samples)).
  { rewrite length_take.
    destruct (le_lt_dec j (length samples * 2)) as [Hle|Hgt].
    - rewrite Nat.min_l by done.
      assert (j / 2 ≤ length samples)
        by (apply Nat.Div0.div_le_upper_bound; lia).
      lia.
    - rewrite Nat.min_r, Nat.div_mul by lia.
      assert (length samples ≤ j / 2) by (apply Nat.div_le_lower_bound; lia).
      lia. }
  rewrite Hk, <- decode_pcm.
  apply map_ext_in. intros i Hi%in_seq. f_equal.
  rewrite length_take in Hi.
  assert (Hi2 : i * 2 + 2 ≤ j).
  { assert (i < j / 2) by lia.
    pose proof (Nat.div_mod_eq j 2). pose proof (Nat.mod_upper_bound j 2). lia. }
  rewrite bytes_at_take by done.
  assert (Hpre : pcm_bytes samples
                 = pcm_bytes (take (j / 2) samples) ++ pcm_bytes (drop (j / 2) samples)).
  { rewrite <- (take_drop (j / 2) samples) at 1. unfold pcm_bytes.
    apply flat_map_app. }
  rewrite Hpre, bytes_at_app_l; [done|].
  rewrite length_pcm_bytes, length_take. lia.
Qed.

(** [ReadWAV] on a 16-bit PCM file of two chunks: a 44-byte header for [ch]
    channels whose data chunk announces [size] bytes, followed by at most
    that many. *)
Lemma ReadWAV_pcm_file hdr body (ch : Z) rate (size : nat) :
  length hdr = 44 →
  bytes_at hdr 0 4 = ascii_bytes "RIFF" →
  bytes_at hdr 8 12 = ascii_bytes "WAVE" →
  bytes_at hdr 12 16 = ascii_bytes "fmt " →
  le_uint (bytes_at hdr 16 20) = 16%Z →
  le_uint (bytes_at hdr 20 22) = 1%Z →
  le_uint (bytes_at hdr 22 24) = ch →
  le_uint (bytes_at hdr 24 28) = rate →
  le_uint (bytes_at hdr 34 36) = 16%Z →
  bytes_at hdr 36 40 = ascii_bytes "data" →
  le_uint (bytes_at hdr 40 44) = Z.of_nat size →
  length body ≤ size →
  ReadWAV (F := F) (hdr ++ body)
  = let rawSamples :=
      map (λ i, (fofZ (int16_of_uint16 (le_uint (bytes_at body (i * 2) (i * 2 + 2))))
                 / flit 32768)%fl)
          (seq 0 (length body / 2)) in
    inr (if (ch =? 2)%Z
         then map (λ i, ((nth (i * 2) rawSamples f0 + nth (i * 2 + 1) rawSamples f0)
                         / flit 2)%fl)
                  (seq 0 (length body / 2 / 2))
         else rawSamples, rate).
Proof.
  intros Hlen Hriff Hwave Hfmt Hfsize Hpcm Hch Hrate Hbits Hdata Hdsize Hbody.
  assert (Hfield : ∀ lo hi, hi ≤ 44 → bytes_at (hdr ++ body) lo hi = bytes_at hdr lo hi).
  { intros lo hi Hhi. apply bytes_at_app_l. lia. }
  assert (HL : length (hdr ++ body) = 44 + length body) by (rewrite length_app; lia).
  unfold ReadWAV. rewrite HL.
  replace (44 + length body <? 12) with false by (symmetry; apply Nat.ltb_ge; lia).
  rewrite !Hfield, Hriff, Hwave by lia.
  rewrite !bool_decide_eq_true_2 by done. cbv [negb].
  replace (44 + length body) with (S (S (42 + length body))) by lia.
  rewrite walk_chunks_fmt; cycle 1.
  { rewrite HL. lia. }
  { by rewrite Hfield by lia. }
  { by rewrite Hfield by lia. }
  { by rewrite Hfield by lia. }
  { by rewrite Hfield by lia. }
  rewrite !Hfield by lia. cbn [Nat.add]. rewrite Hrate, Hch.
  rewrite (walk_chunks_data _ _ _ _ _ size); cycle 1.
  { rewrite HL. lia. }
  { by rewrite Hfield by lia. }
  { by rewrite Hfield by lia. }
  rewrite walk_chunks_end by (rewrite HL; destruct (_ =? _); lia).
  rewrite HL.
  assert (Epcm : bytes_at (hdr ++ body) (36 + 8)
                   (if 44 + length body <? 36 + 8 + size
                    then 44 + length body else 36 + 8 + size) = body).
  { rewrite bytes_at_app_r by lia. rewrite Hlen.
    replace (36 + 8 - 44) with 0 by lia. rewrite bytes_at_0.
    apply take_ge. destruct (Nat.ltb_spec (44 + length body) (36 + 8 + size)); lia. }
  rewrite Epcm. cbn [NumChannels SampleRate]. cbv zeta. by destruct (ch =? 2)%Z.
Qed.

Lemma ReadWAV_mono_file hdr body rate (size : nat) :
  length hdr = 44 →
  bytes_at hdr 0 4 = ascii_bytes "RIFF" →
  bytes_at hdr 8 12 = ascii_bytes "WAVE" →
  bytes_at hdr 12 16 = ascii_bytes "fmt " →
  le_uint (bytes_at hdr 16 20) = 16%Z →
  le_uint (bytes_at hdr 20 22) = 1%Z →
  le_uint (bytes_at hdr 22 24) = 1%Z →
  le_uint (bytes_at hdr 24 28) = rate →
  le_uint (bytes_at hdr 34 36) = 16%Z →
  bytes_at hdr 36 40 = ascii_bytes "data" →
  le_uint (bytes_at hdr 40 44) = Z.of_nat size →
  length body ≤ size →
  ReadWAV (F := F) (hdr ++ body)
  = inr (map (λ i, (fofZ (int16_of_uint16 (le_uint (bytes_at body (i * 2) (i * 2 + 2))))
                    / flit 32768)%fl)
             (seq 0 (length body / 2)), rate).
Proof.
  intros. by rewrite (ReadWAV_pcm_file hdr body 1 rate size).
Qed.

Lemma wav_header_fields n rate :
  length (wav_header n rate) = 44
  ∧ bytes_at (wav_header n rate) 0 4 = ascii_bytes "RIFF"
  ∧ bytes_at (wav_header n rate) 8 12 = ascii_bytes "WAVE"
  ∧ bytes_at (wav_header n rate) 12 16 = ascii_bytes "fmt "
  ∧ le_uint (bytes_at (wav_header n rate) 16 20) = 16%Z
  ∧ le_uint (bytes_at (wav_header n rate) 20 22) = 1%Z
  ∧ le_uint (bytes_at (wav_header n rate) 22 24) = 1%Z
  ∧ le_uint (bytes_at (wav_header n rate) 24 28) = (rate mod 2 ^ 32)%Z
  ∧ le_uint (bytes_at (wav_header n rate) 34 36) = 16%Z
  ∧ bytes_at (wav_header n rate) 36 40 = ascii_bytes "data"
  ∧ le_uint (bytes_at (wav_header n rate) 40 44) = ((Z.of_nat n * 2) mod 2 ^ 32)%Z.
Proof.
  repeat split; try reflexivity.
  - change (bytes_at (wav_header n rate) 24 28) with (le_bytes 4 rate).
    by rewrite le_uint_le_bytes.
  - change (bytes_at (wav_header n rate) 40 44) with (le_bytes 4 (Z.of_nat n * 2)).
    by rewrite le_uint_le_bytes.
Qed.

Lemma le_bytes_range w v : Forall (λ b, 0 ≤ b < 256)%Z (le_bytes w v).
Proof.
  unfold le_bytes. apply Forall_map, Forall_forall. intros i _. cbn.
  apply Z.mod_pos_bound. lia.
Qed.

Lemma ascii_bytes_range s : Forall (λ b, 0 ≤ b < 256)%Z (ascii_bytes s).
Proof.
  unfold ascii_bytes. apply Forall_map, Forall_forall. intros a _. cbn.
  pose proof (N_ascii_bounded a). lia.
Qed.

Lemma WriteWAV_bytes_range samples rate :
  Forall (λ b, 0 ≤ b < 256)%Z (WriteWAV samples rate).
Proof.
  rewrite WriteWAV_layout. apply Forall_app. split.
  - unfold wav_header.
    repeat (apply Forall_app; split);
      first [apply ascii_bytes_range | apply le_bytes_range].
  - unfold pcm_bytes. apply Forall_flat_map, Forall_forall. intros s _.
    apply le_bytes_range.
Qed.

(** The file [WriteWAV] builds has [44 + 2 * len(samples)] bytes, each in
    [0, 256), whatever the samples and the rate are. *)
Theorem WriteWAV_size samples rate :
  length (WriteWAV samples rate) = 44 + 2 * length samples
  ∧ Forall (λ b, 0 ≤ b < 256)%Z (WriteWAV samples rate).
Proof.
  split.
  - rewrite WriteWAV_layout, length_app, length_wav_header, length_pcm_bytes. lia.
  - apply WriteWAV_bytes_range.
Qed.

(** The chunk walk advances by at least 8 bytes each time: [len(data)]
    iterations always suffice. *)
Lemma walk_chunks_fuel fuel data pos header pcmData :
  length data ≤ pos + fuel →
  walk_chunks fuel data pos header pcmData ≠ inl OutOfFuel.
Proof.
  revert pos header pcmData. induction fuel as [|fuel IH]; intros pos header pcmData Hf.
  - rewrite walk_chunks_end by lia. done.
  - cbn [walk_chunks]. destruct (Nat.leb_spec (pos + 8) (length data)) as [Hin|Hout]; [|done].
    repeat (destruct (decide _) || destruct (_ <? _) || destruct (negb _));
      try done; apply IH; lia.
Qed.

(** [ReadWAV] returns on every input: an error of the source, or samples. *)
Theorem ReadWAV_returns data : ReadWAV (F := F) data ≠ inl OutOfFuel.
Proof.
  unfold ReadWAV.
  destruct (_ <? _); [done|]. destruct (negb _); [done|]. destruct (negb _); [done|].
  pose proof (walk_chunks_fuel (length data) data 12 None None ltac:(lia)) as Hw.
  destruct (walk_chunks _ _ _ _ _) as [e|[[hd|] [pcm|]]]; try done.
  - intros E. apply Hw. by injection E as ->.
  - by destruct (_ =? _)%Z.
Qed.

Lemma walk_chunks_fmt_truncated fuel data pos header pcmData :
  pos + 8 ≤ length data → length data < pos + 24 →
  bytes_at data pos (pos + 4) = ascii_bytes "fmt " →
  le_uint (bytes_at data (pos + 4) (pos + 8)) = 16%Z →
  walk_chunks (S fuel) data pos header pcmData = inl FmtTruncated.
Proof.
  intros Hlen Hshort Hid Hsize. cbn [walk_chunks].
  replace (pos + 8 <=? length data) with true by (symmetry; apply Nat.leb_le; lia).
  rewrite Hid, decide_True by done. rewrite Hsize.
  change (Z.to_nat 16) with 16. change (16 <? 16) with false. cbv iota.
  by replace (length data <? pos + 8 + 16) with true by (symmetry; apply Nat.ltb_lt; lia).
Qed.

(** [ReadWAV] on the first [m] bytes of a file of [WriteWAV]: the error that
    names the first missing part, or, once the 44 bytes of the header are
    there, the samples whose two bytes are both there. *)
Theorem ReadWAV_truncated samples rate (m : nat) :
  (Z.of_nat (length samples) < 2 ^ 31)%Z →
  ReadWAV (take m (WriteWAV samples rate))
  = if m <? 12 then inl FileTooShort
    else if m <? 20 then inl NoFmtChunk
    else if m <? 36 then inl FmtTruncated
    else if m <? 44 then inl NoDataChunk
    else inr (map requantize (take ((m - 44) / 2) samples), (rate mod 2 ^ 32)%Z).
Proof.
  intros Hn. rewrite WriteWAV_layout.
  set (n := length samples) in *. set (body := pcm_bytes samples).
  destruct (wav_header_fields n rate)
    as (HL & Hriff & Hwave & Hfmt & Hfs & Hpcm & Hch & Hrate & Hbits & Hdata & Hds).
  set (hdr := wav_header n rate) in *.
  destruct (Nat.ltb_spec m 44) as [Hm|Hm].
  - (* inside the header *)
    rewrite take_app_le by lia.
    assert (Hlen : length (take m hdr) = m) by (rewrite length_take; lia).
    unfold ReadWAV. rewrite Hlen.
    destruct (Nat.ltb_spec m 12) as [|H12]; [done|].
    rewrite !bytes_at_take, Hriff, Hwave by lia.
    rewrite !bool_decide_eq_true_2 by done. cbv [negb].
    destruct (Nat.ltb_spec m 20) as [|H20].
    { by rewrite walk_chunks_end by lia. }
    destruct m as [|m']; [lia|].
    destruct (Nat.ltb_spec (S m') 36) as [|H36].
    { rewrite walk_chunks_fmt_truncated; [done|lia|lia|..];
        by rewrite bytes_at_take by lia. }
    destruct m' as [|m'']; [lia|].
    rewrite walk_chunks_fmt; [|lia|by rewrite bytes_at_take by lia..].
    by rewrite walk_chunks_end by lia.
  - destruct (Nat.ltb_spec m 12); [lia|]. destruct (Nat.ltb_spec m 20); [lia|].
    destruct (Nat.ltb_spec m 36); [lia|].
    rewrite take_app_ge by lia. rewrite HL.
    rewrite (ReadWAV_mono_file hdr (take (m - 44) body) (rate mod 2 ^ 32) (n * 2));
      try done.
    + f_equal. f_equal. unfold body.
      apply (decode_pcm_take
               (λ bs, (fofZ (int16_of_uint16 (le_uint bs)) / flit 32768)%fl)).
    + rewrite Hds, Nat2Z.inj_mul. apply Z.mod_small. lia.
    + rewrite length_take. unfold body. rewrite length_pcm_bytes. lia.
Qed.

Lemma walk_chunks_skip fuel data pos header pcmData (size : nat) :
  pos + 8 ≤ length data →
  bytes_at data pos (pos + 4) ≠ ascii_bytes "fmt " →
  bytes_at data pos (pos + 4) ≠ ascii_bytes "data" →
  le_uint (bytes_at data (pos + 4) (pos + 8)) = Z.of_nat size →
  walk_chunks (S fuel) data pos header pcmData
  = walk_chunks fuel data (pos + 8 + size + (if size `mod` 2 =? 0 then 0 else 1))
      header pcmData.
Proof.
  intros Hlen Hf Hd Hsize. cbn [walk_chunks].
  replace (pos + 8 <=? length data) with true by (symmetry; apply Nat.leb_le; lia).
  by rewrite Hsize, Nat2Z.id, !decide_False by done.
Qed.

(** A chunk that is neither [fmt ] nor [data], put between the two chunks of
    a file of [WriteWAV] (with the padding byte an odd size asks for), is
    skipped: [ReadWAV] returns the same samples and rate. *)
Theorem ReadWAV_skips_unknown_chunk samples rate (cid payload : list Z) (padByte : Z) :
  (Z.of_nat (length samples) < 2 ^ 31)%Z →
  length cid = 4 → cid ≠ ascii_bytes "fmt " → cid ≠ ascii_bytes "data" →
  (Z.of_nat (length payload) < 2 ^ 32)%Z →
  let pad := if length payload `mod` 2 =? 0 then [] else [padByte] in
  ReadWAV (take 36 (WriteWAV samples rate)
           ++ (cid ++ le_bytes 4 (Z.of_nat (length payload)) ++ payload ++ pad)
           ++ drop 36 (WriteWAV samples rate))
  = inr (map requantize samples, (rate mod 2 ^ 32)%Z).
Proof.
  intros Hn Hcid Hnf Hnd Hp pad. rewrite WriteWAV_layout.
  set (n := length samples) in *. set (body := pcm_bytes samples).
  destruct (wav_header_fields n rate)
    as (HL & Hriff & Hwave & Hfmt & Hfs & Hpcm & Hch & Hrate & Hbits & Hdata & Hds).
  set (hdr := wav_header n rate) in *.
  rewrite take_app_le, drop_app_le by lia.
  set (A := take 36 hdr).
  set (B := cid ++ le_bytes 4 (Z.of_nat (length payload)) ++ payload ++ pad).
  set (C := drop 36 hdr ++ body).
  assert (HA : length A = 36) by (unfold A; rewrite length_take; lia).
  assert (Hpad : length pad = if length payload `mod` 2 =? 0 then 0 else 1).
  { unfold pad. by destruct (_ =? _). }
  assert (HB : length B = 8 + length payload + length pad).
  { unfold B. rewrite !length_app, length_le_bytes. lia. }
  assert (HC : length C = 8 + n * 2).
  { unfold C, body. rewrite length_app, length_drop, length_pcm_bytes. lia. }
  assert (Hlen : length (A ++ B ++ C) = 36 + length B + length C)
    by (rewrite !length_app; lia).
  assert (HAf : ∀ lo hi, hi ≤ 36 → bytes_at (A ++ B ++ C) lo hi = bytes_at hdr lo hi).
  { intros lo hi Hhi. rewrite bytes_at_app_l by lia. unfold A. by apply bytes_at_take. }
  assert (HBf : ∀ lo hi lo' hi', lo' = 36 + lo → hi' = 36 + hi → hi ≤ length B →
            bytes_at (A ++ B ++ C) lo' hi' = bytes_at B lo hi).
  { intros lo hi ? ? -> -> Hhi. rewrite bytes_at_app_r by lia. rewrite HA.
    replace (36 + lo - 36) with lo by lia. replace (36 + hi - 36) with hi by lia.
    by apply bytes_at_app_l. }
  assert (HCf : ∀ lo hi lo' hi', lo' = 36 + length B + lo → hi' = 36 + length B + hi →
            bytes_at (A ++ B ++ C) lo' hi' = bytes_at C lo hi).
  { intros lo hi ? ? -> ->. rewrite bytes_at_app_r by lia. rewrite HA.
    rewrite bytes_at_app_r by lia. f_equal; lia. }
  assert (HCh : ∀ lo hi, hi ≤ 8 → bytes_at C lo hi = bytes_at hdr (36 + lo) (36 + hi)).
  { intros lo hi Hhi. unfold C. rewrite bytes_at_app_l by (rewrite length_drop; lia).
    unfold bytes_at. rewrite drop_drop. f_equal; lia. }
  assert (Ecid : bytes_at B 0 4 = cid).
  { unfold B. rewrite bytes_at_app_l by lia. rewrite <- Hcid. apply bytes_at_all. }
  assert (Esize : bytes_at B 4 8 = le_bytes 4 (Z.of_nat (length payload))).
  { unfold B. rewrite bytes_at_app_r by lia. rewrite Hcid.
    rewrite bytes_at_app_l by (rewrite length_le_bytes; lia).
    rewrite <- (length_le_bytes 4 (Z.of_nat (length payload))) at 2. apply bytes_at_all. }
  unfold ReadWAV. rewrite Hlen.
  replace (36 + length B + length C <? 12) with false by (symmetry; apply Nat.ltb_ge; lia).
  rewrite !HAf, Hriff, Hwave by lia.
  rewrite !bool_decide_eq_true_2 by done. cbv [negb].
  replace (36 + length B + length C) with (S (S (S (33 + length B + length C)))) by lia.
  rewrite walk_chunks_fmt; [|rewrite ?Hlen; try lia; by rewrite HAf by lia..].
  rewrite !HAf by lia. cbn [Nat.add]. rewrite Hrate, Hch.
  rewrite (walk_chunks_skip _ _ _ _ _ (length payload)); cycle 1.
  { rewrite Hlen. lia. }
  { rewrite (HBf 0 4) by lia. by rewrite Ecid. }
  { rewrite (HBf 0 4) by lia. by rewrite Ecid. }
  { rewrite (HBf 4 8) by lia. rewrite Esize. apply le_uint_range.
    change (2 ^ (8 * Z.of_nat 4))%Z with (2 ^ 32)%Z. lia. }
  rewrite <- Hpad.
  set (pos := 36 + 8 + length payload + length pad).
  assert (Hpos : pos = 36 + length B) by (unfold pos; lia).
  rewrite (walk_chunks_data _ _ _ _ _ (n * 2)); cycle 1.
  { rewrite Hlen. lia. }
  { rewrite (HCf 0 4), (HCh 0 4) by lia. done. }
  { rewrite (HCf 4 8), (HCh 4 8) by lia. cbn [Nat.add].
    rewrite Hds, Nat2Z.inj_mul. apply Z.mod_small. lia. }
  rewrite walk_chunks_end by (rewrite Hlen; destruct (_ =? _); lia).
  rewrite Hlen.
  replace (36 + length B + length C <? pos + 8 + n * 2) with false
    by (symmetry; apply Nat.ltb_ge; lia).
  rewrite (HCf 8 (8 + n * 2)) by lia.
  assert (Epcm : bytes_at C 8 (8 + n * 2) = body).
  { unfold C. rewrite bytes_at_app_r by (rewrite length_drop; lia).
    rewrite length_drop, HL.
    replace (8 - (44 - 36)) with 0 by lia.
    replace (8 + n * 2 - (44 - 36)) with (length body)
      by (unfold body; rewrite length_pcm_bytes; lia).
    apply bytes_at_all. }
  rewrite Epcm. cbn [NumChannels SampleRate]. change (1 =? 2)%Z with false. cbv iota.
  f_equal. f_equal. unfold body. rewrite length_pcm_bytes, Nat.div_mul by lia.
  apply (decode_pcm (λ bs, (fofZ (int16_of_uint16 (le_uint bs)) / flit 32768)%fl)).
Qed.

End WAVFiles.

Lemma ReadWAV_truncated_witness :
  (Z.of_nat (length [0%R; 1%R; (-1)%R]) < 2 ^ 31)%Z
  ∧ ReadWAV (take 47 (WriteWAV [0%R; 1%R; (-1)%R] 8000))
    = (if 47 <? 12 then inl FileTooShort
       else if 47 <? 20 then inl NoFmtChunk
       else if 47 <? 36 then inl FmtTruncated
       else if 47 <? 44 then inl NoDataChunk
       else inr (map requantize (take ((47 - 44) / 2) [0%R; 1%R; (-1)%R]),
                 (8000 mod 2 ^ 32)%Z)).
Proof.
  assert (Hn : (Z.of_nat (length [0%R; 1%R; (-1)%R]) < 2 ^ 31)%Z) by reflexivity.
  exact (conj Hn (ReadWAV_truncated [0%R; 1%R; (-1)%R] 8000 47 Hn)).
Defined.

Lemma ReadWAV_skips_unknown_chunk_witness :
  (Z.of_nat (length [0%R; 1%R]) < 2 ^ 31)%Z
  ∧ length (ascii_bytes "LIST") = 4
  ∧ ascii_bytes "LIST" ≠ ascii_bytes "fmt "
  ∧ ascii_bytes "LIST" ≠ ascii_bytes "data"
  ∧ (Z.of_nat (length [7; 8; 9]%Z) < 2 ^ 32)%Z
  ∧ ReadWAV (take 36 (WriteWAV [0%R; 1%R] 8000)
             ++ (ascii_bytes "LIST" ++ le_bytes 4 (Z.of_nat (length [7; 8; 9]%Z))
                 ++ [7; 8; 9]%Z
                 ++ (if length [7; 8; 9]%Z `mod` 2 =? 0 then [] else [0%Z]))
             ++ drop 36 (WriteWAV [0%R; 1%R] 8000))
    = inr (map requantize [0%R; 1%R], (8000 mod 2 ^ 32)%Z).
Proof.
  assert (H1 : (Z.of_nat (length [0%R; 1%R]) < 2 ^ 31)%Z) by reflexivity.
  assert (H2 : length (ascii_bytes "LIST") = 4) by reflexivity.
  assert (H3 : ascii_bytes "LIST" ≠ ascii_bytes "fmt ")
    by (intros E; vm_compute in E; discriminate E).
  assert (H4 : ascii_bytes "LIST" ≠ ascii_bytes "data")
    by (intros E; vm_compute in E; discriminate E).
  assert (H5 : (Z.of_nat (length [7; 8; 9]%Z) < 2 ^ 32)%Z) by reflexivity.
  exact (conj H1 (conj H2 (conj H3 (conj H4 (conj H5
    (ReadWAV_skips_unknown_chunk [0%R; 1%R] 8000 (ascii_bytes "LIST") [7; 8; 9]%Z 0
       H1 H2 H3 H4 H5)))))).
Defined.

(** ** The samples of the codec, in exact arithmetic *)

Section WAVClipping.
Implicit Types (s : R) (samples : list R).

(** The clamp of [WriteWAV] is [max (-1) (min 1 s)]. *)
Lemma sample_to_int16_clamp s :
  sample_to_int16 s = sample_to_int16 (Rmax (-1) (Rmin 1 s)).
Proof.
  assert (Hone : sample_to_int16 1%R = f2Z (m_round (flit 1 * flit 32767)%fl)).
  { unfold sample_to_int16.
    cbn [fltb fleb fneg fmul flit m_round f2Z R_Float64]. r_lit.
    destruct (Rlt_dec _ 1) as [?|_]; [lra|].
    destruct (Rlt_dec 1 _) as [?|_]; [lra|].
    destruct (Rle_dec _ 1) as [_|?]; [|lra]. do 2 f_equal. lra. }
  assert (Hmone : sample_to_int16 (-1)%R = f2Z (m_round (- flit 1 * flit 32768)%fl)).
  { unfold sample_to_int16.
    cbn [fltb fleb fneg fmul flit m_round f2Z R_Float64]. r_lit.
    destruct (Rlt_dec _ (-1)) as [?|_]; [lra|].
    destruct (Rlt_dec (-1) _) as [?|_]; [lra|].
    destruct (Rle_dec _ (-1)) as [?|_]; [lra|]. do 2 f_equal. lra. }
  destruct (Rlt_dec 1 s) as [Hgt|Hle].
  - replace (Rmax (-1) (Rmin 1 s)) with 1%R
      by (unfold Rmax, Rmin; repeat destruct (Rle_dec _ _); lra).
    rewrite Hone. unfold sample_to_int16.
    cbn [fltb fleb fneg fmul flit m_round f2Z R_Float64]. r_lit.
    destruct (Rlt_dec _ s) as [_|?]; [|lra].
    destruct (Rle_dec _ _) as [_|?]; [done|lra].
  - destruct (Rlt_dec s (-1)) as [Hlt|Hge].
    + replace (Rmax (-1) (Rmin 1 s)) with (-1)%R
        by (unfold Rmax, Rmin; repeat destruct (Rle_dec _ _); lra).
      rewrite Hmone. unfold sample_to_int16.
      cbn [fltb fleb fneg fmul flit m_round f2Z R_Float64]. r_lit.
      destruct (Rlt_dec _ s) as [?|_]; [lra|].
      destruct (Rlt_dec s _) as [_|?]; [|lra].
      destruct (Rle_dec _ _) as [?|_]; [lra|done].
    + by replace (Rmax (-1) (Rmin 1 s)) with s
        by (unfold Rmax, Rmin; repeat destruct (Rle_dec _ _); lra).
Qed.

Lemma clamp_range s : (-1 <= Rmax (-1) (Rmin 1 s) <= 1)%R.
Proof. unfold Rmax, Rmin. repeat destruct (Rle_dec _ _); lra. Qed.

Lemma sample_to_int16_range s : (-32768 ≤ sample_to_int16 s ≤ 32767)%Z.
Proof.
  rewrite sample_to_int16_clamp.
  by destruct (sample_to_int16_bounds _ (clamp_range s)).
Qed.

Lemma requantize_value s : requantize s = (IZR (sample_to_int16 s) / 32768)%R.
Proof.
  unfold requantize. rewrite int16_roundtrip by apply sample_to_int16_range.
  cbn [fofZ fdiv flit R_Float64]. r_lit. field.
Qed.

Lemma requantize_clamp s : requantize s = requantize (Rmax (-1) (Rmin 1 s)).
Proof. by rewrite !requantize_value, <- sample_to_int16_clamp. Qed.

(** The 16-bit quantisation moves a sample of [-1, 1] by at most 3/2 steps of
    1/32768. *)
Lemma requantize_error s :
  (-1 <= s <= 1)%R → (Rabs (requantize s - s) <= 3 / 65536)%R.
Proof.
  intros Hs. destruct (sample_to_int16_bounds s Hs) as [_ Hd].
  rewrite requantize_value.
  set (q := IZR (sample_to_int16 s)) in *.
  apply Rabs_le_between in Hd. apply Rabs_le. split.
  - apply Rmult_le_reg_l with 32768%R; [lra|]. field_simplify. lra.
  - apply Rmult_le_reg_l with 32768%R; [lra|]. field_simplify. lra.
Qed.

(** Samples outside [-1, 1] are clipped: whatever the samples are, the file
    [WriteWAV] builds is read back as the samples clamped to [-1, 1], each
    within 3/65536 (one and a half quantisation steps) and in [-1, 1). *)
Theorem WAV_roundtrip_clipped samples (rate : Z) :
  (0 ≤ rate < 2 ^ 32)%Z →
  (Z.of_nat (length samples) < 2 ^ 31)%Z →
  ∃ recovered,
    ReadWAV (WriteWAV samples rate) = inr (recovered, rate)
    ∧ length recovered = length samples
    ∧ ∀ i s r, samples !! i = Some s → recovered !! i = Some r →
               (-1 <= r < 1)%R
               ∧ (Rabs (r - Rmax (-1) (Rmin 1 s)) <= 3 / 65536)%R.
Proof.
  intros Hrate Hn. exists (map requantize samples).
  rewrite ReadWAV_WriteWAV by done. rewrite Z.mod_small by done.
  split; [done|]. split; [by rewrite length_map|].
  intros i s r Hi Hr. rewrite list_lookup_fmap, Hi in Hr.
  change (Some (requantize s) = Some r) in Hr.
  assert (r = requantize s) as -> by congruence. split.
  - rewrite requantize_value. pose proof (sample_to_int16_range s) as [H1 H2].
    apply IZR_le in H1, H2. lra.
  - rewrite requantize_clamp. apply requantize_error, clamp_range.
Qed.

Lemma WAV_roundtrip_clipped_witness :
  (0 ≤ 44100 < 2 ^ 32)%Z
  ∧ (Z.of_nat (length [5; -3; / 2]%R) < 2 ^ 31)%Z
  ∧ ∃ recovered,
      ReadWAV (WriteWAV [5; -3; / 2]%R 44100) = inr (recovered, 44100%Z)
      ∧ length recovered = length [5; -3; / 2]%R
      ∧ ∀ i s r, [5; -3; / 2]%R !! i = Some s → recovered !! i = Some r →
                 (-1 <= r < 1)%R
                 ∧ (Rabs (r - Rmax (-1) (Rmin 1 s)) <= 3 / 65536)%R.
Proof.
  assert (Hrate : (0 ≤ 44100 < 2 ^ 32)%Z) by (split; [lia|reflexivity]).
  assert (Hn : (Z.of_nat (length [5; -3; / 2]%R) < 2 ^ 31)%Z) by reflexivity.
  exact (conj Hrate (conj Hn (WAV_roundtrip_clipped [5; -3; / 2]%R 44100 Hrate Hn))).
Defined.

(** The value [WriteWAV] stores for a sample [ReadWAV] decoded from the
    16-bit value [q]: [q] itself up to 16384, [q - 1] above. *)
Lemma sample_to_int16_requantized (q : Z) :
  (-32768 ≤ q ≤ 32767)%Z →
  sample_to_int16 (IZR q / 32768)%R = if (q <=? 16384)%Z then q else (q - 1)%Z.
Proof.
  intros Hq. destruct Hq as [Hq1 Hq2].
  pose proof (IZR_le _ _ Hq1) as Hr1. pose proof (IZR_le _ _ Hq2) as Hr2.
  unfold sample_to_int16.
  cbn [fltb fleb fneg fmul flit m_round f2Z R_Float64]. r_lit.
  destruct (Rlt_dec _ (IZR q / 32768)) as [Hgt|_]; [lra|].
  destruct (Rlt_dec (IZR q / 32768) _) as [Hlt|_]; [lra|].
  destruct (Rle_dec _ (IZR q / 32768)) as [Hpos|Hneg].
  - assert (0 <= IZR q)%R by lra.
    unfold R_round. destruct (Rle_dec 0 _) as [_|Hn]; [|lra].
    rewrite R_trunc_IZR.
    destruct (Z.leb_spec q 16384) as [Hle|Hgt].
    + apply IZR_le in Hle. apply Zfloor_eq. lra.
    + apply IZR_lt in Hgt. apply Zfloor_eq. rewrite minus_IZR. lra.
  - assert (IZR q < 0)%R by lra.
    unfold R_round. destruct (Rle_dec 0 _) as [Hn|_]; [lra|].
    rewrite R_trunc_IZR.
    destruct (Z.leb_spec q 16384) as [Hle|Hgt]; [|apply lt_IZR in H; lia].
    apply Zceil_eq. lra.
Qed.

(** Decoding a file of [WriteWAV] and encoding the result again does not
    give the same file back: a stored 16-bit value above 16384 comes back
    lowered by one (the write scale is 32767, the read scale 32768); the
    values up to 16384, negative ones included, are kept. *)
Theorem WAV_reencode samples (rate : Z) :
  (0 ≤ rate < 2 ^ 32)%Z →
  (Z.of_nat (length samples) < 2 ^ 31)%Z →
  ∃ recovered,
    ReadWAV (WriteWAV samples rate) = inr (recovered, rate)
    ∧ WriteWAV recovered rate
      = wav_header (length samples) rate
        ++ flat_map (λ s, let q := sample_to_int16 s in
                          le_bytes 2 (if (q <=? 16384)%Z then q else (q - 1)%Z)) samples.
Proof.
  intros Hrate Hn. exists (map requantize samples).
  rewrite ReadWAV_WriteWAV by done. rewrite Z.mod_small by done.
  split; [done|]. rewrite WriteWAV_layout, length_map. f_equal.
  unfold pcm_bytes. induction samples as [|s samples IH]; [done|].
  cbn [map flat_map]. rewrite IH by (simpl in Hn; lia). f_equal.
  cbv zeta. rewrite requantize_value.
  by rewrite sample_to_int16_requantized by apply sample_to_int16_range.
Qed.

Lemma WAV_reencode_witness :
  (0 ≤ 44100 < 2 ^ 32)%Z
  ∧ (Z.of_nat (length [1; / 4]%R) < 2 ^ 31)%Z
  ∧ ∃ recovered,
      ReadWAV (WriteWAV [1; / 4]%R 44100) = inr (recovered, 44100%Z)
      ∧ WriteWAV recovered 44100
        = wav_header (length [1; / 4]%R) 44100
          ++ flat_map (λ s, let q := sample_to_int16 s in
                            le_bytes 2 (if (q <=? 16384)%Z then q else (q - 1)%Z))
                      [1; / 4]%R.
Proof.
  assert (Hrate : (0 ≤ 44100 < 2 ^ 32)%Z) by (split; [lia|reflexivity]).
  assert (Hn : (Z.of_nat (length [1; / 4]%R) < 2 ^ 31)%Z) by reflexivity.
  exact (conj Hrate (conj Hn (WAV_reencode [1; / 4]%R 44100 Hrate Hn))).
Defined.

End WAVClipping.

Section WAVRange.
Implicit Types (data bs : list Z).

Lemma le_uint_bound bs :
  Forall (λ b, 0 ≤ b < 256)%Z bs → (0 ≤ le_uint bs < 2 ^ (8 * Z.of_nat (length bs)))%Z.
Proof.
  induction 1 as [|b bs Hb _ IH]; [simpl; lia|].
  cbn [le_uint fold_right length]. fold (le_uint bs).
  rewrite Nat2Z.inj_succ, Z.mul_succ_r, Z.add_comm, Z.pow_add_r by lia.
  change (2 ^ 8)%Z with 256%Z. nia.
Qed.

Lemma bytes_at_range data lo hi :
  Forall (λ b, 0 ≤ b < 256)%Z data → Forall (λ b, 0 ≤ b < 256)%Z (bytes_at data lo hi).
Proof. intros Hd. unfold bytes_at. by apply Forall_take, Forall_drop. Qed.

Lemma length_bytes_at data lo hi : length (bytes_at data lo hi) ≤ hi - lo.
Proof. unfold bytes_at. rewrite length_take. lia. Qed.

Lemma le_uint_field data lo hi (w : nat) :
  Forall (λ b, 0 ≤ b < 256)%Z data → hi - lo ≤ w →
  (0 ≤ le_uint (bytes_at data lo hi) < 2 ^ (8 * Z.of_nat w))%Z.
Proof.
  intros Hd Hw. pose proof (le_uint_bound _ (bytes_at_range data lo hi Hd)) as Hb.
  pose proof (length_bytes_at data lo hi) as Hl.
  assert (2 ^ (8 * Z.of_nat (length (bytes_at data lo hi)))
          ≤ 2 ^ (8 * Z.of_nat w))%Z by (apply Z.pow_le_mono_r; lia).
  lia.
Qed.

Lemma walk_chunks_ok fuel data pos header pcmData r :
  Forall (λ b, 0 ≤ b < 256)%Z data →
  walk_ok data (header, pcmData) →
  walk_chunks fuel data pos header pcmData = inr r →
  walk_ok data r.
Proof.
  intros Hd. revert pos header pcmData.
  induction fuel as [|fuel IH]; intros pos header pcmData Hok Hw.
  - cbn [walk_chunks] in Hw. destruct (_ <=? _); [done|]. by injection Hw as <-.
  - cbn [walk_chunks] in Hw. destruct (_ <=? _); [|by injection Hw as <-].
    destruct (decide _) as [_|_].
    + destruct (_ <? _); [done|]. destruct (_ <? _); [done|].
      destruct (negb _); [done|]. destruct (negb _); [done|].
      apply IH in Hw; [done|]. destruct Hok as [_ Hp]. split; [|done].
      intros hd [= <-]. cbn [SampleRate].
      apply (le_uint_field data _ _ 4 Hd). lia.
    + destruct (decide _) as [_|_].
      * apply IH in Hw; [done|]. destruct Hok as [Hh _]. split; [done|].
        intros pcm [= <-]. split; [by apply bytes_at_range|].
        unfold bytes_at. rewrite length_take, length_drop.
        eapply Nat.le_trans; [apply Nat.le_min_r|apply Nat.le_sub_l].
      * by apply IH in Hw.
Qed.

Lemma decode_range bs :
  Forall (λ b, 0 ≤ b < 256)%Z bs → length bs ≤ 2 →
  (-1 <= fofZ (F := R) (int16_of_uint16 (le_uint bs)) / flit 32768 < 1)%R.
Proof.
  intros Hb Hl. pose proof (le_uint_bound bs Hb) as Hu.
  assert (2 ^ (8 * Z.of_nat (length bs)) ≤ 2 ^ (8 * Z.of_nat 2))%Z
    by (apply Z.pow_le_mono_r; lia).
  change (2 ^ (8 * Z.of_nat 2))%Z with 65536%Z in *.
  assert (Hq : (-32768 ≤ int16_of_uint16 (le_uint bs) ≤ 32767)%Z).
  { unfold int16_of_uint16. destruct (Z.ltb_spec (le_uint bs) 32768); lia. }
  destruct Hq as [H1 H2]. apply IZR_le in H1, H2.
  cbn [fofZ fdiv flit R_Float64]. r_lit. lra.
Qed.

Lemma ReadWAV_accepted data (samples : list R) (rate : Z) :
  Forall (λ b, 0 ≤ b < 256)%Z data →
  ReadWAV data = inr (samples, rate) →
  Forall (λ s, -1 <= s < 1)%R samples
  ∧ (0 ≤ rate < 2 ^ 32)%Z
  ∧ 2 * length samples ≤ length data.
Proof.
  intros Hd Hr. unfold ReadWAV in Hr.
  destruct (_ <? _); [done|]. destruct (negb _); [done|]. destruct (negb _); [done|].
  destruct (walk_chunks _ _ _ _ _) as [e|[[hd|] [pcm|]]] eqn:Hw; try done.
  apply walk_chunks_ok in Hw; [|done|by split].
  destruct Hw as [Hh Hp]. specialize (Hh hd eq_refl).
  destruct (Hp pcm eq_refl) as [Hpb Hpl]. clear Hp.
  remember (map _ (seq 0 (length pcm / 2))) as raw eqn:Eraw in Hr.
  assert (Hraw : Forall (λ s, -1 <= s < 1)%R raw).
  { rewrite Eraw. apply Forall_map, Forall_forall. intros i _. cbv beta.
    apply decode_range; [by apply bytes_at_range|].
    pose proof (length_bytes_at pcm (i * 2) (i * 2 + 2)). lia. }
  assert (Hrl : length raw = length pcm / 2).
  { rewrite Eraw. by rewrite length_map, length_seq. }
  clear Eraw.
  assert (Hhalf : 2 * (length pcm / 2) ≤ length pcm).
  { pose proof (Nat.div_mod_eq (length pcm) 2). lia. }
  assert (Hnth : ∀ k, (-1 <= nth k raw f0 < 1)%R).
  { intros k. destruct (decide (k < length raw)) as [Hk|Hk].
    - apply (Forall_nth (λ s, -1 <= s < 1)%R f0 raw); done.
    - rewrite nth_overflow by lia. r_ops. lra. }
  destruct (_ =? _)%Z.
  - injection Hr as <- <-. split; [|split; [done|]].
    + apply Forall_map, Forall_forall. intros i _. cbv beta.
      pose proof (Hnth (i * 2)) as H1. pose proof (Hnth (i * 2 + 1)) as H2.
      cbn [f0 fofZ fadd fdiv flit R_Float64] in H1, H2 |- *. r_lit. lra.
    + rewrite length_map, length_seq.
      assert (2 * (length pcm / 2 / 2) ≤ length pcm / 2).
      { pose proof (Nat.div_mod_eq (length pcm / 2) 2). lia. }
      change (2 * (length pcm / 2 / 2) ≤ length data). lia.
  - injection Hr as <- <-. split; [done|]. split; [done|]. lia.
Qed.

(** Whatever bytes [ReadWAV] accepts, the samples it returns are in
    [-1, 1), the sample rate fits 32 bits, and there are at most half as many
    samples as bytes. *)
Theorem ReadWAV_sample_range data (samples : list R) (rate : Z) :
  Forall (λ b, 0 ≤ b < 256)%Z data →
  ReadWAV data = inr (samples, rate) →
  Forall (λ s, -1 <= s < 1)%R samples
  ∧ (0 ≤ rate < 2 ^ 32)%Z
  ∧ 2 * length samples ≤ length data.
Proof. apply ReadWAV_accepted. Qed.


Lemma ReadWAV_sample_range_witness :
  Forall (λ b, 0 ≤ b < 256)%Z (WriteWAV [1%R] 8000)
  ∧ ReadWAV (WriteWAV [1%R] 8000) = inr (map requantize [1%R], (8000 mod 2 ^ 32)%Z)
  ∧ Forall (λ s, -1 <= s < 1)%R (map requantize [1%R])
  ∧ (0 ≤ 8000 mod 2 ^ 32 < 2 ^ 32)%Z
  ∧ 2 * length (map requantize [1%R]) ≤ length (WriteWAV [1%R] 8000).
Proof.
  assert (Hb : Forall (λ b, 0 ≤ b < 256)%Z (WriteWAV [1%R] 8000))
    by apply WriteWAV_bytes_range.
  assert (Hr : ReadWAV (WriteWAV [1%R] 8000)
               = inr (map requantize [1%R], (8000 mod 2 ^ 32)%Z))
    by (apply ReadWAV_WriteWAV; reflexivity).
  exact (conj Hb (conj Hr (ReadWAV_sample_range _ _ _ Hb Hr))).
Defined.

End WAVRange.

(** ** From the decoded file to the encoded answer *)

Section Pipeline.
Implicit Types (h : heap R) (s : slice) (xs ys : list R).

Lemma denoise_list_nonempty xs : denoise_list xs ≠ [].
Proof.
  intros E. apply (f_equal length) in E.
  rewrite length_denoise_list in E. pose proof (length_padded_ge xs) as Hp.
  pose proof FrameSize_pos. simpl in E. lia.
Qed.

Lemma length_denoise_max xs :
  length (denoise_list xs) = Nat.max (length xs) FrameSize.
Proof.
  rewrite length_denoise_list, length_padded.
  destruct (Nat.ltb_spec (length xs) FrameSize); lia.
Qed.

Local Open Scope R_scope.

Lemma lit_1e10_value : flit (F := R) 1e-10 = (/ 10000000000)%R.
Proof. r_ops. r_lit. lra. Qed.

Lemma lit_095_value : flit (F := R) 0.95 = (95 / 100)%R.
Proof. r_ops. r_lit. lra. Qed.

Lemma normalizeValues_peak_or_silent xs t :
  0 <= t → xs ≠ [] →
  (∀ y, y ∈ normalizeValues xs t → Rabs y < flit 1e-10)
  ∨ (∃ y, y ∈ normalizeValues xs t ∧ Rabs y = t).
Proof.
  intros Ht Hne. destruct (Rlt_dec (peakOf xs) (flit 1e-10)) as [Hs|Hs].
  - left. intros y Hy. rewrite normalizeValues_silent in Hy by done.
    pose proof (peakOf_ge xs y Hy). lra.
  - right. assert (Hp : flit 1e-10 <= peakOf xs) by lra.
    assert (Hne' : normalizeValues xs t ≠ []).
    { intros E. apply (f_equal length) in E.
      rewrite length_normalizeValues in E. by destruct xs. }
    destruct (peakOf_attained _ Hne') as (y & Hy & E).
    exists y. split; [done|]. by rewrite <- E, peakOf_normalized.
Qed.

(** In exact arithmetic every sample [Denoise] returns is at most 0.95 in
    absolute value; and for a non-empty input either some sample has
    absolute value exactly 0.95, or all are below 1e-10 (the buffer was left
    as silence). *)
Theorem Denoise_peak h s xs (sampleRate : Z) :
  holdsF h s xs →
  ∃ ys, resultF (Denoise s sampleRate h) = Some ys
        ∧ (∀ y, y ∈ ys → Rabs y <= 95 / 100)
        ∧ (xs ≠ [] →
             (∀ y, y ∈ ys → Rabs y < / 10000000000)
             ∨ (∃ y, y ∈ ys ∧ Rabs y = 95 / 100)).
Proof.
  intros Hs. destruct (Denoise_holds h s xs sampleRate Hs) as (r & h' & -> & _ & Hres).
  eexists. split; [exact Hres|].
  destruct (decide (xs = [])) as [->|Hne].
  - split; [|done]. intros y Hy. by apply elem_of_nil in Hy.
  - rewrite <- lit_095_value, <- lit_1e10_value. split.
    + intros y Hy. unfold denoise_list in Hy.
      apply normalizeValues_bound in Hy; [done| |].
      * rewrite lit_095_value. lra.
      * rewrite lit_095_value, lit_1e10_value. lra.
    + intros _. unfold denoise_list. apply normalizeValues_peak_or_silent.
      * rewrite lit_095_value. lra.
      * intros E. apply (denoise_list_nonempty xs). unfold denoise_list.
        apply (f_equal length) in E. apply length_zero_iff_nil.
        by rewrite length_normalizeValues.
Qed.

Lemma Denoise_peak_witness :
  holdsF [FArr [1; 1]] (Some 0%nat) [1; 1]
  ∧ ∃ ys, resultF (Denoise (Some 0%nat) 44100 [FArr [1; 1]]) = Some ys
        ∧ (∀ y, y ∈ ys → Rabs y <= 95 / 100)
        ∧ ([1; 1] ≠ [] →
             (∀ y, y ∈ ys → Rabs y < / 10000000000)
             ∨ (∃ y, y ∈ ys ∧ Rabs y = 95 / 100)).
Proof.
  exact (conj eq_refl (Denoise_peak [FArr [1; 1]] (Some 0%nat) [1; 1] 44100 eq_refl)).
Defined.

(** The data path of [handleDenoise] ([ReadWAV], [Denoise], [WriteWAV]), in
    exact arithmetic, on a file of less than [2^31] bytes that [ReadWAV]
    accepts: [Denoise] returns, the answer has [44 + 2 * len(cleaned)] bytes
    with [len(cleaned) = max(len(decoded), FrameSize)] (0 for no samples), and
    [ReadWAV] reads it back with the same rate and as many samples, each
    within 3/65536 of the cleaned one (nothing is clipped). *)
Theorem Denoise_pipeline data h s decoded (sr : Z) :
  Forall (λ b, 0 ≤ b < 256)%Z data →
  (Z.of_nat (length data) < 2 ^ 31)%Z →
  ReadWAV data = inr (decoded, sr) →
  holdsF h s decoded →
  ∃ cleaned final,
    resultF (Denoise s sr h) = Some cleaned
    ∧ length cleaned
      = (if decide (decoded = []) then 0 else Nat.max (length decoded) FrameSize)%nat
    ∧ length (WriteWAV cleaned sr) = (44 + 2 * length cleaned)%nat
    ∧ ReadWAV (WriteWAV cleaned sr) = inr (final, sr)
    ∧ length final = length cleaned
    ∧ ∀ i c f, cleaned !! i = Some c → final !! i = Some f →
               Rabs (f - c) <= 3 / 65536.
Proof.
  intros Hd Hlen Hr Hs.
  destruct (ReadWAV_accepted data decoded sr Hd Hr) as (_ & Hsr & Hhalf).
  destruct (Denoise_holds h s decoded sr Hs) as (r & h' & -> & _ & Hres).
  set (cleaned := if decide (decoded = []) then [] else denoise_list decoded) in *.
  assert (Hcl : length cleaned
                = (if decide (decoded = []) then 0 else Nat.max (length decoded) FrameSize)%nat).
  { unfold cleaned. destruct (decide (decoded = [])); [done|apply length_denoise_max]. }
  assert (Hbound : ∀ c, c ∈ cleaned → -1 <= c <= 1).
  { unfold cleaned. destruct (decide (decoded = [])) as [|Hne].
    - intros c Hc. by apply elem_of_nil in Hc.
    - intros c Hc. unfold denoise_list in Hc.
      apply normalizeValues_bound in Hc.
      + rewrite lit_095_value in Hc. apply Rabs_le_between in Hc. lra.
      + rewrite lit_095_value. lra.
      + rewrite lit_095_value, lit_1e10_value. lra. }
  assert (Hn : (Z.of_nat (length cleaned) < 2 ^ 31)%Z).
  { rewrite Hcl. destruct (decide (decoded = [])); [done|].
    assert (Z.of_nat FrameSize = 2048%Z) by reflexivity.
    change (2 ^ 31)%Z with 2147483648%Z in *. lia. }
  exists cleaned, (map requantize cleaned).
  split; [exact Hres|]. split; [exact Hcl|]. split.
  { rewrite WriteWAV_layout, length_app, length_wav_header, length_pcm_bytes. lia. }
  split.
  { rewrite ReadWAV_WriteWAV by done. by rewrite Z.mod_small by done. }
  split; [by rewrite length_map|].
  intros i c f Hc Hf. rewrite list_lookup_fmap, Hc in Hf.
  change (Some (requantize c) = Some f) in Hf.
  assert (f = requantize c) as -> by congruence.
  apply requantize_error, Hbound. by eapply list_elem_of_lookup_2.
Qed.

Lemma Denoise_pipeline_witness :
  Forall (λ b, 0 ≤ b < 256)%Z (WriteWAV [1%R] 8000)
  ∧ (Z.of_nat (length (WriteWAV [1%R] 8000)) < 2 ^ 31)%Z
  ∧ ReadWAV (WriteWAV [1%R] 8000) = inr (map requantize [1%R], (8000 mod 2 ^ 32)%Z)
  ∧ holdsF [FArr (map requantize [1%R])] (Some 0%nat) (map requantize [1%R])
  ∧ ∃ cleaned final,
      resultF (Denoise (Some 0%nat) (8000 mod 2 ^ 32) [FArr (map requantize [1%R])])
      = Some cleaned
      ∧ length cleaned
        = (if decide (map requantize [1%R] = [])
           then 0 else Nat.max (length (map requantize [1%R])) FrameSize)%nat
      ∧ length (WriteWAV cleaned (8000 mod 2 ^ 32)) = (44 + 2 * length cleaned)%nat
      ∧ ReadWAV (WriteWAV cleaned (8000 mod 2 ^ 32)) = inr (final, (8000 mod 2 ^ 32)%Z)
      ∧ length final = length cleaned
      ∧ ∀ i c f, cleaned !! i = Some c → final !! i = Some f →
                 Rabs (f - c) <= 3 / 65536.
Proof.
  assert (Hb : Forall (λ b, 0 ≤ b < 256)%Z (WriteWAV [1%R] 8000))
    by apply WriteWAV_bytes_range.
  assert (Hl : (Z.of_nat (length (WriteWAV [1%R] 8000)) < 2 ^ 31)%Z) by reflexivity.
  assert (Hr : ReadWAV (WriteWAV [1%R] 8000)
               = inr (map requantize [1%R], (8000 mod 2 ^ 32)%Z))
    by (apply ReadWAV_WriteWAV; reflexivity).
  exact (conj Hb (conj Hl (conj Hr (conj eq_refl
    (Denoise_pipeline _ [FArr (map requantize [1%R])] (Some 0%nat) _ _ Hb Hl Hr eq_refl))))).
Defined.

End Pipeline.

(** * [rms] *)

Section RmsRun.
Context {F : Type} `{Float64 F} `{Sqrt64 F}.
Implicit Types (h : heap F) (l : nat) (xs : list F).

Lemma rms_run h s xs : holdsF h s xs → rms s h = Ok (rms_list xs) h.
Proof.
  intros Hs. destruct s as [l|]; [|by rewrite Hs]. simpl in Hs.
  unfold rms, rms_list. rewrite (bind_Ok _ _ _ _ _ (lenF_Ok _ _ _ Hs)).
  destruct (length xs =? 0); [done|].
  erewrite bind_Ok; cycle 1.
  { apply (for_fold_run h 0 (length xs) _
      (λ i sum, (sum + nth i xs f0 * nth i xs f0)%fl)).
    intros i sum Hi. destruct (lookup_lt_is_Some_2 xs i) as [x Hx]; [lia|].
    rewrite (bind_Ok _ _ _ _ _ (getF_Ok _ _ _ _ _ Hs Hx)).
    by rewrite (nth_lookup_Some' _ _ _ _ Hx). }
  rewrite Nat.sub_0_r.
  by rewrite (fold_left_seq_nth (λ x sum, (sum + x * x)%fl)).
Qed.

End RmsRun.

Section RmsReal.
Implicit Types (h : heap R) (s : slice) (xs : list R).
Local Open Scope R_scope.

Lemma fold_squares xs a :
  fold_left (λ sum v, (sum + v * v)%fl) xs a = a + sum_squares xs.
Proof.
  unfold sum_squares. revert a. induction xs as [|x xs IH]; intros a.
  - simpl. r_ops. lra.
  - cbn [fold_left]. rewrite IH, (IH (f0 + x * x)%fl). r_ops. lra.
Qed.

Lemma sum_squares_nil : sum_squares (F := R) [] = 0.
Proof. unfold sum_squares. simpl. by r_ops. Qed.

Lemma sum_squares_cons x xs : sum_squares (x :: xs) = x * x + sum_squares xs.
Proof.
  unfold sum_squares at 1. cbn [fold_left]. rewrite fold_squares. r_ops. lra.
Qed.

Lemma sum_squares_bounds xs a b :
  0 <= a → (∀ x, x ∈ xs → a <= Rabs x <= b) →
  INR (length xs) * (a * a) <= sum_squares xs <= INR (length xs) * (b * b).
Proof.
  intros Ha. induction xs as [|x xs IH]; intros Hx.
  - rewrite sum_squares_nil. simpl. lra.
  - rewrite sum_squares_cons. cbn [length]. rewrite S_INR.
    destruct IH as [IH1 IH2].
    { intros y Hy. apply Hx. by apply list_elem_of_further. }
    destruct (Hx x (list_elem_of_here _ _)) as [H1 H2].
    assert (Hsq : x * x = Rabs x * Rabs x).
    { unfold Rabs. destruct (Rcase_abs x); lra. }
    rewrite Hsq. split; nra.
Qed.

Lemma sum_squares_scale c xs :
  sum_squares (map (λ x, c * x) xs) = c * c * sum_squares xs.
Proof.
  induction xs as [|x xs IH].
  - simpl. rewrite sum_squares_nil. lra.
  - cbn [map]. rewrite !sum_squares_cons, IH. lra.
Qed.

Lemma rms_list_nil : rms_list (F := R) [] = 0.
Proof. unfold rms_list. simpl. r_ops. r_lit. lra. Qed.

Lemma rms_list_value xs :
  xs ≠ [] → rms_list xs = R_sqrt.sqrt (sum_squares xs / INR (length xs)).
Proof.
  intros Hne. unfold rms_list.
  destruct (Nat.eqb_spec (length xs) 0) as [E|_].
  { by apply length_zero_iff_nil in E. }
  unfold m_sqrt, R_Sqrt64. f_equal. r_ops. by rewrite INR_IZR_INZ.
Qed.

Lemma length_pos_R xs : xs ≠ [] → 0 < INR (length xs).
Proof.
  intros Hne. apply lt_0_INR. destruct xs; [done|]. simpl. lia.
Qed.

Lemma rms_list_bounds xs a b :
  xs ≠ [] → 0 <= a → (∀ x, x ∈ xs → a <= Rabs x <= b) →
  a <= rms_list xs <= b.
Proof.
  intros Hne Ha Hx. rewrite rms_list_value by done.
  pose proof (length_pos_R xs Hne) as Hn.
  destruct (sum_squares_bounds xs a b Ha Hx) as [H1 H2].
  assert (Hb : 0 <= b).
  { destruct xs as [|x xs]; [done|].
    destruct (Hx x (list_elem_of_here _ _)). lra. }
  set (S := sum_squares xs) in *. set (n := INR (length xs)) in *.
  assert (Hlo : a * a <= S / n).
  { apply Rmult_le_reg_l with n; [done|]. field_simplify; lra. }
  assert (Hhi : S / n <= b * b).
  { apply Rmult_le_reg_l with n; [done|]. field_simplify; lra. }
  split.
  - rewrite <- (sqrt_square a) by done. by apply sqrt_le_1_alt.
  - rewrite <- (sqrt_square b) by done. by apply sqrt_le_1_alt.
Qed.

Lemma rms_list_scale c xs :
  rms_list (map (λ x, c * x) xs) = Rabs c * rms_list xs.
Proof.
  destruct (decide (xs = [])) as [->|Hne].
  { simpl. rewrite rms_list_nil. lra. }
  assert (Hne' : map (λ x, c * x) xs ≠ []) by (by destruct xs).
  rewrite !rms_list_value by done.
  rewrite length_map, sum_squares_scale.
  pose proof (length_pos_R xs Hne) as Hn.
  replace (c * c * sum_squares xs / INR (length xs))
    with (Rabs c * Rabs c * (sum_squares xs / INR (length xs))).
  - rewrite sqrt_mult_alt by (apply Rmult_le_pos; apply Rabs_pos).
    by rewrite sqrt_square by apply Rabs_pos.
  - assert (Rabs c * Rabs c = c * c) as ->.
    { unfold Rabs. destruct (Rcase_abs c); lra. }
    field. lra.
Qed.

(** [rms] only reads its argument and returns 0 for an empty one; in exact
    arithmetic the value for a non-empty one lies between the smallest and
    the largest absolute value of the samples. *)
Theorem rms_bounds h s xs :
  holdsF h s xs →
  ∃ v, rms s h = Ok v h
       ∧ (xs = [] → v = 0)
       ∧ ∀ a b, xs ≠ [] → 0 <= a → (∀ x, x ∈ xs → a <= Rabs x <= b) →
                a <= v <= b.
Proof.
  intros Hs. exists (rms_list xs). split; [by apply rms_run|]. split.
  - intros ->. apply rms_list_nil.
  - intros a b. apply rms_list_bounds.
Qed.

Lemma rms_bounds_witness :
  holdsF [FArr [3; -4]] (Some 0%nat) [3; -4]
  ∧ ∃ v, rms (Some 0%nat) [FArr [3; -4]] = Ok v [FArr [3; -4]]
       ∧ ([3; -4] = [] → v = 0)
       ∧ ∀ a b, [3; -4] ≠ [] → 0 <= a → (∀ x, x ∈ [3; -4] → a <= Rabs x <= b) →
                a <= v <= b.
Proof.
  exact (conj eq_refl (rms_bounds [FArr [3; -4]] (Some 0%nat) [3; -4] eq_refl)).
Defined.

(** Scaling the samples by [c] scales their [rms] by [|c|], in exact
    arithmetic. *)
Theorem rms_scale h s xs h' s' (c : R) :
  holdsF h s xs → holdsF h' s' (map (λ x, c * x) xs) →
  ∃ v, rms s h = Ok v h ∧ rms s' h' = Ok (Rabs c * v) h'.
Proof.
  intros Hs Hs'. exists (rms_list xs). split; [by apply rms_run|].
  rewrite <- rms_list_scale. by apply rms_run.
Qed.

Lemma rms_scale_witness :
  holdsF [FArr [3; -4]] (Some 0%nat) [3; -4]
  ∧ holdsF [FArr [-2 * 3; -2 * -4]] (Some 0%nat) (map (λ x, -2 * x) [3; -4])
  ∧ ∃ v, rms (Some 0%nat) [FArr [3; -4]] = Ok v [FArr [3; -4]]
       ∧ rms (Some 0%nat) [FArr [-2 * 3; -2 * -4]]
         = Ok (Rabs (-2) * v) [FArr [-2 * 3; -2 * -4]].
Proof.
  exact (conj eq_refl (conj eq_refl
    (rms_scale [FArr [3; -4]] (Some 0%nat) [3; -4]
       [FArr [-2 * 3; -2 * -4]] (Some 0%nat) (-2) eq_refl eq_refl))).
Defined.

End RmsReal.

(** * The encoder of the front end, read by [ReadWAV] *)

Section EncodeRun.
Context {F : Type} `{Float64 F}.
Implicit Types (samples : list F) (view done bs : list Z).

(** Writing right after the bytes written so far, into a buffer of zeros. *)
Lemma view_set_next done m offset bs :
  offset = length done → length bs ≤ m →
  view_set (done ++ replicate m 0%Z) offset bs
  = Some ((done ++ bs) ++ replicate (m - length bs) 0%Z).
Proof.
  intros -> Hm. unfold view_set.
  rewrite length_app, length_replicate.
  destruct (Nat.leb_spec (length done + length bs) (length done + m)); [|lia].
  rewrite take_app_length, drop_app_add, drop_replicate.
  by rewrite <- app_assoc.
Qed.

Lemma setUint32_next done m offset v :
  offset = length done → 4 ≤ m →
  setUint32 (done ++ replicate m 0%Z) offset v
  = Some ((done ++ le_bytes 4 v) ++ replicate (m - 4) 0%Z).
Proof.
  intros Ho Hm. unfold setUint32.
  rewrite view_set_next by (rewrite ?length_le_bytes; done).
  by rewrite length_le_bytes.
Qed.

Lemma setUint16_next done m offset v :
  offset = length done → 2 ≤ m →
  setUint16 (done ++ replicate m 0%Z) offset v
  = Some ((done ++ le_bytes 2 v) ++ replicate (m - 2) 0%Z).
Proof.
  intros Ho Hm. unfold setUint16.
  rewrite view_set_next by (rewrite ?length_le_bytes; done).
  by rewrite length_le_bytes.
Qed.

Lemma le_bytes_1 v : (0 ≤ v < 256)%Z → le_bytes 1 v = [v].
Proof.
  intros Hv. unfold le_bytes. simpl. rewrite Z.div_1_r. by rewrite Z.mod_small.
Qed.

Lemma writeString_from_next done m offset i codes :
  offset + i = length done → length codes ≤ m →
  Forall (λ b, 0 ≤ b < 256)%Z codes →
  writeString_from (done ++ replicate m 0%Z) offset i codes
  = Some ((done ++ codes) ++ replicate (m - length codes) 0%Z).
Proof.
  revert done m i. induction codes as [|c codes IH]; intros done m i Ho Hm Hc.
  - simpl. by rewrite app_nil_r, Nat.sub_0_r.
  - apply Forall_cons in Hc as [Hc Hcs]. simpl in Hm.
    cbn [writeString_from]. unfold setUint8.
    rewrite view_set_next by (rewrite ?length_le_bytes; lia).
    rewrite le_bytes_1 by done. cbn [mbind option_bind length].
    rewrite IH; [|rewrite length_app; simpl; lia|lia|done].
    rewrite <- (app_assoc done [c] codes). simpl. do 3 f_equal. lia.
Qed.

Lemma writeString_next done m offset str :
  offset = length done → String.length str ≤ m →
  writeString (done ++ replicate m 0%Z) offset str
  = Some ((done ++ ascii_bytes str) ++ replicate (m - String.length str) 0%Z).
Proof.
  intros Ho Hm. unfold writeString.
  assert (Hl : length (ascii_bytes str) = String.length str).
  { unfold ascii_bytes. rewrite length_map. clear. induction str as [|a str IH]; simpl; [done|by rewrite IH]. }
  rewrite writeString_from_next; [by rewrite Hl|lia|lia|apply ascii_bytes_range].
Qed.

Lemma encode_samples_next done offset samples :
  offset = length done →
  encode_samples (done ++ replicate (length samples * 2) 0%Z) offset samples
  = Some (done ++ js_pcm_bytes samples).
Proof.
  revert done offset. induction samples as [|x samples IH]; intros done offset Ho.
  - simpl. by rewrite !app_nil_r.
  - cbn [encode_samples]. fold (js_sample_int16 x). unfold setInt16.
    rewrite view_set_next by (rewrite ?length_le_bytes; simpl; lia).
    cbn [mbind option_bind]. rewrite length_le_bytes.
    replace (length (x :: samples) * 2 - 2) with (length samples * 2) by (simpl; lia).
    rewrite IH by (rewrite length_app, length_le_bytes; lia).
    unfold js_pcm_bytes. cbn [flat_map]. by rewrite <- app_assoc.
Qed.

Lemma length_js_wav_header n (rate : F) : length (js_wav_header n rate) = 44.
Proof. reflexivity. Qed.

Lemma length_js_pcm_bytes samples : length (js_pcm_bytes samples) = length samples * 2.
Proof.
  unfold js_pcm_bytes. induction samples as [|x samples IH]; [done|].
  cbn [flat_map]. rewrite length_app, length_le_bytes, IH. simpl. lia.
Qed.

(** [encodeWAV] never leaves its buffer: it returns the header followed by
    two bytes for each sample. *)
Lemma encodeWAV_layout samples (rate : F) :
  encodeWAV samples rate
  = Some (js_wav_header (length samples) rate ++ js_pcm_bytes samples).
Proof.
  unfold encodeWAV. cbv zeta.
  change (replicate (44 + length samples * 2) 0%Z)
    with ([] ++ replicate (44 + length samples * 2) 0%Z).
  repeat (first
    [ rewrite writeString_next by (first [reflexivity | cbn [String.length]; lia])
    | rewrite setUint32_next by (first [reflexivity | lia])
    | rewrite setUint16_next by (first [reflexivity | lia]) ];
    cbn [mbind option_bind String.length]).
  replace (44 + length samples * 2 - 4 - 4 - 4 - 4 - 4 - 2 - 2 - 4 - 4 - 2 - 2 - 4 - 4)
    with (length samples * 2) by lia.
  rewrite encode_samples_next by reflexivity.
  f_equal.
Qed.

(** The 16-bit words of a data chunk are read back. *)
Lemma decode_words {A} (g : list Z → A) (qs : list Z) :
  map (λ i, g (bytes_at (flat_map (le_bytes 2) qs) (i * 2) (i * 2 + 2)))
      (seq 0 (length qs))
  = map (λ q, g (le_bytes 2 q)) qs.
Proof.
  induction qs as [|q qs IH]; [done|].
  simpl length. rewrite <- cons_seq, !map_cons. f_equal.
  rewrite <- IH, <- seq_shift, map_map. apply map_ext. intros i. reflexivity.
Qed.

End EncodeRun.

Section EncodeReal.
Implicit Types (x s : R) (samples : list R).
Local Open Scope R_scope.

Lemma R_ToInteger x : ToInteger x = R_trunc x.
Proof.
  unfold ToInteger, isFinite. by rewrite R_isNaN.
Qed.

Lemma R_clamp x : Math_max (flit (-1)) (Math_min (flit 1) x) = Rmax (-1) (Rmin 1 x).
Proof.
  unfold Math_max, Math_min. rewrite !R_isNaN.
  cbn [fltb flit R_Float64]. r_lit. unfold Rmax, Rmin.
  repeat (destruct (Rlt_dec _ _) || destruct (Rle_dec _ _)); lra.
Qed.

(** The stored value, for the clamped sample [s]: the truncation of
    [32768 s] (negative [s]) or [32767 s]. *)
Lemma js_sample_int16_value x :
  let s := Rmax (-1) (Rmin 1 x) in
  js_sample_int16 x = if Rlt_dec s 0 then Zceil (s * 32768) else Zfloor (s * 32767).
Proof.
  cbv zeta. unfold js_sample_int16. cbv zeta. rewrite R_clamp, R_ToInteger.
  pose proof (clamp_range x) as Hs. set (s := Rmax (-1) (Rmin 1 x)) in *.
  cbn [fltb fmul flit R_Float64]. r_lit.
  destruct (Rlt_dec s (0 * / 1)) as [Hn|Hp]; destruct (Rlt_dec s 0) as [Hn'|Hp']; try lra.
  - unfold R_trunc. destruct (Rle_dec 0 _) as [H0|_].
    + assert (E : s * (32768 * / 1) = s * 32768) by lra. rewrite E. lra.
    + f_equal. lra.
  - unfold R_trunc. destruct (Rle_dec 0 _) as [_|H0].
    + f_equal. lra.
    + exfalso. apply H0. nra.
Qed.

Lemma js_sample_int16_bounds x :
  let s := Rmax (-1) (Rmin 1 x) in
  (-32768 ≤ js_sample_int16 x ≤ 32767)%Z
  ∧ Rabs (IZR (js_sample_int16 x) / 32768 - s) <= / 16384
  ∧ Rabs (IZR (js_sample_int16 x) / 32768) <= Rabs s.
Proof.
  cbv zeta. rewrite js_sample_int16_value. cbv zeta.
  pose proof (clamp_range x) as Hs. set (s := Rmax (-1) (Rmin 1 x)) in *.
  destruct (Rlt_dec s 0) as [Hn|Hp].
  - pose proof (Zceil_bound (s * 32768)) as Hb. set (q := Zceil _) in *.
    assert (-32769 < IZR q < 1) as [H1 H2] by lra.
    apply lt_IZR in H1, H2. split; [lia|].
    assert (Hq : IZR q <= 0) by (apply IZR_le; lia).
    split.
    + apply Rabs_le. lra.
    + rewrite !Rabs_left1 by lra. lra.
  - pose proof (Zfloor_bound (s * 32767)) as Hb. set (q := Zfloor _) in *.
    assert (-1 < IZR q < 32768) as [H1 H2] by lra.
    apply lt_IZR in H1, H2. split; [lia|].
    assert (Hq : 0 <= IZR q) by (apply IZR_le; lia).
    split.
    + apply Rabs_le. lra.
    + rewrite !Rabs_right by lra. lra.
Qed.

Lemma js_pcm_bytes_words samples :
  js_pcm_bytes samples = flat_map (le_bytes 2) (map js_sample_int16 samples).
Proof.
  unfold js_pcm_bytes. induction samples as [|x samples IH]; [done|].
  cbn [flat_map map]. by rewrite IH.
Qed.

Lemma ReadWAV_encodeWAV_file samples (sampleRate : R) :
  (Z.of_nat (length samples) < 2 ^ 31)%Z →
  ReadWAV (js_wav_header (length samples) sampleRate ++ js_pcm_bytes samples)
  = inr (map (λ x, IZR (js_sample_int16 x) / 32768) samples,
         (R_trunc sampleRate mod 2 ^ 32)%Z).
Proof.
  intros Hn. set (n := length samples).
  rewrite (ReadWAV_mono_file (js_wav_header n sampleRate) (js_pcm_bytes samples)
             (R_trunc sampleRate mod 2 ^ 32)%Z (n * 2)); try reflexivity.
  - f_equal. f_equal. rewrite length_js_pcm_bytes, Nat.div_mul by done.
    rewrite js_pcm_bytes_words.
    rewrite <- (length_map js_sample_int16 samples).
    rewrite (decode_words (λ bs, (fofZ (int16_of_uint16 (le_uint bs)) / flit 32768)%fl)).
    rewrite map_map. apply map_ext. intros x.
    rewrite int16_roundtrip by apply (js_sample_int16_bounds x).
    cbn [fofZ fdiv flit R_Float64]. r_lit. field.
  - change (bytes_at (js_wav_header n sampleRate) 24 28)
      with (le_bytes 4 (ToInteger sampleRate)).
    by rewrite le_uint_le_bytes, R_ToInteger.
  - change (bytes_at (js_wav_header n sampleRate) 40 44)
      with (le_bytes 4 (Z.of_nat n * 2)).
    rewrite le_uint_le_bytes, Z.mod_small.
    + by rewrite Nat2Z.inj_mul.
    + change (2 ^ (8 * Z.of_nat 4))%Z with 4294967296%Z.
      change (2 ^ 31)%Z with 2147483648%Z in Hn. unfold n. lia.
  - by rewrite length_js_pcm_bytes.
Qed.

(** What the front end uploads is a file the back end reads: for fewer than
    [2^31] samples, in exact arithmetic, [encodeWAV] never leaves its buffer,
    the file has [44 + 2 * samples.length] bytes, and [ReadWAV] returns the
    sample rate truncated to 32 bits and as many samples, each the sample
    clamped to [-1, 1] and moved towards zero by at most 1/16384. *)
Theorem encodeWAV_ReadWAV samples (sampleRate : R) :
  (Z.of_nat (length samples) < 2 ^ 31)%Z →
  ∃ data decoded,
    encodeWAV samples sampleRate = Some data
    ∧ length data = (44 + 2 * length samples)%nat
    ∧ ReadWAV data = inr (decoded, (R_trunc sampleRate mod 2 ^ 32)%Z)
    ∧ length decoded = length samples
    ∧ ∀ i x d, samples !! i = Some x → decoded !! i = Some d →
               Rabs (d - Rmax (-1) (Rmin 1 x)) <= / 16384
               ∧ Rabs d <= Rabs (Rmax (-1) (Rmin 1 x)).
Proof.
  intros Hn.
  exists (js_wav_header (length samples) sampleRate ++ js_pcm_bytes samples),
         (map (λ x, IZR (js_sample_int16 x) / 32768) samples).
  split; [apply encodeWAV_layout|]. split.
  { rewrite length_app, length_js_wav_header, length_js_pcm_bytes. lia. }
  split; [by apply ReadWAV_encodeWAV_file|]. split; [by rewrite length_map|].
  intros i x d Hx Hd. rewrite list_lookup_fmap, Hx in Hd.
  assert (d = IZR (js_sample_int16 x) / 32768) as -> by (simpl in Hd; congruence).
  apply (js_sample_int16_bounds x).
Qed.

Lemma encodeWAV_ReadWAV_witness :
  (Z.of_nat (length [2; - / 2]%R) < 2 ^ 31)%Z
  ∧ ∃ data decoded,
      encodeWAV [2; - / 2]%R 44100 = Some data
      ∧ length data = (44 + 2 * length [2; - / 2]%R)%nat
      ∧ ReadWAV data = inr (decoded, (R_trunc 44100 mod 2 ^ 32)%Z)
      ∧ length decoded = length [2; - / 2]%R
      ∧ ∀ i x d, [2; - / 2]%R !! i = Some x → decoded !! i = Some d →
                 Rabs (d - Rmax (-1) (Rmin 1 x)) <= / 16384
                 ∧ Rabs d <= Rabs (Rmax (-1) (Rmin 1 x)).
Proof.
  assert (Hn : (Z.of_nat (length [2; - / 2]%R) < 2 ^ 31)%Z) by reflexivity.
  exact (conj Hn (encodeWAV_ReadWAV [2; - / 2]%R 44100 Hn)).
Defined.

End EncodeReal.

(** ** Channels *)

Section Channels.
Implicit Types (hdr : list Z) (qs : list Z).

Lemma length_words qs : length (flat_map (le_bytes 2) qs) = length qs * 2.
Proof.
  induction qs as [|q qs IH]; [done|].
  cbn [flat_map]. rewrite length_app, length_le_bytes, IH. simpl. lia.
Qed.

Lemma decode_words_int16 qs :
  Forall (λ q, -32768 ≤ q ≤ 32767)%Z qs →
  map (λ i, (fofZ (F := R)
               (int16_of_uint16 (le_uint (bytes_at (flat_map (le_bytes 2) qs) (i * 2) (i * 2 + 2))))
             / flit 32768)%fl) (seq 0 (length qs))
  = map (λ q, (IZR q / 32768)%R) qs.
Proof.
  intros Hq.
  rewrite (decode_words (λ bs, (fofZ (F := R) (int16_of_uint16 (le_uint bs)) / flit 32768)%fl)).
  apply map_ext_in. intros q Hin.
  rewrite Forall_forall in Hq. rewrite int16_roundtrip by (apply Hq; by apply list_elem_of_In).
  cbn [fofZ fdiv flit R_Float64]. r_lit. field.
Qed.

(** The channels of a 16-bit PCM file whose data chunk holds the 16-bit
    values [qs]: with two channels [ReadWAV] returns the mean of each pair of
    consecutive values (a last value without partner is dropped); with any
    other channel count, 0 and 3 or more included, it returns every value,
    interleaved as stored. *)
Theorem ReadWAV_channels hdr (ch rate : Z) qs :
  pcm16_header hdr ch rate (length qs * 2) →
  Forall (λ q, -32768 ≤ q ≤ 32767)%Z qs →
  ReadWAV (hdr ++ flat_map (le_bytes 2) qs)
  = inr (if (ch =? 2)%Z
         then map (λ i, ((IZR (nth (i * 2) qs 0%Z) + IZR (nth (i * 2 + 1) qs 0%Z))
                         / 65536)%R) (seq 0 (length qs / 2))
         else map (λ q, (IZR q / 32768)%R) qs, rate).
Proof.
  intros (H1 & H2 & H3 & H4 & H5 & H6 & H7 & H8 & H9 & H10 & H11) Hq.
  rewrite (ReadWAV_pcm_file hdr _ ch rate (length qs * 2))
    by (done || by rewrite length_words).
  cbv zeta. rewrite length_words, Nat.div_mul by done.
  rewrite decode_words_int16 by done.
  destruct (ch =? 2)%Z; [|done].
  do 2 f_equal. apply map_ext_in. intros i Hi%in_seq.
  assert (Hlt : i * 2 + 1 < length qs).
  { pose proof (Nat.div_mod_eq (length qs) 2). lia. }
  set (g := λ q : Z, (IZR q / 32768)%R).
  rewrite (nth_indep (map g qs) f0 (g 0%Z)) by (rewrite length_map; lia).
  rewrite (nth_indep (map g qs) f0 (g 0%Z)) by (rewrite length_map; lia).
  rewrite !map_nth. unfold g. cbn [fadd fdiv flit R_Float64]. r_lit. field.
Qed.

Lemma ReadWAV_channels_witness :
  pcm16_header (take 22 (wav_header 3 8000) ++ [2; 0]%Z ++ drop 24 (wav_header 3 8000)) 2 8000 (length [100; -300; 7]%Z * 2)
  ∧ Forall (λ q, -32768 ≤ q ≤ 32767)%Z [100; -300; 7]%Z
  ∧ ReadWAV ((take 22 (wav_header 3 8000) ++ [2; 0]%Z ++ drop 24 (wav_header 3 8000))
             ++ flat_map (le_bytes 2) [100; -300; 7]%Z)
    = inr (if (2 =? 2)%Z
           then map (λ i, ((IZR (nth (i * 2) [100; -300; 7]%Z 0%Z)
                            + IZR (nth (i * 2 + 1) [100; -300; 7]%Z 0%Z)) / 65536)%R)
                    (seq 0 (length [100; -300; 7]%Z / 2))
           else map (λ q, (IZR q / 32768)%R) [100; -300; 7]%Z, 8000%Z).
Proof.
  assert (Hh : pcm16_header (take 22 (wav_header 3 8000) ++ [2; 0]%Z ++ drop 24 (wav_header 3 8000)) 2 8000 (length [100; -300; 7]%Z * 2))
    by (repeat split; reflexivity).
  assert (Hq : Forall (λ q, -32768 ≤ q ≤ 32767)%Z [100; -300; 7]%Z)
    by (repeat constructor; lia).
  exact (conj Hh (conj Hq (ReadWAV_channels _ 2 8000 [100; -300; 7]%Z Hh Hq))).
Defined.

End Channels.

(** ** What [FFT] computes *)

Section TransformValue.
Implicit Types (h : heap R) (s : slice) (xs : list (complex128 R)).

(** In exact arithmetic, on a power-of-two length [N], [FFT] returns the
    discrete Fourier transform of its input: [N] elements, the one at index
    [k] being the sum over [n] of [x[n] * exp(-2 pi i n k / N)]. *)
Theorem FFT_computes_dft h s xs L :
  holdsC h s xs → length xs = 2 ^ L →
  ∃ X, resultC (FFT s h) = Some X
       ∧ length X = length xs
       ∧ ∀ k, k < length xs → X !! k = Some (dft xs k).
Proof.
  intros Hs Hlen. assert (Hpos := pow2_nonzero L).
  destruct s as [l|]; [|simpl in Hs; subst xs; simpl in Hlen; lia].
  simpl in Hs. destruct (FFT_run h l xs L Hs Hlen) as [HF _].
  exists (dft_list xs). split; [|split].
  - rewrite HF. cbn [resultC]. rewrite lookup_alloc_new.
    by rewrite (fft_list_dft xs L Hlen).
  - apply length_dft_list.
  - intros k Hk. unfold dft_list.
    rewrite list_lookup_fmap, lookup_seq_lt by done. done.
Qed.

Lemma FFT_computes_dft_witness :
  holdsC [CArr [Cx 1%R 0%R; Cx 2%R 0%R]] (Some 0) [Cx 1%R 0%R; Cx 2%R 0%R]
  ∧ length [Cx 1%R 0%R; Cx 2%R 0%R] = 2 ^ 1
  ∧ ∃ X, resultC (FFT (Some 0) [CArr [Cx 1%R 0%R; Cx 2%R 0%R]]) = Some X
         ∧ length X = length [Cx 1%R 0%R; Cx 2%R 0%R]
         ∧ ∀ k, k < length [Cx 1%R 0%R; Cx 2%R 0%R] →
                X !! k = Some (dft [Cx 1%R 0%R; Cx 2%R 0%R] k).
Proof.
  exact (conj eq_refl (conj eq_refl
    (FFT_computes_dft [CArr [Cx 1%R 0%R; Cx 2%R 0%R]] (Some 0)
       [Cx 1%R 0%R; Cx 2%R 0%R] 1 eq_refl eq_refl))).
Defined.

End TransformValue.
